(** * Streaming change-detection and retention pipeline of p0-myadmin

    A shallow embedding of the worker of the repository and the facts
    proved about it.

    Definitions:
    - [JsMap]: the insertion-ordered [Map] of JavaScript, as the worker
      uses it (string keys);
    - [AddressCodec]: [toBase58] of [worker/src/grpc.ts], with the decoder
      the specification asks for;
    - [Db]: the queries of [worker/src/db.ts];
    - [Grpc]: the [GrpcClient] class of [worker/src/grpc.ts];
    - [Processor]: the [ChangeProcessor] class of
      [worker/src/processor.ts];
    - [Worker]: the callback that [worker/src/index.ts] sets on the
      client;
    - [Cleanup]: [pruneAccountChanges] and [cleanupProgram] of the
      per-account cleanup job;
    - [Validation]: [isValidPubkey] of [src/lib/utils/validation.ts].

    Facts: [JsMapFacts], [AddressCodecFacts], [GrpcFacts],
    [ProcessorFacts] with [ProcessorSamples], [CleanupFacts]; then
    [AddressCodecMore], [GrpcMore], [DbMore], [ProcessorMore],
    [CleanupMore] and [WorkerMore]. *)

From Stdlib Require Import ZArith List String Ascii Bool Lia Arith.
From Stdlib.Strings Require Import Byte.
From Stdlib Require Import Permutation Sorted.
From Equations Require Import Equations.
Import ListNotations.

Local Open Scope string_scope.
Local Open Scope list_scope.
Local Open Scope Z_scope.

(** ** Promises

  An [async] function either resolves with a value or rejects with the
  error that was thrown. *)

Inductive Promise (A : Type) : Type :=
| Resolved (a : A)
| Rejected (error : string).
Arguments Resolved {A} a.
Arguments Rejected {A} error.

(** ** JavaScript [Map] with string keys

  A [Map] iterates in insertion order; [set] on a key that is present
  keeps the position of the key and replaces its value. *)

Module JsMap.

Section Ops.
Context {V : Type}.

Definition t : Type := list (string * V).

Definition empty : t := [].

Fixpoint get (k : string) (m : t) : option V :=
  match m with
  | [] => None
  | (k', v) :: rest => if String.eqb k k' then Some v else get k rest
  end.

Definition has (k : string) (m : t) : bool :=
  match get k m with Some _ => true | None => false end.

Fixpoint set (k : string) (v : V) (m : t) : t :=
  match m with
  | [] => [(k, v)]
  | (k', v') :: rest =>
      if String.eqb k k' then (k, v) :: rest else (k', v') :: set k v rest
  end.

Fixpoint delete (k : string) (m : t) : t :=
  match m with
  | [] => []
  | (k', v') :: rest =>
      if String.eqb k k' then rest else (k', v') :: delete k rest
  end.

Definition clear (m : t) : t := [].

Definition size (m : t) : nat := List.length m.

Definition keys (m : t) : list string := List.map fst m.

Definition values (m : t) : list V := List.map snd m.

Definition entries (m : t) : list (string * V) := m.

(** The maps a program can build have no key twice. *)
Definition wf (m : t) : Prop := NoDup (keys m).

End Ops.

Arguments t : clear implicits.

End JsMap.

(** ** AddressCodec: [toBase58] of [worker/src/grpc.ts]

    A [Uint8Array] is a list of bytes.  The numbers of the encoder stay
    below [2^16], so the doubles and the 32-bit shift of JavaScript are
    exact on them and [Z] models them without wrap-around. *)

Module AddressCodec.

Definition ALPHABET : string :=
  "123456789ABCDEFGHJKLMNPQRSTUVWXYZabcdefghijkmnopqrstuvwxyz".

Definition byte_value (b : byte) : Z := Z.of_N (Byte.to_N b).

(** [ALPHABET[d]] appended to a string: indexing a string out of its range
    gives [undefined], which [+=] appends as text. *)
Definition alphabet_at (d : Z) : string :=
  if d <? 0 then "undefined"
  else match String.get (Z.to_nat d) ALPHABET with
       | Some c => String c EmptyString
       | None => "undefined"
       end.

(** [for (let i = 0; i < digits.length; i++)
      { carry += digits[i] << 8; digits[i] = carry % 58;
        carry = Math.floor(carry / 58); }]
    It returns the digits as updated and the carry left. *)
Fixpoint carry_pass (digits : list Z) (carry : Z) : list Z * Z :=
  match digits with
  | [] => ([], carry)
  | d :: rest =>
      let carry' := carry + Z.shiftl d 8 in
      let (rest', out) := carry_pass rest (carry' / 58) in
      (carry' mod 58 :: rest', out)
  end.

(** [while (carry > 0) { digits.push(carry % 58);
                         carry = Math.floor(carry / 58); }]
    It returns the digits pushed, in the order of the pushes. *)
Equations push_carry (carry : Z) : list Z by wf (Z.to_nat carry) lt :=
  push_carry carry with Z_lt_dec 0 carry := {
    | left _ => carry mod 58 :: push_carry (carry / 58)
    | right _ => []
  }.
Next Obligation.
  apply Z2Nat.inj_lt; try lia.
  - apply Z.div_pos; lia.
  - apply Z.div_lt; lia.
Qed.

(** The body of [for (const byte of bytes)] of the conversion. *)
Definition absorb_byte (digits : list Z) (b : byte) : list Z :=
  let (digits', carry) := carry_pass digits (byte_value b) in
  digits' ++ push_carry carry.

(** The loop marked "Leading zeros": one [ALPHABET[0]] for each zero byte
    at the front. *)
Fixpoint leading_zeros (bytes : list byte) : string :=
  match bytes with
  | b :: rest =>
      if byte_value b =? 0 then (alphabet_at 0 ++ leading_zeros rest)%string
      else ""
  | [] => ""
  end.

(** The loop marked "Convert digits to string", over the digits from the
    last index down to 0. *)
Fixpoint digits_text (reversed : list Z) : string :=
  match reversed with
  | [] => ""
  | d :: rest => (alphabet_at d ++ digits_text rest)%string
  end.

Definition toBase58 (bytes : list byte) : string :=
  let digits := fold_left absorb_byte bytes [0] in
  (leading_zeros bytes ++ digits_text (rev digits))%string.

(** Modelled from the spec: the decoder.  The sources hold the encoder
    only; section 4.1 asks for its reverse, "including the leading-zero
    handling": each zero-digit character at the front stands for one zero
    byte, and the characters after them are the base-58 digits, most
    significant first, of the big-endian integer held by the other bytes. *)
Fixpoint index_in (c : ascii) (alphabet : string) : option Z :=
  match alphabet with
  | EmptyString => None
  | String a rest =>
      if Ascii.eqb c a then Some 0
      else option_map Z.succ (index_in c rest)
  end.

Definition digit_of (c : ascii) : option Z := index_in c ALPHABET.

(** The zero-digit characters at the front, counted, and the text left. *)
Fixpoint split_leader (s : string) : nat * string :=
  match s with
  | String c rest =>
      if Ascii.eqb c "1" then
        let (n, tail) := split_leader rest in (S n, tail)
      else (O, s)
  | EmptyString => (O, s)
  end.

(** The integer written by base-58 digits, most significant first. *)
Fixpoint digits_value (acc : Z) (s : string) : option Z :=
  match s with
  | EmptyString => Some acc
  | String c rest =>
      match digit_of c with
      | Some d => digits_value (acc * 58 + d) rest
      | None => None
      end
  end.

Definition byte_of_value (n : Z) : byte :=
  match Byte.of_N (Z.to_N n) with Some b => b | None => x00 end.

(** The bytes of a non-negative integer, most significant first, in front
    of [acc]; no byte for 0.  [width] bounds the number of bytes: an
    integer below [256 ^ width] is written in full. *)
Fixpoint value_bytes (width : nat) (n : Z) (acc : list byte) : list byte :=
  match width with
  | O => acc
  | S w =>
      if 0 <? n
      then value_bytes w (n / 256) (byte_of_value (n mod 256) :: acc)
      else acc
  end.

(** Modelled from the spec: the decoder itself, from the parts above.  A
    text of [k] base-58 digits writes an integer below [58 ^ k], which
    fits in [k] bytes. *)
Definition fromBase58 (s : string) : option (list byte) :=
  let (zeros, rest) := split_leader s in
  match digits_value 0 rest with
  | Some v =>
      Some (repeat x00 zeros ++ value_bytes (String.length rest) v [])
  | None => None
  end.

End AddressCodec.

(** ** Db: the queries of [worker/src/db.ts]

    The Supabase client answers a query with a pair of [data] and [error];
    the worker throws the error when there is one. *)

Module Db.

Inductive ChangeType : Type := create | update | delete.

(** The numbers that [Number] gives to a bigint: the integers a double
    holds, and the two infinities. *)
Inductive JsNumber : Type :=
| Finite (value : Z)
| PlusInfinity
| MinusInfinity.

Record AccountState : Type := {
  program_id : string;
  pubkey : string;
  created_at : option string;
  slot : JsNumber;
  discriminator : option string;
  change_type : ChangeType;
  data : string;
  data_hash : string
}.

(** A row answered by the stored procedure [get_latest_hashes]. *)
Record HashRow : Type := {
  row_pubkey : string;
  row_data_hash : string
}.

(** The answer of the client to a query. *)
Record Reply (A : Type) : Type := {
  reply_data : option A;
  reply_error : option string
}.
Arguments reply_data {A} r.
Arguments reply_error {A} r.

(** [for (const row of data || []) hashMap.set(row.pubkey, row.data_hash)] *)
Definition hash_map (rows : list HashRow) : JsMap.t string :=
  fold_left (fun m row => JsMap.set (row_pubkey row) (row_data_hash row) m)
            rows JsMap.empty.

(** [getLatestHashes]; [reply] is the answer of the stored procedure to
    the call, which is made only for a non-empty list of pubkeys. *)
Definition getLatestHashes (reply : Reply (list HashRow))
    (programId : string) (pubkeys : list string) : Promise (JsMap.t string) :=
  match pubkeys with
  | [] => Resolved JsMap.empty
  | _ :: _ =>
      match reply_error reply with
      | Some e => Rejected e
      | None =>
          Resolved (hash_map (match reply_data reply with
                              | Some rows => rows
                              | None => []
                              end))
      end
  end.

(** [insertAccountStates]; [error] is the answer of the insert, which is
    made only for a non-empty list of states. *)
Definition insertAccountStates (error : option string)
    (states : list AccountState) : Promise unit :=
  match states with
  | [] => Resolved tt
  | _ :: _ =>
      match error with
      | Some e => Rejected e
      | None => Resolved tt
      end
  end.

End Db.

(** ** Grpc: the [GrpcClient] class of [worker/src/grpc.ts]

    The fields of the class, followed by what the client has done to the
    outside: the requests it wrote to its streams and the timeouts it
    armed.  What the outside decides (whether [client.subscribe()] opens a
    stream, whether a write reports an error) is an argument of the method
    that asks. *)

Module Grpc.

Record AccountUpdate : Type := {
  pubkey : string;
  owner : string;
  lamports : Z;
  slot : Z;
  data : list byte;
  executable : bool;
  rentEpoch : Z
}.

(** One entry of the [accounts] filter of a request. *)
Record AccountsFilter : Type := {
  filter_owner : list string;
  filter_account : list string;
  filter_filters : list string
}.

Inductive CommitmentLevel : Type := PROCESSED | CONFIRMED | FINALIZED.

(** A [SubscribeRequest].  The fields [transactions],
    [transactionsStatus], [blocks], [blocksMeta] and [entry] are the empty
    object and [accountsDataSlice] the empty array in every request the
    client builds; they are left out. *)
Record SubscribeRequest : Type := {
  accounts : list (string * AccountsFilter);
  slots : list (string * bool);
  commitment : option CommitmentLevel;
  ping : option Z
}.

Record GrpcClient : Type := {
  stream : option nat;
  subscriptions : JsMap.t string;
  reconnecting : bool;
  reconnectAttempts : Z;
  pingInterval : bool;
  (* the outside *)
  opened : nat;
  written : list (nat * SubscribeRequest);
  timeouts : list Z;
  fired : nat
}.

Definition maxReconnectAttempts : Z := 20.
Definition baseReconnectDelay : Z := 1000.
Definition maxReconnectDelay : Z := 60000.

Definition not_connected : string := "gRPC stream not connected".

(** The client as the constructor leaves it. *)
Definition new_client : GrpcClient :=
  {| stream := None; subscriptions := JsMap.empty; reconnecting := false;
     reconnectAttempts := 0; pingInterval := false;
     opened := 0; written := []; timeouts := []; fired := 0 |}.

Definition with_stream (s : option nat) (c : GrpcClient) : GrpcClient :=
  {| stream := s; subscriptions := subscriptions c;
     reconnecting := reconnecting c;
     reconnectAttempts := reconnectAttempts c;
     pingInterval := pingInterval c; opened := opened c;
     written := written c; timeouts := timeouts c; fired := fired c |}.

Definition with_subscriptions (m : JsMap.t string) (c : GrpcClient)
  : GrpcClient :=
  {| stream := stream c; subscriptions := m;
     reconnecting := reconnecting c;
     reconnectAttempts := reconnectAttempts c;
     pingInterval := pingInterval c; opened := opened c;
     written := written c; timeouts := timeouts c; fired := fired c |}.

Definition with_reconnecting (b : bool) (c : GrpcClient) : GrpcClient :=
  {| stream := stream c; subscriptions := subscriptions c;
     reconnecting := b;
     reconnectAttempts := reconnectAttempts c;
     pingInterval := pingInterval c; opened := opened c;
     written := written c; timeouts := timeouts c; fired := fired c |}.

Definition with_reconnectAttempts (n : Z) (c : GrpcClient) : GrpcClient :=
  {| stream := stream c; subscriptions := subscriptions c;
     reconnecting := reconnecting c;
     reconnectAttempts := n;
     pingInterval := pingInterval c; opened := opened c;
     written := written c; timeouts := timeouts c; fired := fired c |}.

Definition with_pingInterval (b : bool) (c : GrpcClient) : GrpcClient :=
  {| stream := stream c; subscriptions := subscriptions c;
     reconnecting := reconnecting c;
     reconnectAttempts := reconnectAttempts c;
     pingInterval := b; opened := opened c;
     written := written c; timeouts := timeouts c; fired := fired c |}.

(** [client.subscribe()] has opened one more stream. *)
Definition open_stream (c : GrpcClient) : GrpcClient :=
  {| stream := Some (opened c); subscriptions := subscriptions c;
     reconnecting := reconnecting c;
     reconnectAttempts := reconnectAttempts c;
     pingInterval := pingInterval c; opened := S (opened c);
     written := written c; timeouts := timeouts c; fired := fired c |}.

(** [stream.write(request, callback)] on stream [s]. *)
Definition write (s : nat) (request : SubscribeRequest) (c : GrpcClient)
  : GrpcClient :=
  {| stream := stream c; subscriptions := subscriptions c;
     reconnecting := reconnecting c;
     reconnectAttempts := reconnectAttempts c;
     pingInterval := pingInterval c; opened := opened c;
     written := written c ++ [(s, request)];
     timeouts := timeouts c; fired := fired c |}.

(** [setTimeout(callback, delay)]. *)
Definition setTimeout (delay : Z) (c : GrpcClient) : GrpcClient :=
  {| stream := stream c; subscriptions := subscriptions c;
     reconnecting := reconnecting c;
     reconnectAttempts := reconnectAttempts c;
     pingInterval := pingInterval c; opened := opened c;
     written := written c;
     timeouts := timeouts c ++ [delay]; fired := fired c |}.

(** One armed timeout has run out. *)
Definition timeout_fired (c : GrpcClient) : GrpcClient :=
  {| stream := stream c; subscriptions := subscriptions c;
     reconnecting := reconnecting c;
     reconnectAttempts := reconnectAttempts c;
     pingInterval := pingInterval c; opened := opened c;
     written := written c;
     timeouts := timeouts c; fired := S (fired c) |}.

(** The raw account of a [SubscribeUpdateAccount]. *)
Record AccountInfo : Type := {
  info_pubkey : list byte;
  info_owner : list byte;
  info_lamports : Z;
  info_data : list byte;
  info_executable : bool;
  info_rentEpoch : Z
}.

(** [handleAccountUpdate]: the update handed to the callback, none when
    the message holds no account. *)
Definition handleAccountUpdate (account : option AccountInfo)
    (update_slot : Z) : option AccountUpdate :=
  match account with
  | None => None
  | Some accountInfo =>
      Some {| pubkey := AddressCodec.toBase58 (info_pubkey accountInfo);
              owner := AddressCodec.toBase58 (info_owner accountInfo);
              lamports := info_lamports accountInfo;
              slot := update_slot;
              data := info_data accountInfo;
              executable := info_executable accountInfo;
              rentEpoch := info_rentEpoch accountInfo |}
  end.

Definition stopPingInterval (c : GrpcClient) : GrpcClient :=
  if pingInterval c then with_pingInterval false c else c.

Definition startPingInterval (c : GrpcClient) : GrpcClient :=
  with_pingInterval true (stopPingInterval c).

(** The request the ping timer writes. *)
Definition pingRequest (now : Z) : SubscribeRequest :=
  {| accounts := []; slots := []; commitment := None; ping := Some now |}.

(** A tick of the ping timer, at time [now]. *)
Definition ping_tick (now : Z) (c : GrpcClient) : GrpcClient :=
  if pingInterval c then
    match stream c with
    | Some s => write s (pingRequest now) c
    | None => c
    end
  else c.

Definition subscribeToProgram (programId : string) (c : GrpcClient)
  : Promise unit * GrpcClient :=
  match stream c with
  | None => (Rejected not_connected, c)
  | Some _ =>
      if JsMap.has programId (subscriptions c) then (Resolved tt, c)
      else
        let subscriptionKey := ("program_" ++ programId)%string in
        (Resolved tt,
         with_subscriptions
           (JsMap.set programId subscriptionKey (subscriptions c)) c)
  end.

(** [accountsFilter[subscriptionKey] = ...]: assignment to a property of
    an object; string keys are listed in the order of their creation. *)
Definition set_property {V : Type} (key : string) (v : V)
    (o : list (string * V)) : list (string * V) :=
  JsMap.set key v o.

(** The [accounts] field built by [sendSubscriptions]. *)
Definition accountsFilter (subs : JsMap.t string)
  : list (string * AccountsFilter) :=
  fold_left
    (fun acc entry =>
       let '(programId, subscriptionKey) := entry in
       set_property subscriptionKey
         {| filter_owner := [programId]; filter_account := [];
            filter_filters := [] |} acc)
    (JsMap.entries subs) [].

Definition combinedRequest (subs : JsMap.t string) : SubscribeRequest :=
  {| accounts := accountsFilter subs;
     slots := [("slots", true)];
     commitment := Some CONFIRMED;
     ping := None |}.

(** [sendSubscriptions]; [write_error] is the error the stream hands to
    the callback of the write, if the write is made. *)
Definition sendSubscriptions (write_error : option string) (c : GrpcClient)
  : Promise unit * GrpcClient :=
  match stream c with
  | None => (Rejected not_connected, c)
  | Some s =>
      if (JsMap.size (subscriptions c) =? 0)%nat then (Resolved tt, c)
      else
        let c' := write s (combinedRequest (subscriptions c)) c in
        match write_error with
        | Some e => (Rejected e, c')
        | None => (Resolved tt, c')
        end
  end.

(** The request [unsubscribeFromProgram] writes. *)
Definition emptyRequest : SubscribeRequest :=
  {| accounts := []; slots := []; commitment := None; ping := None |}.

(** A subscription key is falsy when it is the empty string. *)
Definition truthy (s : string) : bool := negb (String.eqb s "").

Definition unsubscribeFromProgram (write_error : option string)
    (programId : string) (c : GrpcClient) : Promise unit * GrpcClient :=
  match stream c with
  | None => (Rejected not_connected, c)
  | Some s =>
      match JsMap.get programId (subscriptions c) with
      | None => (Resolved tt, c)
      | Some subscriptionKey =>
          if truthy subscriptionKey then
            let c' := write s emptyRequest c in
            match write_error with
            | Some e => (Rejected e, c')
            | None =>
                (Resolved tt,
                 with_subscriptions
                   (JsMap.delete programId (subscriptions c')) c')
            end
          else (Resolved tt, c)
      end
  end.

Definition getSubscribedPrograms (c : GrpcClient) : list string :=
  JsMap.keys (subscriptions c).

(** [resubscribeAll]: a failure of [subscribeToProgram] is logged and the
    loop goes on. *)
Definition resubscribeAll (c : GrpcClient) : GrpcClient :=
  let programs := JsMap.keys (subscriptions c) in
  let c0 := with_subscriptions (JsMap.clear (subscriptions c)) c in
  fold_left (fun acc programId => snd (subscribeToProgram programId acc))
            programs c0.

(** [connect]; [subscribe_error] is the error [client.subscribe()]
    throws, none when it opens a stream.  The error is logged and thrown
    again. *)
Definition connect (subscribe_error : option string) (c : GrpcClient)
  : Promise unit * GrpcClient :=
  match subscribe_error with
  | None =>
      let c1 := open_stream c in
      let c2 := startPingInterval c1 in
      (Resolved tt, resubscribeAll c2)
  | Some e => (Rejected e, c)
  end.

(** The delay of the attempt armed when [n] attempts were counted. *)
Definition reconnect_delay (n : Z) : Z :=
  Z.min (baseReconnectDelay * 2 ^ n) maxReconnectDelay.

(** [handleDisconnect], up to the arming of the timeout. *)
Definition handleDisconnect (c : GrpcClient) : GrpcClient :=
  if reconnecting c then c
  else
    let c1 := stopPingInterval (with_reconnecting true c) in
    if reconnectAttempts c1 >=? maxReconnectAttempts then
      with_reconnecting false c1
    else
      let delay := reconnect_delay (reconnectAttempts c1) in
      setTimeout delay
        (with_reconnectAttempts (reconnectAttempts c1 + 1) c1).

(** The callback [handleDisconnect] hands to [setTimeout]. *)
Definition reconnect_callback (subscribe_error : option string)
    (c : GrpcClient) : GrpcClient :=
  match connect subscribe_error c with
  | (Resolved _, c1) =>
      with_reconnecting false (with_reconnectAttempts 0 c1)
  | (Rejected _, c1) =>
      handleDisconnect (with_reconnecting false c1)
  end.

(** The event loop runs the callback of an armed timeout; nothing runs
    when no timeout is armed. *)
Definition timeout_event (subscribe_error : option string)
    (c : GrpcClient) : GrpcClient :=
  if (fired c <? List.length (timeouts c))%nat
  then reconnect_callback subscribe_error (timeout_fired c)
  else c.

(** The stream reports an error or its end: both handlers call
    [handleDisconnect]. *)
Definition stream_event (c : GrpcClient) : GrpcClient := handleDisconnect c.

Definition disconnect (c : GrpcClient) : GrpcClient :=
  let c1 := stopPingInterval c in
  let c2 := match stream c1 with
            | Some _ => with_stream None c1
            | None => c1
            end in
  with_subscriptions (JsMap.clear (subscriptions c2)) c2.

(** What the event loop delivers to the client once it is connected: the
    stream reports an error or its end, or an armed timeout runs out and
    [client.subscribe()] answers as given. *)
Inductive Event : Type :=
| StreamDown
| TimeoutFires (subscribe_error : option string).

Definition handle (c : GrpcClient) (e : Event) : GrpcClient :=
  match e with
  | StreamDown => stream_event c
  | TimeoutFires subscribe_error => timeout_event subscribe_error c
  end.

Definition run (c : GrpcClient) (events : list Event) : GrpcClient :=
  fold_left handle events c.

(** A [SubscribeUpdateAccount] and the fields of a [SubscribeUpdate]
    that [handleUpdate] reads. *)
Record SubscribeUpdateAccount : Type := {
  update_account : option AccountInfo;
  update_slot : Z
}.

Record SubscribeUpdate : Type := {
  pong : bool;
  account : option SubscribeUpdateAccount;
  slot_update : option Z
}.

(** [handleUpdate]: the update handed to the callback, if any;
    [callback_set] tells whether [setAccountUpdateCallback] was called.
    A pong ends the handling; a slot update is only logged. *)
Definition handleUpdate (callback_set : bool) (update : SubscribeUpdate)
  : option AccountUpdate :=
  if pong update then None
  else
    match account update with
    | Some a =>
        match handleAccountUpdate (update_account a) (update_slot a) with
        | Some decoded => if callback_set then Some decoded else None
        | None => None
        end
    | None => None
    end.

(** The uses of a client: the calls of its public methods and what the
    event loop delivers to it. *)
Inductive Call : Type :=
| Connect (subscribe_error : option string)
| SubscribeToProgram (programId : string)
| SendSubscriptions (write_error : option string)
| UnsubscribeFromProgram (write_error : option string) (programId : string)
| Disconnect
| Delivered (e : Event)
| PingTick (now : Z).

Definition call (c : GrpcClient) (x : Call) : GrpcClient :=
  match x with
  | Connect subscribe_error => snd (connect subscribe_error c)
  | SubscribeToProgram programId => snd (subscribeToProgram programId c)
  | SendSubscriptions write_error => snd (sendSubscriptions write_error c)
  | UnsubscribeFromProgram write_error programId =>
      snd (unsubscribeFromProgram write_error programId c)
  | Disconnect => disconnect c
  | Delivered e => handle c e
  | PingTick now => ping_tick now c
  end.

Definition calls (c : GrpcClient) (l : list Call) : GrpcClient :=
  fold_left call l c.

End Grpc.

(** ** Processor: the [ChangeProcessor] class of [worker/src/processor.ts]

    The digest and the base-64 text of a buffer come from the runtime;
    they are parameters of the module's definitions. *)

Module Processor.

Record BufferedUpdate : Type := {
  pubkey : string;
  programId : string;
  slot : Z;
  data : list byte;
  dataHash : string;
  discriminator : option string;
  isDeleted : bool
}.

Record Stats : Type := {
  updatesReceived : Z;
  changesDetected : Z;
  lastProcessedSlot : Z
}.

Record ChangeProcessor : Type := {
  buffer : JsMap.t BufferedUpdate;
  processInterval : bool;
  isProcessing : bool;
  stats : Stats
}.

(** The processor as the constructor leaves it. *)
Definition new_processor : ChangeProcessor :=
  {| buffer := JsMap.empty; processInterval := false; isProcessing := false;
     stats := {| updatesReceived := 0; changesDetected := 0;
                 lastProcessedSlot := 0 |} |}.

Definition with_buffer (b : JsMap.t BufferedUpdate) (p : ChangeProcessor)
  : ChangeProcessor :=
  {| buffer := b; processInterval := processInterval p;
     isProcessing := isProcessing p; stats := stats p |}.

Definition with_isProcessing (b : bool) (p : ChangeProcessor)
  : ChangeProcessor :=
  {| buffer := buffer p; processInterval := processInterval p;
     isProcessing := b; stats := stats p |}.

Definition with_stats (s : Stats) (p : ChangeProcessor) : ChangeProcessor :=
  {| buffer := buffer p; processInterval := processInterval p;
     isProcessing := isProcessing p; stats := s |}.

(** What the store answers to a flush: to the lookup of the latest hashes
    of a program and to the insert of a batch. *)
Record Store : Type := {
  latest_hashes : string -> list string -> Db.Reply (list Db.HashRow);
  insert_error : list Db.AccountState -> option string
}.

(** What a call of [processBuffer] did: its promise, the processor it
    leaves, the states it handed to [insertAccountStates] (none when it
    did not get there) and whether they were stored. *)
Record Flush : Type := {
  outcome : Promise unit;
  after : ChangeProcessor;
  batch : list Db.AccountState;
  stored : bool
}.

(** [buf.toString("hex")] *)
Definition hex_digit (n : N) : ascii :=
  match String.get (N.to_nat n) "0123456789abcdef" with
  | Some c => c
  | None => "0"%char
  end.

Fixpoint hex (bytes : list byte) : string :=
  match bytes with
  | [] => ""
  | b :: rest =>
      String (hex_digit (Byte.to_N b / 16))
        (String (hex_digit (Byte.to_N b mod 16)) (hex rest))
  end.

(** The integer nearest to [n] that has at most 53 significant bits,
    the even one of two that are equally near; [n] is not negative. *)
Definition round_to_double (n : Z) : Z :=
  let bits := Z.log2 n + 1 in
  if bits <=? 53 then n
  else
    let e := bits - 53 in
    let q := n / 2 ^ e in
    let r := n mod 2 ^ e in
    let half := 2 ^ (e - 1) in
    let q' := if (r >? half) || ((r =? half) && Z.odd q) then q + 1
              else q in
    q' * 2 ^ e.

(** [Number(update.slot)] of a bigint: the nearest double, ties to even,
    and an infinity from [2^1024] on. *)
Definition Number (n : Z) : Db.JsNumber :=
  let m := round_to_double (Z.abs n) in
  if m >=? 2 ^ 1024
  then (if n <? 0 then Db.MinusInfinity else Db.PlusInfinity)
  else Db.Finite (Z.sgn n * m).

Section Runtime.

(** [createHash("sha256").update(data).digest("hex")] *)
Variable sha256 : list byte -> string.

(** [data.toString("base64")] *)
Variable base64 : list byte -> string.

Definition buffered (update : Grpc.AccountUpdate) : BufferedUpdate :=
  let dataHash := sha256 (Grpc.data update) in
  let discriminator :=
    if (8 <=? List.length (Grpc.data update))%nat
    then Some (hex (firstn 8 (Grpc.data update)))
    else None in
  let isDeleted :=
    (Grpc.lamports update =? 0)
    || (List.length (Grpc.data update) =? 0)%nat in
  {| pubkey := Grpc.pubkey update;
     programId := Grpc.owner update;
     slot := Grpc.slot update;
     data := Grpc.data update;
     dataHash := dataHash;
     discriminator := discriminator;
     isDeleted := isDeleted |}.

Definition addUpdate (update : Grpc.AccountUpdate) (p : ChangeProcessor)
  : ChangeProcessor :=
  let received := updatesReceived (stats p) + 1 in
  let b := JsMap.set (Grpc.pubkey update) (buffered update) (buffer p) in
  let last :=
    if Grpc.slot update >? lastProcessedSlot (stats p)
    then Grpc.slot update
    else lastProcessedSlot (stats p) in
  {| buffer := b; processInterval := processInterval p;
     isProcessing := isProcessing p;
     stats := {| updatesReceived := received;
                 changesDetected := changesDetected (stats p);
                 lastProcessedSlot := last |} |}.

(** The stream delivers the updates of a list, one after the other. *)
Definition deliver (updates : list Grpc.AccountUpdate) (p : ChangeProcessor)
  : ChangeProcessor :=
  fold_left (fun q update => addUpdate update q) updates p.

(** The loop that fills [updatesByProgram]. *)
Definition group_step (m : JsMap.t (list BufferedUpdate))
    (update : BufferedUpdate) : JsMap.t (list BufferedUpdate) :=
  let existing :=
    match JsMap.get (programId update) m with
    | Some l => l
    | None => []
    end in
  JsMap.set (programId update) (existing ++ [update]) m.

Definition group_by_program (updates : list BufferedUpdate)
  : JsMap.t (list BufferedUpdate) :=
  fold_left group_step updates JsMap.empty.

(** The state pushed for an update whose hash differs from the stored
    one. *)
Definition state_of (update : BufferedUpdate) : Db.AccountState :=
  let changeType := if isDeleted update then Db.delete else Db.update in
  {| Db.program_id := programId update;
     Db.pubkey := pubkey update;
     Db.created_at := None;
     Db.slot := Number (slot update);
     Db.discriminator := discriminator update;
     Db.change_type := changeType;
     Db.data := base64 (data update);
     Db.data_hash := dataHash update |}.

Definition count_change (s : Stats) : Stats :=
  {| updatesReceived := updatesReceived s;
     changesDetected := changesDetected s + 1;
     lastProcessedSlot := lastProcessedSlot s |}.

(** The body of [for (const update of programUpdates)]: [!existingHash]
    holds for a pubkey the lookup did not answer and for an empty hash. *)
Definition detect (existingHashes : JsMap.t string)
    (acc : list Db.AccountState * Stats) (update : BufferedUpdate)
  : list Db.AccountState * Stats :=
  let (states, s) := acc in
  match JsMap.get (pubkey update) existingHashes with
  | None => acc
  | Some existingHash =>
      if negb (Grpc.truthy existingHash) then acc
      else if negb (String.eqb existingHash (dataHash update))
      then (states ++ [state_of update], count_change s)
      else acc
  end.

(** A suspended [processBuffer]: it awaits the hashes of a program, with
    the programs still to do and the states pushed so far, or it awaits
    the insert of its states. *)
Inductive Task : Type :=
| AwaitHashes (program : string) (programUpdates : list BufferedUpdate)
              (todo : list (string * list BufferedUpdate))
              (states : list Db.AccountState)
| AwaitInsert (states : list Db.AccountState).

(** [catch] logs the error, [finally] lowers the flag: the promise of
    [processBuffer] resolves whatever its body did. *)
Definition settle (body : Promise unit) (p : ChangeProcessor)
  : Promise unit * ChangeProcessor :=
  match body with
  | Resolved _ => (Resolved tt, with_isProcessing false p)
  | Rejected _ => (Resolved tt, with_isProcessing false p)
  end.

(** [this.buffer.clear()], the last statement of the [try] block. *)
Definition clear_buffer (p : ChangeProcessor) : ChangeProcessor :=
  with_buffer (JsMap.clear (buffer p)) p.

(** *** [processBuffer], one turn of the event loop at a time *)

(** From the head of the loop over [updatesByProgram] to the next
    [await]: a lookup when a program is left, else the insert when states
    were pushed, else the end of the [try] block. *)
Definition next_await (todo : list (string * list BufferedUpdate))
    (states : list Db.AccountState) (p : ChangeProcessor)
  : ChangeProcessor * option Task :=
  match todo with
  | (program, programUpdates) :: rest =>
      (p, Some (AwaitHashes program programUpdates rest states))
  | [] =>
      if (0 <? List.length states)%nat then (p, Some (AwaitInsert states))
      else (snd (settle (Resolved tt) (clear_buffer p)), None)
  end.

(** The call of [processBuffer], up to its first [await]. *)
Definition processBuffer_call (p : ChangeProcessor)
  : ChangeProcessor * option Task :=
  if isProcessing p || (JsMap.size (buffer p) =? 0)%nat then (p, None)
  else
    let p1 := with_isProcessing true p in
    let updates := JsMap.values (buffer p1) in
    let updatesByProgram := group_by_program updates in
    next_await (JsMap.entries updatesByProgram) [] p1.

(** The awaited promise has settled and [processBuffer] goes on to its
    next [await] or to its end.  [reply] answers the lookup, [error] the
    insert. *)
Definition resume_hashes (reply : Db.Reply (list Db.HashRow))
    (program : string) (programUpdates : list BufferedUpdate)
    (todo : list (string * list BufferedUpdate))
    (states : list Db.AccountState) (p : ChangeProcessor)
  : ChangeProcessor * option Task :=
  let pubkeys := map pubkey programUpdates in
  match Db.getLatestHashes reply program pubkeys with
  | Rejected e => (snd (settle (Rejected e) p), None)
  | Resolved existingHashes =>
      let (states', s') :=
        fold_left (detect existingHashes) programUpdates (states, stats p) in
      next_await todo states' (with_stats s' p)
  end.

Definition resume_insert (error : option string)
    (states : list Db.AccountState) (p : ChangeProcessor)
  : ChangeProcessor * option Task :=
  match Db.insertAccountStates error states with
  | Rejected e => (snd (settle (Rejected e) p), None)
  | Resolved _ => (snd (settle (Resolved tt) (clear_buffer p)), None)
  end.

(** The worker between two turns of the event loop: the processor, the
    suspended flush if there is one, and the batches the store took. *)
Record Worker : Type := {
  processor : ChangeProcessor;
  task : option Task;
  inserted : list (list Db.AccountState)
}.

Definition new_worker : Worker :=
  {| processor := new_processor; task := None; inserted := [] |}.

(** What the event loop delivers: an update of the stream, a tick of the
    flush timer, the answer to the awaited lookup, the answer to the
    awaited insert. *)
Inductive Event : Type :=
| Update (update : Grpc.AccountUpdate)
| Tick
| HashesReply (reply : Db.Reply (list Db.HashRow))
| InsertReply (error : option string).

Definition step (w : Worker) (e : Event) : Worker :=
  match e with
  | Update update =>
      {| processor := addUpdate update (processor w); task := task w;
         inserted := inserted w |}
  | Tick =>
      match processBuffer_call (processor w) with
      | (p, Some t) => {| processor := p; task := Some t;
                          inserted := inserted w |}
      | (p, None) => {| processor := p; task := task w;
                        inserted := inserted w |}
      end
  | HashesReply reply =>
      match task w with
      | Some (AwaitHashes program programUpdates todo states) =>
          let (p, t) :=
            resume_hashes reply program programUpdates todo states
                          (processor w) in
          {| processor := p; task := t; inserted := inserted w |}
      | _ => w
      end
  | InsertReply error =>
      match task w with
      | Some (AwaitInsert states) =>
          let (p, t) := resume_insert error states (processor w) in
          {| processor := p; task := t;
             inserted := match error with
                         | None => inserted w ++ [states]
                         | Some _ => inserted w
                         end |}
      | _ => w
      end
  end.

Definition run (w : Worker) (events : list Event) : Worker :=
  fold_left step events w.

(** *** [processBuffer], run to its end with no update in between *)

(** The loop over [updatesByProgram]: the states pushed, or the error of
    the lookup that failed, and the statistics as counted so far. *)
Fixpoint process_groups (store : Store)
    (todo : list (string * list BufferedUpdate))
    (states : list Db.AccountState) (s : Stats)
  : Promise (list Db.AccountState) * Stats :=
  match todo with
  | [] => (Resolved states, s)
  | (program, programUpdates) :: rest =>
      let pubkeys := map pubkey programUpdates in
      match Db.getLatestHashes (latest_hashes store program pubkeys)
                               program pubkeys with
      | Rejected e => (Rejected e, s)
      | Resolved existingHashes =>
          let (states', s') :=
            fold_left (detect existingHashes) programUpdates (states, s) in
          process_groups store rest states' s'
      end
  end.

Definition processBuffer (store : Store) (p : ChangeProcessor) : Flush :=
  if isProcessing p || (JsMap.size (buffer p) =? 0)%nat
  then {| outcome := Resolved tt; after := p; batch := []; stored := false |}
  else
    let p1 := with_isProcessing true p in
    let updates := JsMap.values (buffer p1) in
    let updatesByProgram := group_by_program updates in
    match process_groups store (JsMap.entries updatesByProgram) []
                         (stats p1) with
    | (Rejected e, s) =>
        let (r, p2) := settle (Rejected e) (with_stats s p1) in
        {| outcome := r; after := p2; batch := []; stored := false |}
    | (Resolved states, s) =>
        let p2 := with_stats s p1 in
        if (0 <? List.length states)%nat then
          match Db.insertAccountStates (insert_error store states) states with
          | Rejected e =>
              let (r, p3) := settle (Rejected e) p2 in
              {| outcome := r; after := p3; batch := states;
                 stored := false |}
          | Resolved _ =>
              let (r, p3) := settle (Resolved tt) (clear_buffer p2) in
              {| outcome := r; after := p3; batch := states;
                 stored := true |}
          end
        else
          let (r, p3) := settle (Resolved tt) (clear_buffer p2) in
          {| outcome := r; after := p3; batch := []; stored := false |}
    end.

(** [flush], the forced call at shutdown. *)
Definition flush (store : Store) (p : ChangeProcessor) : Flush :=
  if (0 <? JsMap.size (buffer p))%nat then processBuffer store p
  else {| outcome := Resolved tt; after := p; batch := []; stored := false |}.

(** The updates of a program in a flush of [p] and what the lookup of the
    flush answers for them. *)
Definition program_updates (p : ChangeProcessor) (program : string)
  : list BufferedUpdate :=
  filter (fun u => String.eqb (programId u) program)
         (JsMap.values (buffer p)).

Definition existing_hashes (store : Store) (p : ChangeProcessor)
    (program : string) : Promise (JsMap.t string) :=
  let pubkeys := map pubkey (program_updates p program) in
  Db.getLatestHashes (latest_hashes store program pubkeys) program pubkeys.

(** The buffer is keyed by the pubkey of its entries. *)
Definition keyed_by_pubkey (p : ChangeProcessor) : Prop :=
  JsMap.wf (buffer p) /\
  forall k u, In (k, u) (buffer p) -> pubkey u = k.

End Runtime.

End Processor.

(** ** Worker: the wiring of [worker/src/index.ts]

    [main] sets the callback of the client to [processor.addUpdate] before
    it connects; the client hands every message of the stream to
    [handleUpdate]. *)

Module Worker.

Section Runtime.

Variable sha256 : list byte -> string.

(** [(update: AccountUpdate) => { processor.addUpdate(update); }] *)
Definition onAccountUpdate (update : Grpc.AccountUpdate)
    (p : Processor.ChangeProcessor) : Processor.ChangeProcessor :=
  Processor.addUpdate sha256 update p.

(** [this.stream.on("data", ...)]: a message of the stream, with the
    callback set. *)
Definition on_data (p : Processor.ChangeProcessor)
    (message : Grpc.SubscribeUpdate) : Processor.ChangeProcessor :=
  match Grpc.handleUpdate true message with
  | Some update => onAccountUpdate update p
  | None => p
  end.

(** The messages of a stream, one after the other. *)
Definition on_stream (messages : list Grpc.SubscribeUpdate)
    (p : Processor.ChangeProcessor) : Processor.ChangeProcessor :=
  fold_left on_data messages p.

End Runtime.

End Worker.

(** ** Cleanup: [pruneAccountChanges] of the per-account cleanup job

    The table [account_state] is a list of rows; its primary key is
    ([program_id], [pubkey], [created_at]).  A timestamp is an integer.
    The database answers a statement on the table, or reports the error
    given as an argument and leaves the table as it is. *)

Module Cleanup.

(** The key columns of a row and the hash of its data. *)
Record Row : Type := {
  program_id : string;
  pubkey : string;
  created_at : Z;
  data_hash : string
}.

Definition Table : Type := list Row.

(** [.eq("program_id", programId).eq("pubkey", pubkey)] *)
Definition of_account (programId pubkey0 : string) (r : Row) : bool :=
  String.eqb (program_id r) programId && String.eqb (pubkey r) pubkey0.

(** [.order("created_at", { ascending: false })] *)
Fixpoint insert_desc (t : Z) (l : list Z) : list Z :=
  match l with
  | [] => [t]
  | x :: rest => if x <=? t then t :: l else x :: insert_desc t rest
  end.

Definition order_desc (l : list Z) : list Z := fold_right insert_desc [] l.

(** The select of [pruneAccountChanges]: the timestamps of the account,
    newest first, at most [limit] of them. *)
Definition select_created_at (select_error : option string) (table : Table)
    (programId pubkey0 : string) (limit : nat) : Db.Reply (list Z) :=
  match select_error with
  | Some e => {| Db.reply_data := None; Db.reply_error := Some e |}
  | None =>
      {| Db.reply_data :=
           Some (firstn limit
                   (order_desc
                      (map created_at
                           (filter (of_account programId pubkey0) table))));
         Db.reply_error := None |}
  end.

(** [.lt("created_at", cutoff)] on the rows of the account. *)
Definition older_than (programId pubkey0 : string) (cutoff : Z) (r : Row)
  : bool :=
  of_account programId pubkey0 r && (created_at r <? cutoff).

(** The answer of the delete: the error and the exact count. *)
Record DeleteReply : Type := {
  delete_error : option string;
  delete_count : option Z
}.

(** The delete of [pruneAccountChanges]: the table left and the answer. *)
Definition delete_older (error : option string) (table : Table)
    (programId pubkey0 : string) (cutoff : Z) : Table * DeleteReply :=
  match error with
  | Some e => (table, {| delete_error := Some e; delete_count := None |})
  | None =>
      (filter (fun r => negb (older_than programId pubkey0 cutoff r)) table,
       {| delete_error := None;
          delete_count :=
            Some (Z.of_nat
                    (List.length
                       (filter (older_than programId pubkey0 cutoff)
                               table))) |})
  end.

(** A bulk delete as issued: the account and the cutoff. *)
Record DeleteStatement : Type := {
  stmt_program_id : string;
  stmt_pubkey : string;
  stmt_cutoff : Z
}.

(** What a call of [pruneAccountChanges] did: its promise, the table it
    leaves and the deletes it issued. *)
Record Pruned : Type := {
  result : Promise Z;
  table_after : Table;
  deletes : list DeleteStatement
}.

Definition type_error : string :=
  "TypeError: Cannot read properties of undefined (reading 'created_at')".

(** [MAX_CHANGES_PER_ACCOUNT] is the argument [max_changes]. *)
Definition pruneAccountChanges (select_error delete_err : option string)
    (max_changes : nat) (table : Table) (programId pubkey0 : string)
  : Pruned :=
  let reply :=
    select_created_at select_error table programId pubkey0 max_changes in
  match Db.reply_error reply with
  | Some _ => {| result := Resolved 0; table_after := table; deletes := [] |}
  | None =>
      match Db.reply_data reply with
      | None =>
          {| result := Resolved 0; table_after := table; deletes := [] |}
      | Some keepStates =>
          if (List.length keepStates <? max_changes)%nat then
            {| result := Resolved 0; table_after := table; deletes := [] |}
          else
            match nth_error keepStates (List.length keepStates - 1) with
            | None =>
                {| result := Rejected type_error; table_after := table;
                   deletes := [] |}
            | Some cutoffTimestamp =>
                let stmt :=
                  {| stmt_program_id := programId; stmt_pubkey := pubkey0;
                     stmt_cutoff := cutoffTimestamp |} in
                let (table', answer) :=
                  delete_older delete_err table programId pubkey0
                               cutoffTimestamp in
                match delete_error answer with
                | Some _ =>
                    {| result := Resolved 0; table_after := table';
                       deletes := [stmt] |}
                | None =>
                    let deleted :=
                      match delete_count answer with
                      | Some n => if n =? 0 then 0 else n
                      | None => 0
                      end in
                    {| result := Resolved deleted; table_after := table';
                       deletes := [stmt] |}
                end
            end
      end
  end.

(** The rows of an account and their timestamps. *)
Definition rows_of (table : Table) (programId pubkey0 : string) : list Row :=
  filter (of_account programId pubkey0) table.

Definition timestamps_of (table : Table) (programId pubkey0 : string)
  : list Z :=
  map created_at (rows_of table programId pubkey0).

(** The primary key: no two rows of the table agree on it. *)
Definition key_of (r : Row) : string * string * Z :=
  (program_id r, pubkey r, created_at r).

Definition primary_key (table : Table) : Prop := NoDup (map key_of table).

(** *** [cleanupProgram]

    The queries of the loop can fail: the select of a page by its
    offset, the select and the delete of [pruneAccountChanges] by the
    pubkey they are made for. *)

Definition BATCH_SIZE : nat := 1000.

Record Faults : Type := {
  fault_query : nat -> option string;
  fault_select : string -> option string;
  fault_delete : string -> option string
}.

(** [.eq("program_id", programId)] *)
Definition of_program (programId : string) (r : Row) : bool :=
  String.eqb (program_id r) programId.

(** [.order("pubkey")], taken as the order of [String.leb]; the order
    decides only which pubkeys share a page. *)
Fixpoint insert_pubkey (k : string) (l : list string) : list string :=
  match l with
  | [] => [k]
  | x :: rest =>
      if String.leb k x then k :: l else x :: insert_pubkey k rest
  end.

Definition order_pubkeys (l : list string) : list string :=
  fold_right insert_pubkey [] l.

(** The select of a page: the pubkeys of the rows of the program, in
    order, from [offset] to [offset + BATCH_SIZE - 1]. *)
Definition select_pubkeys (query_error : option string) (table : Table)
    (programId : string) (offset : nat) : Db.Reply (list string) :=
  match query_error with
  | Some e => {| Db.reply_data := None; Db.reply_error := Some e |}
  | None =>
      {| Db.reply_data :=
           Some (firstn BATCH_SIZE
                   (skipn offset
                      (order_pubkeys
                         (map pubkey
                              (filter (of_program programId) table)))));
         Db.reply_error := None |}
  end.

(** [[...new Set(pubkeys.map((r) => r.pubkey))]]: the first occurrence of
    each pubkey, in order. *)
Fixpoint unique (seen : list string) (l : list string) : list string :=
  match l with
  | [] => []
  | x :: rest =>
      if existsb (String.eqb x) seen then unique seen rest
      else x :: unique (x :: seen) rest
  end.

(** [{ deleted: totalDeleted, accounts: totalAccounts }] *)
Record Totals : Type := {
  deleted : Z;
  accounts : Z
}.

(** [for (const pubkey of uniquePubkeys)]: the promise of the loop and
    the table it leaves. *)
Fixpoint prune_accounts (faults : Faults) (max_changes : nat)
    (programId : string) (uniquePubkeys : list string) (table : Table)
    (totals : Totals) : Promise Totals * Table :=
  match uniquePubkeys with
  | [] => (Resolved totals, table)
  | pubkey0 :: rest =>
      let r := pruneAccountChanges (fault_select faults pubkey0)
                 (fault_delete faults pubkey0) max_changes table
                 programId pubkey0 in
      match result r with
      | Rejected e => (Rejected e, table_after r)
      | Resolved n =>
          let totals' :=
            if n >? 0
            then {| deleted := deleted totals + n;
                    accounts := accounts totals + 1 |}
            else totals in
          prune_accounts faults max_changes programId rest
                         (table_after r) totals'
      end
  end.

(** [while (hasMore)]: [fuel] bounds the number of pages. *)
Fixpoint cleanup_loop (fuel : nat) (faults : Faults) (max_changes : nat)
    (programId : string) (offset : nat) (table : Table) (totals : Totals)
  : option (Promise Totals * Table) :=
  match fuel with
  | O => None
  | S fuel' =>
      let reply :=
        select_pubkeys (fault_query faults offset) table programId offset in
      match Db.reply_error reply with
      | Some e => Some (Rejected e, table)
      | None =>
          match Db.reply_data reply with
          | None => Some (Resolved totals, table)
          | Some [] => Some (Resolved totals, table)
          | Some pubkeys =>
              let uniquePubkeys := unique [] pubkeys in
              match prune_accounts faults max_changes programId
                                   uniquePubkeys table totals with
              | (Rejected e, table') => Some (Rejected e, table')
              | (Resolved totals', table') =>
                  if (BATCH_SIZE <=? List.length pubkeys)%nat
                  then cleanup_loop fuel' faults max_changes programId
                                    (offset + BATCH_SIZE) table' totals'
                  else Some (Resolved totals', table')
              end
          end
      end
  end.

Definition cleanupProgram (fuel : nat) (faults : Faults) (max_changes : nat)
    (table : Table) (programId : string)
  : option (Promise Totals * Table) :=
  cleanup_loop fuel faults max_changes programId 0 table
               {| deleted := 0; accounts := 0 |}.

End Cleanup.

(** ** Validation: [isValidPubkey] of [src/lib/utils/validation.ts]

    The argument is a string by its type, so that the test of [typeof]
    never fails; the empty string is the only falsy string. *)

Module Validation.

Definition BASE58_ALPHABET : string :=
  "123456789ABCDEFGHJKLMNPQRSTUVWXYZabcdefghijkmnopqrstuvwxyz".

(** [BASE58_ALPHABET.includes(char)] for a string of one character. *)
Fixpoint includes (alphabet : string) (char : ascii) : bool :=
  match alphabet with
  | EmptyString => false
  | String a rest => Ascii.eqb a char || includes rest char
  end.

(** The loop [for (const char of value)]: false at the first character
    the alphabet does not hold. *)
Fixpoint all_base58 (value : string) : bool :=
  match value with
  | EmptyString => true
  | String char rest =>
      if negb (includes BASE58_ALPHABET char) then false
      else all_base58 rest
  end.

Definition isValidPubkey (value : string) : bool :=
  if String.eqb value "" then false
  else if (String.length value <? 32)%nat || (44 <? String.length value)%nat
  then false
  else all_base58 value.

End Validation.

(** * Facts about the map *)

Module JsMapFacts.
Import JsMap.

Section Facts.
Context {V : Type}.
Implicit Types (m : t V) (k : string) (v : V).

Lemma get_set_same k v m : get k (set k v m) = Some v.
Proof.
  induction m as [|[k' v'] m IH]; simpl.
  - now rewrite String.eqb_refl.
  - destruct (String.eqb k k') eqn:E; simpl.
    + now rewrite String.eqb_refl.
    + now rewrite E.
Qed.

Lemma get_set_other k k' v m : k <> k' -> get k' (set k v m) = get k' m.
Proof.
  intros Hne. induction m as [|[k0 v0] m IH]; simpl.
  - destruct (String.eqb k' k) eqn:E; [|reflexivity].
    apply String.eqb_eq in E. congruence.
  - destruct (String.eqb k k0) eqn:E; simpl.
    + apply String.eqb_eq in E. subst k0.
      destruct (String.eqb k' k) eqn:E'; [|reflexivity].
      apply String.eqb_eq in E'. congruence.
    + now rewrite IH.
Qed.

Lemma get_In k v m : get k m = Some v -> In (k, v) m.
Proof.
  induction m as [|[k' v'] m IH]; simpl; [discriminate|].
  destruct (String.eqb k k') eqn:E.
  - apply String.eqb_eq in E. intros [= ->]. subst. now left.
  - intros H. right. now apply IH.
Qed.

Lemma get_None_keys k m : get k m = None <-> ~ In k (keys m).
Proof.
  induction m as [|[k' v'] m IH]; simpl.
  - tauto.
  - destruct (String.eqb k k') eqn:E.
    + apply String.eqb_eq in E. subst. split; [discriminate|]. tauto.
    + apply String.eqb_neq in E. rewrite IH. split.
      * intros H [H1|H1]; [congruence|tauto].
      * tauto.
Qed.

Lemma In_get k v m : wf m -> In (k, v) m -> get k m = Some v.
Proof.
  unfold wf. induction m as [|[k' v'] m IH]; simpl; [tauto|].
  intros Hnd [Heq|Hin].
  - injection Heq as -> ->. now rewrite String.eqb_refl.
  - inversion Hnd as [|? ? Hnotin Hnd']; subst.
    destruct (String.eqb k k') eqn:E.
    + apply String.eqb_eq in E. subst k'. exfalso. apply Hnotin.
      change k with (fst (k, v)). now apply in_map.
    + now apply IH.
Qed.

Lemma keys_set k v m :
  keys (set k v m) = if has k m then keys m else keys m ++ [k].
Proof.
  unfold has. induction m as [|[k' v'] m IH]; simpl; [reflexivity|].
  destruct (String.eqb k k') eqn:E; simpl.
  - apply String.eqb_eq in E. now subst.
  - rewrite IH. now destruct (get k m).
Qed.

Lemma wf_empty : wf (@empty V).
Proof. constructor. Qed.

Lemma wf_set k v m : wf m -> wf (set k v m).
Proof.
  unfold wf. intros Hnd. rewrite keys_set. unfold has.
  destruct (get k m) eqn:E; [assumption|].
  apply get_None_keys in E.
  apply NoDup_rev in Hnd. rewrite <- (rev_involutive (keys m ++ [k])).
  apply NoDup_rev. rewrite rev_app_distr. simpl. constructor; [|assumption].
  now rewrite <- in_rev.
Qed.

Lemma get_delete_same k m : wf m -> get k (delete k m) = None.
Proof.
  unfold wf. induction m as [|[k' v'] m IH]; simpl; [reflexivity|].
  intros Hnd. inversion Hnd as [|? ? Hnotin Hnd']; subst.
  destruct (String.eqb k k') eqn:E; simpl.
  - apply String.eqb_eq in E. subst. now apply get_None_keys.
  - rewrite E. now apply IH.
Qed.

Lemma get_delete_other k k' m : k <> k' -> get k' (delete k m) = get k' m.
Proof.
  intros Hne. induction m as [|[k0 v0] m IH]; simpl; [reflexivity|].
  destruct (String.eqb k k0) eqn:E; simpl.
  - apply String.eqb_eq in E. subst k0.
    destruct (String.eqb k' k) eqn:E'; [|reflexivity].
    apply String.eqb_eq in E'. congruence.
  - now rewrite IH.
Qed.

Lemma keys_delete_incl k m : incl (keys (delete k m)) (keys m).
Proof.
  induction m as [|[k' v'] m IH]; simpl; [apply incl_refl|].
  destruct (String.eqb k k'); simpl.
  - apply incl_tl, incl_refl.
  - apply incl_cons; [now left|]. now apply incl_tl.
Qed.

Lemma wf_delete k m : wf m -> wf (delete k m).
Proof.
  unfold wf. induction m as [|[k' v'] m IH]; simpl; [trivial|].
  intros Hnd. inversion Hnd as [|? ? Hnotin Hnd']; subst.
  destruct (String.eqb k k'); simpl; [assumption|].
  constructor; [|now apply IH].
  intros Hin. apply Hnotin. now apply (keys_delete_incl k m).
Qed.

End Facts.

End JsMapFacts.

(** * Facts about the address codec *)

Module AddressCodecFacts.
Import AddressCodec.

(** The integer held by digits, least significant first, and by bytes,
    most significant first from an integer already read. *)
Definition digits_number (digits : list Z) : Z :=
  fold_right (fun d acc => acc * 58 + d) 0 digits.

Definition bytes_number (acc : Z) (bytes : list byte) : Z :=
  fold_left (fun a b => a * 256 + byte_value b) bytes acc.

Definition base58_digits (digits : list Z) : Prop :=
  Forall (fun d => 0 <= d < 58) digits.

Lemma byte_value_range b : 0 <= byte_value b < 256.
Proof.
  unfold byte_value. pose proof (Byte.to_N_bounded b). lia.
Qed.

Lemma byte_value_zero b : byte_value b = 0 -> b = x00.
Proof.
  unfold byte_value. intros H.
  assert (Hn : Byte.to_N b = 0%N) by lia.
  pose proof (Byte.of_to_N b) as Ho. rewrite Hn in Ho.
  cbn in Ho. now injection Ho.
Qed.

Lemma byte_of_value_byte b : byte_of_value (byte_value b) = b.
Proof.
  unfold byte_of_value, byte_value. rewrite N2Z.id.
  now rewrite Byte.of_to_N.
Qed.

(** *** The encoder *)

Lemma carry_pass_spec digits carry :
  base58_digits digits -> 0 <= carry ->
  let r := carry_pass digits carry in
  base58_digits (fst r) /\
  List.length (fst r) = List.length digits /\
  0 <= snd r /\
  digits_number (fst r) + 58 ^ Z.of_nat (List.length digits) * snd r
  = 256 * digits_number digits + carry.
Proof.
  intros Hd. revert carry. induction Hd as [|d rest Hd0 Hrest IH];
    intros carry Hc; cbn [carry_pass].
  - cbn [fst snd List.length digits_number fold_right].
    split; [constructor|]. split; [reflexivity|]. split; [assumption|].
    change (Z.of_nat 0) with 0. rewrite Z.pow_0_r. lia.
  - rewrite Z.shiftl_mul_pow2 by lia. change (2 ^ 8) with 256.
    set (carry' := carry + d * 256).
    assert (Hc' : 0 <= carry') by (unfold carry'; lia).
    assert (Hq : 0 <= carry' / 58) by (apply Z.div_pos; lia).
    specialize (IH (carry' / 58) Hq).
    destruct (carry_pass rest (carry' / 58)) as [rest' out].
    cbn [fst snd] in *. destruct IH as (Hok & Hlen & Hout & Hval).
    split; [constructor; [apply Z.mod_pos_bound; lia | assumption]|].
    split; [cbn [List.length]; now rewrite Hlen|].
    split; [assumption|].
    cbn [digits_number fold_right List.length].
    fold (digits_number rest'). fold (digits_number rest).
    rewrite Nat2Z.inj_succ, Z.pow_succ_r by lia.
    assert (Hdm : carry' = 58 * (carry' / 58) + carry' mod 58)
      by (apply Z.div_mod; lia).
    nia.
Qed.

Lemma push_carry_spec carry :
  0 <= carry ->
  base58_digits (push_carry carry) /\
  digits_number (push_carry carry) = carry /\
  (0 < carry -> last (push_carry carry) 0 <> 0) /\
  (carry = 0 -> push_carry carry = []).
Proof.
  funelim (push_carry carry); intros Hc.
  - assert (Hq : 0 <= carry / 58) by (apply Z.div_pos; lia).
    destruct (H Hq) as (Hok & Hval & Hlast & Hzero).
    split; [constructor; [apply Z.mod_pos_bound; lia | assumption]|].
    split.
    { cbn [digits_number fold_right]. fold (digits_number (push_carry (carry / 58))).
      rewrite Hval.
      assert (Hdm : carry = 58 * (carry / 58) + carry mod 58)
        by (apply Z.div_mod; lia).
      lia. }
    split; [|lia].
    intros _. destruct (Z.eq_dec (carry / 58) 0) as [E|E].
    + rewrite (Hzero E). cbn [last].
      assert (Hdm : carry = 58 * (carry / 58) + carry mod 58)
        by (apply Z.div_mod; lia).
      lia.
    + assert (Hpos : 0 < carry / 58) by lia. specialize (Hlast Hpos).
      destruct (push_carry (carry / 58)) as [|x xs] eqn:Ep;
        [now destruct Hlast|].
      exact Hlast.
  - split; [constructor|]. split; [cbn; lia|]. split; [lia | reflexivity].
Qed.

Lemma digits_number_app ds1 ds2 :
  digits_number (ds1 ++ ds2)
  = digits_number ds1 + 58 ^ Z.of_nat (List.length ds1) * digits_number ds2.
Proof.
  unfold digits_number. induction ds1 as [|d ds1 IH].
  - cbn [app List.length fold_right].
    change (Z.of_nat 0) with 0. rewrite Z.pow_0_r. lia.
  - cbn [app List.length fold_right].
    rewrite IH, Nat2Z.inj_succ, Z.pow_succ_r by lia. lia.
Qed.

Lemma digits_number_bound ds :
  base58_digits ds -> 0 <= digits_number ds < 58 ^ Z.of_nat (List.length ds).
Proof.
  induction 1 as [|d ds Hd _ IH].
  - cbn. lia.
  - cbn [List.length digits_number fold_right]. fold (digits_number ds).
    rewrite Nat2Z.inj_succ, Z.pow_succ_r by lia. lia.
Qed.

Lemma digits_number_top ds :
  base58_digits ds -> ds <> [] -> last ds 0 <> 0 ->
  58 ^ (Z.of_nat (List.length ds) - 1) <= digits_number ds.
Proof.
  induction 1 as [|d ds Hd Hds IH]; intros Hne Hlast; [now destruct Hne|].
  cbn [List.length digits_number fold_right]. fold (digits_number ds).
  rewrite Nat2Z.inj_succ.
  replace (Z.succ (Z.of_nat (List.length ds)) - 1)
    with (Z.of_nat (List.length ds)) by lia.
  destruct ds as [|d' ds'].
  - cbn in *. lia.
  - assert (Hl : last (d :: d' :: ds') 0 = last (d' :: ds') 0) by reflexivity.
    rewrite Hl in Hlast. specialize (IH ltac:(discriminate) Hlast).
    set (n := Z.of_nat (List.length (d' :: ds'))) in *.
    assert (Hn : 1 <= n) by (unfold n; cbn [List.length]; lia).
    replace n with (Z.succ (n - 1)) by lia.
    rewrite Z.pow_succ_r by lia. lia.
Qed.

Lemma last_app_right {A} (l1 l2 : list A) d :
  l2 <> [] -> last (l1 ++ l2) d = last l2 d.
Proof.
  intros Hne. induction l1 as [|x l1 IH]; [reflexivity|].
  cbn [app]. destruct (l1 ++ l2) eqn:E.
  - apply app_eq_nil in E. now destruct Hne.
  - rewrite <- IH. reflexivity.
Qed.

(** The digits of the encoder hold the integer read so far; they are
    [[0]] while it is zero, and their last digit is not zero afterwards. *)
Definition holds (digits : list Z) (v : Z) : Prop :=
  base58_digits digits /\ digits_number digits = v /\
  (v = 0 -> digits = [0]) /\ (0 < v -> last digits 0 <> 0).

Lemma holds_start : holds [0] 0.
Proof.
  split; [repeat constructor; lia|]. split; [reflexivity|].
  split; [reflexivity | lia].
Qed.

Lemma absorb_byte_holds digits v b :
  holds digits v -> 0 <= v ->
  holds (absorb_byte digits b) (v * 256 + byte_value b).
Proof.
  intros (Hok & Hval & Hzero & Htop) Hv.
  pose proof (byte_value_range b) as Hb.
  unfold absorb_byte.
  pose proof (carry_pass_spec digits (byte_value b) Hok (proj1 Hb)) as Hp.
  destruct (carry_pass digits (byte_value b)) as [digits' out] eqn:Ep.
  cbn [fst snd] in Hp. destruct Hp as (Hok' & Hlen & Hout & Hsum).
  destruct (push_carry_spec out Hout) as (Hpok & Hpval & Hplast & Hpzero).
  assert (Hnum : digits_number (digits' ++ push_carry out)
                 = v * 256 + byte_value b)
    by (rewrite digits_number_app, Hpval, Hlen; lia).
  split; [now apply Forall_app|]. split; [exact Hnum|]. split.
  - intros Hz. assert (v = 0) by lia. assert (byte_value b = 0) by lia.
    rewrite (Hzero H) in Ep. rewrite H0 in Ep. cbn in Ep.
    injection Ep as <- <-. reflexivity.
  - intros Hpos. destruct (Z.eq_dec out 0) as [E|E].
    + rewrite (Hpzero E), app_nil_r. rewrite E in Hsum.
      destruct (Z.eq_dec v 0) as [Ev|Ev].
      * rewrite (Hzero Ev) in Ep. cbn [carry_pass] in Ep.
        rewrite Z.shiftl_0_l, Z.add_0_r in Ep.
        injection Ep as <- Eout. cbn [last].
        assert (Hdm : byte_value b
                      = 58 * (byte_value b / 58) + byte_value b mod 58)
          by (apply Z.div_mod; lia).
        lia.
      * exfalso. assert (Hvpos : 0 < v) by lia.
        assert (Hne : digits <> [])
          by (intros ->; cbn in Hval; lia).
        pose proof (digits_number_top digits Hok Hne (Htop Hvpos)) as Hlow.
        pose proof (digits_number_bound digits' Hok') as Hhigh.
        rewrite Hlen in Hhigh.
        set (n := Z.of_nat (List.length digits)) in *.
        assert (Hn : 1 <= n)
          by (unfold n; destruct digits; [now destruct Hne | cbn [List.length]; lia]).
        assert (Hpow : 58 ^ n = 58 * 58 ^ (n - 1)).
        { replace n with (Z.succ (n - 1)) at 1 by lia.
          rewrite Z.pow_succ_r by lia. reflexivity. }
        assert (0 < 58 ^ (n - 1)) by (apply Z.pow_pos_nonneg; lia).
        nia.
    + assert (Hopos : 0 < out) by lia. specialize (Hplast Hopos).
      rewrite last_app_right; [exact Hplast|].
      intros Hnil. rewrite Hnil in Hplast. now destruct Hplast.
Qed.

Lemma bytes_number_nonneg v bytes : 0 <= v -> 0 <= bytes_number v bytes.
Proof.
  revert v. induction bytes as [|b bytes IH]; intros v Hv; [exact Hv|].
  cbn [bytes_number fold_left]. apply IH.
  pose proof (byte_value_range b). lia.
Qed.

Lemma encoder_holds bytes digits v :
  holds digits v -> 0 <= v ->
  holds (fold_left absorb_byte bytes digits) (bytes_number v bytes).
Proof.
  revert digits v. induction bytes as [|b bytes IH]; intros digits v Hh Hv;
    [exact Hh|].
  cbn [fold_left bytes_number]. apply IH.
  - now apply absorb_byte_holds.
  - pose proof (byte_value_range b). lia.
Qed.

(** *** The alphabet *)

Definition alphabet_check (d : Z) : bool :=
  match String.get (Z.to_nat d) ALPHABET with
  | Some c =>
      match digit_of c with
      | Some d' => (d' =? d) && Bool.eqb (Ascii.eqb c "1") (d =? 0)
      | None => false
      end
  | None => false
  end.

Lemma alphabet_checked :
  forallb alphabet_check (map Z.of_nat (seq 0 58)) = true.
Proof. vm_compute. reflexivity. Qed.

Lemma alphabet_digit d :
  0 <= d < 58 ->
  exists c,
    alphabet_at d = String c EmptyString /\ digit_of c = Some d /\
    Ascii.eqb c "1" = (d =? 0).
Proof.
  intros Hd.
  assert (Hin : In d (map Z.of_nat (seq 0 58))).
  { apply in_map_iff. exists (Z.to_nat d). split; [lia|].
    apply in_seq. lia. }
  pose proof (proj1 (forallb_forall _ _) alphabet_checked d Hin) as Hc.
  unfold alphabet_check in Hc. unfold alphabet_at.
  assert (E : (d <? 0) = false) by (apply Z.ltb_ge; lia). rewrite E.
  destruct (String.get (Z.to_nat d) ALPHABET) as [c|]; [|discriminate].
  destruct (digit_of c) as [d'|] eqn:Ed; [|discriminate].
  apply andb_true_iff in Hc. destruct Hc as [H1 H2].
  apply Z.eqb_eq in H1. apply Bool.eqb_prop in H2. subst d'.
  exists c. split; [reflexivity|]. split; assumption.
Qed.

(** *** The decoder *)

Fixpoint ones (n : nat) : string :=
  match n with
  | O => EmptyString
  | S k => String "1" (ones k)
  end.

Lemma digits_text_length r :
  base58_digits r -> String.length (digits_text r) = List.length r.
Proof.
  induction 1 as [|d r Hd _ IH]; [reflexivity|].
  cbn [digits_text List.length].
  destruct (alphabet_digit d Hd) as (c & -> & _).
  cbn [String.append String.length]. now rewrite IH.
Qed.

Lemma digits_value_text r acc :
  base58_digits r ->
  digits_value acc (digits_text r)
  = Some (fold_left (fun a d => a * 58 + d) r acc).
Proof.
  intros Hr. revert acc. induction Hr as [|d r Hd _ IH]; intros acc;
    [reflexivity|].
  cbn [digits_text fold_left].
  destruct (alphabet_digit d Hd) as (c & -> & Hc & _).
  cbn [String.append digits_value]. rewrite Hc. apply IH.
Qed.

Lemma digits_number_rev ds :
  fold_left (fun a d => a * 58 + d) (rev ds) 0 = digits_number ds.
Proof.
  unfold digits_number. rewrite <- fold_left_rev_right, rev_involutive.
  reflexivity.
Qed.

Lemma split_leader_ones n t :
  split_leader (ones n ++ t)%string
  = (n + fst (split_leader t), snd (split_leader t))%nat.
Proof.
  induction n as [|n IH]; cbn [ones String.append].
  - now destruct (split_leader t).
  - cbn [split_leader]. rewrite Ascii.eqb_refl, IH. reflexivity.
Qed.

(** The text of digits whose first is not zero has no leader. *)
Lemma split_leader_text r :
  base58_digits r -> hd 1 r <> 0 ->
  split_leader (digits_text r) = (O, digits_text r).
Proof.
  intros Hr Hhd. destruct Hr as [|d r Hd Hr]; [reflexivity|].
  cbn [hd] in Hhd. cbn [digits_text].
  destruct (alphabet_digit d Hd) as (c & -> & _ & Hc).
  cbn [String.append split_leader]. rewrite Hc.
  assert (E : (d =? 0) = false) by now apply Z.eqb_neq.
  now rewrite E.
Qed.

Lemma value_bytes_zero w acc : value_bytes w 0 acc = acc.
Proof. now destruct w. Qed.

Definition no_leading_zero (bytes : list byte) : Prop :=
  match bytes with
  | [] => True
  | b :: _ => byte_value b <> 0
  end.

Lemma bytes_number_snoc v bytes b :
  bytes_number v (bytes ++ [b]) = bytes_number v bytes * 256 + byte_value b.
Proof. unfold bytes_number. now rewrite fold_left_app. Qed.

Lemma bytes_number_lower v bytes :
  0 <= v -> v * 256 ^ Z.of_nat (List.length bytes) <= bytes_number v bytes.
Proof.
  revert v. induction bytes as [|b bytes IH]; intros v Hv.
  - cbn. lia.
  - cbn [bytes_number fold_left List.length].
    pose proof (byte_value_range b) as Hb.
    specialize (IH (v * 256 + byte_value b) ltac:(lia)).
    fold (bytes_number (v * 256 + byte_value b) bytes).
    rewrite Nat2Z.inj_succ, Z.pow_succ_r by lia.
    assert (0 < 256 ^ Z.of_nat (List.length bytes))
      by (apply Z.pow_pos_nonneg; lia).
    nia.
Qed.

Lemma bytes_number_positive bytes :
  bytes <> [] -> no_leading_zero bytes -> 0 < bytes_number 0 bytes.
Proof.
  destruct bytes as [|b bytes]; intros Hne Hz; [now destruct Hne|].
  cbn [no_leading_zero] in Hz. cbn [bytes_number fold_left].
  pose proof (byte_value_range b) as Hb.
  pose proof (bytes_number_lower (0 * 256 + byte_value b) bytes ltac:(lia)).
  fold (bytes_number (0 * 256 + byte_value b) bytes).
  assert (0 < 256 ^ Z.of_nat (List.length bytes))
    by (apply Z.pow_pos_nonneg; lia).
  nia.
Qed.

Lemma no_leading_zero_init bytes b :
  no_leading_zero (bytes ++ [b]) -> no_leading_zero bytes.
Proof. destruct bytes as [|b0 bytes]; intros H; [exact I | exact H]. Qed.

(** Bytes with no zero in front are the bytes of their integer. *)
Lemma value_bytes_number bytes :
  no_leading_zero bytes ->
  forall w acc,
    (List.length bytes <= w)%nat ->
    value_bytes w (bytes_number 0 bytes) acc = bytes ++ acc.
Proof.
  induction bytes as [|b bytes IH] using rev_ind; intros Hz w acc Hw.
  - apply value_bytes_zero.
  - rewrite length_app in Hw. cbn [List.length] in Hw.
    destruct w as [|w]; [lia|].
    assert (Hpos : 0 < bytes_number 0 (bytes ++ [b])).
    { apply bytes_number_positive; [|assumption].
      intros E. now apply app_eq_nil in E. }
    cbn [value_bytes]. apply Z.ltb_lt in Hpos. rewrite Hpos.
    rewrite bytes_number_snoc.
    pose proof (byte_value_range b) as Hb.
    set (n := bytes_number 0 bytes).
    assert (Hdiv : (n * 256 + byte_value b) / 256 = n)
      by (symmetry; apply (Z.div_unique _ 256 n (byte_value b)); lia).
    assert (Hmod : (n * 256 + byte_value b) mod 256 = byte_value b)
      by (symmetry; apply (Z.mod_unique _ 256 n (byte_value b)); lia).
    rewrite Hdiv, Hmod. subst n.
    rewrite byte_of_value_byte, IH;
      [now rewrite <- app_assoc | now apply (no_leading_zero_init bytes b) | lia].
Qed.

(** *** The zero bytes in front *)

Fixpoint count_zeros (bytes : list byte) : nat :=
  match bytes with
  | b :: rest => if byte_value b =? 0 then S (count_zeros rest) else O
  | [] => O
  end.

Fixpoint strip_zeros (bytes : list byte) : list byte :=
  match bytes with
  | b :: rest => if byte_value b =? 0 then strip_zeros rest else bytes
  | [] => []
  end.

Lemma leading_zeros_ones bytes :
  leading_zeros bytes = ones (count_zeros bytes).
Proof.
  induction bytes as [|b bytes IH]; [reflexivity|].
  cbn [leading_zeros count_zeros].
  destruct (byte_value b =? 0); [|reflexivity].
  cbn [ones]. now rewrite IH.
Qed.

Lemma zeros_and_rest bytes :
  bytes = repeat x00 (count_zeros bytes) ++ strip_zeros bytes.
Proof.
  induction bytes as [|b bytes IH]; [reflexivity|].
  cbn [count_zeros strip_zeros].
  destruct (byte_value b =? 0) eqn:E; [|reflexivity].
  apply Z.eqb_eq, byte_value_zero in E. subst b.
  cbn [repeat app]. now rewrite <- IH.
Qed.

Lemma strip_zeros_number bytes :
  bytes_number 0 (strip_zeros bytes) = bytes_number 0 bytes.
Proof.
  induction bytes as [|b bytes IH]; [reflexivity|].
  cbn [strip_zeros]. destruct (byte_value b =? 0) eqn:E; [|reflexivity].
  apply Z.eqb_eq in E. cbn [bytes_number fold_left]. rewrite E.
  exact IH.
Qed.

Lemma strip_zeros_no_leading_zero bytes :
  no_leading_zero (strip_zeros bytes).
Proof.
  induction bytes as [|b bytes IH]; [exact I|].
  cbn [strip_zeros]. destruct (byte_value b =? 0) eqn:E; [exact IH|].
  now apply Z.eqb_neq in E.
Qed.

Lemma hd_rev_last {A} (l : list A) d1 d2 :
  l <> [] -> hd d1 (rev l) = last l d2.
Proof.
  intros Hne. destruct (exists_last Hne) as (init & x & ->).
  rewrite rev_app_distr, last_last. reflexivity.
Qed.

Lemma split_leader_all_ones n : split_leader (ones n) = (n, EmptyString).
Proof.
  induction n as [|n IH]; [reflexivity|].
  cbn [ones split_leader]. now rewrite Ascii.eqb_refl, IH.
Qed.

Lemma ones_snoc n : (ones n ++ "1")%string = ones (S n).
Proof.
  induction n as [|n IH]; [reflexivity|].
  cbn [ones String.append] in *. now rewrite IH.
Qed.

(** The text of a non-zero integer is long enough for its bytes. *)
Lemma enough_width bytes digits :
  bytes <> [] -> no_leading_zero bytes -> base58_digits digits ->
  digits_number digits = bytes_number 0 bytes ->
  (List.length bytes <= List.length digits)%nat.
Proof.
  intros Hne Hz Hok Hnum. destruct bytes as [|b bytes]; [now destruct Hne|].
  cbn [no_leading_zero] in Hz. pose proof (byte_value_range b) as Hb.
  pose proof (bytes_number_lower (0 * 256 + byte_value b) bytes ltac:(lia))
    as Hlow.
  pose proof (digits_number_bound digits Hok) as Hhigh.
  cbn [bytes_number fold_left] in Hnum.
  fold (bytes_number (0 * 256 + byte_value b) bytes) in Hnum.
  rewrite Hnum in Hhigh. cbn [List.length].
  destruct (Nat.le_gt_cases (S (List.length bytes)) (List.length digits))
    as [Hle|Hgt]; [exact Hle|exfalso].
  set (m := Z.of_nat (List.length bytes)) in *.
  set (n := Z.of_nat (List.length digits)) in *.
  assert (Hnm : 0 <= n <= m) by (unfold n, m; lia).
  assert (H1 : 58 ^ n <= 256 ^ n) by (apply Z.pow_le_mono_l; lia).
  assert (H2 : 256 ^ n <= 256 ^ m) by (apply Z.pow_le_mono_r; lia).
  assert (H3 : 0 < 256 ^ m) by (apply Z.pow_pos_nonneg; lia).
  nia.
Qed.

(** The encoder is inverted by the decoder on every input that has a
    byte other than zero. *)
Lemma base58_roundtrip_nonzero bytes :
  strip_zeros bytes <> [] -> fromBase58 (toBase58 bytes) = Some bytes.
Proof.
  intros Hne.
  set (digits := fold_left absorb_byte bytes [0]).
  destruct (encoder_holds bytes [0] 0 holds_start (Z.le_refl 0))
    as (Hok & Hnum & _ & Htop). fold digits in Hok, Hnum, Htop.
  fold (bytes_number 0 bytes) in Hnum.
  assert (Hpos : 0 < bytes_number 0 bytes).
  { rewrite <- strip_zeros_number.
    apply bytes_number_positive;
      [assumption | apply strip_zeros_no_leading_zero]. }
  assert (Hdne : digits <> [])
    by (intros E; rewrite E in Hnum; cbn in Hnum; lia).
  assert (Hrev : base58_digits (rev digits)) by now apply Forall_rev.
  unfold fromBase58, toBase58. fold digits.
  rewrite leading_zeros_ones, split_leader_ones.
  rewrite split_leader_text;
    [| assumption | rewrite (hd_rev_last digits 1 0 Hdne); now apply Htop].
  cbn [fst snd]. rewrite digits_value_text by assumption.
  rewrite digits_number_rev, Hnum, digits_text_length by assumption.
  rewrite length_rev, <- strip_zeros_number.
  rewrite value_bytes_number.
  - rewrite Nat.add_0_r, app_nil_r. now rewrite <- zeros_and_rest.
  - apply strip_zeros_no_leading_zero.
  - apply enough_width; try assumption.
    + apply strip_zeros_no_leading_zero.
    + now rewrite strip_zeros_number.
Qed.

Lemma strip_zeros_repeat n : strip_zeros (repeat x00 n) = [].
Proof. induction n as [|n IH]; [reflexivity | exact IH]. Qed.

Lemma count_zeros_repeat n : count_zeros (repeat x00 n) = n.
Proof. induction n as [|n IH]; [reflexivity | cbn; now rewrite IH]. Qed.

(** The text the encoder gives to [n] zero bytes. *)
Lemma toBase58_zeros n : toBase58 (repeat x00 n) = ones (S n).
Proof.
  unfold toBase58.
  destruct (encoder_holds (repeat x00 n) [0] 0 holds_start (Z.le_refl 0))
    as (_ & _ & Hzero & _).
  fold (bytes_number 0 (repeat x00 n)) in Hzero.
  rewrite <- strip_zeros_number, strip_zeros_repeat in Hzero.
  rewrite (Hzero eq_refl), leading_zeros_ones, count_zeros_repeat.
  apply ones_snoc.
Qed.

(** C1, as the code has it.  The encoder starts from the digit list
    [[0]] and writes that digit after the leading zeros when every byte
    is zero: [n] zero bytes are encoded as [n + 1] characters '1', which
    decode to [n + 1] zero bytes.  The 32 zero bytes do not come back,
    while the 32 bytes 0xFF do. *)
Theorem all_zero_address_gains_a_byte :
  (forall n,
      toBase58 (repeat x00 n) = ones (S n) /\
      fromBase58 (toBase58 (repeat x00 n)) = Some (repeat x00 (S n))) /\
  String.length (toBase58 (repeat x00 32)) = 33%nat /\
  fromBase58 (toBase58 (repeat x00 32)) <> Some (repeat x00 32) /\
  fromBase58 (toBase58 (repeat xff 32)) = Some (repeat xff 32).
Proof.
  assert (H : forall n,
             toBase58 (repeat x00 n) = ones (S n) /\
             fromBase58 (toBase58 (repeat x00 n)) = Some (repeat x00 (S n))).
  { intros n. split; [apply toBase58_zeros|].
    rewrite toBase58_zeros. unfold fromBase58.
    rewrite split_leader_all_ones. cbn [digits_value String.length
      value_bytes]. now rewrite app_nil_r. }
  split; [exact H|]. split; [now vm_compute|]. split.
  - rewrite (proj2 (H 32%nat)). intros E.
    apply (f_equal (option_map (@List.length byte))) in E.
    vm_compute in E. discriminate E.
  - now vm_compute.
Qed.

End AddressCodecFacts.

(** * Facts about the gRPC client *)

Module GrpcFacts.
Import Grpc.

(** The fields [handleDisconnect] and the timeout callback work on. *)
Record Backoff : Type := {
  b_reconnecting : bool;
  b_attempts : Z;
  b_timeouts : list Z;
  b_fired : nat;
  b_opened : nat
}.

Definition backoff_of (c : GrpcClient) : Backoff :=
  {| b_reconnecting := reconnecting c; b_attempts := reconnectAttempts c;
     b_timeouts := timeouts c; b_fired := fired c; b_opened := opened c |}.

Ltac fields :=
  cbn [stream subscriptions reconnecting reconnectAttempts pingInterval
       opened written timeouts fired
       with_stream with_subscriptions with_reconnecting
       with_reconnectAttempts with_pingInterval open_stream write
       setTimeout timeout_fired
       b_reconnecting b_attempts b_timeouts b_fired b_opened backoff_of].

Lemma backoff_stopPingInterval c :
  backoff_of (stopPingInterval c) = backoff_of c.
Proof. unfold stopPingInterval. now destruct (pingInterval c). Qed.

Lemma handleDisconnect_arms c :
  reconnecting c = false ->
  reconnectAttempts c < maxReconnectAttempts ->
  backoff_of (handleDisconnect c) =
  {| b_reconnecting := true; b_attempts := reconnectAttempts c + 1;
     b_timeouts := timeouts c ++ [reconnect_delay (reconnectAttempts c)];
     b_fired := fired c; b_opened := opened c |}.
Proof.
  intros Hr Hlt. unfold handleDisconnect, stopPingInterval. rewrite Hr.
  assert (E : (reconnectAttempts c >=? maxReconnectAttempts) = false)
    by (rewrite Z.geb_leb; apply Z.leb_gt; lia).
  fields. destruct (pingInterval c); fields; rewrite E; reflexivity.
Qed.

Lemma handleDisconnect_gives_up c :
  reconnecting c = false ->
  maxReconnectAttempts <= reconnectAttempts c ->
  backoff_of (handleDisconnect c) = backoff_of c.
Proof.
  intros Hr Hge. unfold handleDisconnect, stopPingInterval. rewrite Hr.
  assert (E : (reconnectAttempts c >=? maxReconnectAttempts) = true)
    by (rewrite Z.geb_leb; apply Z.leb_le; lia).
  fields. destruct (pingInterval c); fields; rewrite E; unfold backoff_of; fields; now rewrite Hr.
Qed.

Lemma handleDisconnect_busy c :
  reconnecting c = true -> handleDisconnect c = c.
Proof. intros Hr. unfold handleDisconnect. now rewrite Hr. Qed.

Lemma backoff_fields c b :
  backoff_of c = b ->
  reconnecting c = b_reconnecting b /\ reconnectAttempts c = b_attempts b /\
  timeouts c = b_timeouts b /\ fired c = b_fired b /\ opened c = b_opened b.
Proof. intros <-. repeat split. Qed.

(** A timeout that runs out while [client.subscribe()] throws: the flag
    is lowered and [handleDisconnect] runs again. *)
Lemma timeout_event_failure c e :
  (fired c < List.length (timeouts c))%nat ->
  timeout_event (Some e) c =
  handleDisconnect (with_reconnecting false (timeout_fired c)).
Proof.
  intros Hp. unfold timeout_event.
  apply Nat.ltb_lt in Hp. rewrite Hp. reflexivity.
Qed.

Lemma timeout_event_idle c r :
  fired c = List.length (timeouts c) -> timeout_event r c = c.
Proof.
  intros Hf. unfold timeout_event. rewrite Hf, Nat.ltb_irrefl. reflexivity.
Qed.

(** The delays of the first [n] attempts. *)
Definition delays (n : nat) : list Z :=
  map (fun i => reconnect_delay (Z.of_nat i)) (seq 0 n).

Lemma delays_S n :
  delays (S n) = delays n ++ [reconnect_delay (Z.of_nat n)].
Proof. unfold delays. rewrite seq_S, map_app. reflexivity. Qed.

Lemma run_snoc c events e : run c (events ++ [e]) = handle (run c events) e.
Proof. unfold run. now rewrite fold_left_app. Qed.

Lemma repeat_snoc {A} (x : A) n : repeat x (S n) = repeat x n ++ [x].
Proof. induction n as [|n IH]; simpl in *; [reflexivity|]. now rewrite <- IH. Qed.

(** The client after a disconnect followed by [k] attempts that all
    failed. *)
Lemma backoff_after_failures c e k :
  reconnecting c = false ->
  reconnectAttempts c = 0 ->
  fired c = List.length (timeouts c) ->
  backoff_of (run c (StreamDown :: repeat (TimeoutFires (Some e)) k)) =
  {| b_reconnecting := (k <? 20)%nat;
     b_attempts := Z.of_nat (Nat.min (S k) 20);
     b_timeouts := timeouts c ++ delays (Nat.min (S k) 20);
     b_fired := (fired c + Nat.min k 20)%nat;
     b_opened := opened c |}.
Proof.
  intros Hr Ha Hf. induction k as [|k IH].
  - cbn [repeat run fold_left handle stream_event].
    rewrite handleDisconnect_arms by (try assumption; rewrite ?Ha; unfold maxReconnectAttempts; lia).
    rewrite Ha. cbn [Nat.min Nat.ltb Nat.leb]. rewrite Nat.add_0_r.
    reflexivity.
  - rewrite repeat_snoc, app_comm_cons, run_snoc.
    set (ck := run c (StreamDown :: repeat (TimeoutFires (Some e)) k)) in *.
    apply backoff_fields in IH. cbn [b_reconnecting b_attempts b_timeouts
      b_fired b_opened] in IH.
    destruct IH as (Hrk & Hak & Htk & Hfk & Hok).
    cbn [handle].
    destruct (Nat.lt_ge_cases k 20) as [Hk|Hk].
    + (* an attempt is armed *)
      rewrite Nat.min_l in Hak, Htk by lia. rewrite Nat.min_l in Hfk by lia.
      rewrite timeout_event_failure
        by (rewrite Hfk, Htk, length_app, Hf; unfold delays;
            rewrite length_map, length_seq; lia).
      set (c' := with_reconnecting false (timeout_fired ck)).
      assert (Hr' : reconnecting c' = false) by reflexivity.
      assert (Ha' : reconnectAttempts c' = Z.of_nat (S k)) by exact Hak.
      assert (Ht' : timeouts c' = timeouts c ++ delays (S k)) by exact Htk.
      assert (Hf' : fired c' = S (fired c + k))
        by (change (S (fired ck) = S (fired c + k)); now rewrite Hfk).
      assert (Ho' : opened c' = opened c) by exact Hok.
      destruct (Nat.eq_dec k 19) as [->|Hne].
      * rewrite handleDisconnect_gives_up
          by (try assumption; rewrite ?Ha'; unfold maxReconnectAttempts; lia).
        unfold backoff_of. rewrite Hr', Ha', Ht', Hf', Ho'.
        cbn [Nat.ltb Nat.leb Nat.min]. f_equal. lia.
      * rewrite handleDisconnect_arms
          by (try assumption; rewrite ?Ha'; unfold maxReconnectAttempts; lia).
        rewrite Ha', Ht', Hf', Ho'.
        assert (Hlt : (S k <? 20)%nat = true) by (apply Nat.ltb_lt; lia).
        rewrite Hlt, !Nat.min_l by lia. rewrite (delays_S (S k)).
        rewrite <- app_assoc. f_equal; lia.
    + (* the client has given up *)
      rewrite Nat.min_r in Hak, Htk by lia. rewrite Nat.min_r in Hfk by lia.
      rewrite timeout_event_idle
        by (rewrite Hfk, Htk, length_app, Hf; unfold delays;
            now rewrite length_map, length_seq).
      unfold backoff_of. rewrite Hrk, Hak, Htk, Hfk, Hok.
      assert (Hlt : (k <? 20)%nat = false) by (apply Nat.ltb_ge; lia).
      assert (Hlt' : (S k <? 20)%nat = false) by (apply Nat.ltb_ge; lia).
      rewrite Hlt, Hlt', !Nat.min_r by lia. reflexivity.
Qed.

Lemma subscribeToProgram_outside programId c :
  let c' := snd (subscribeToProgram programId c) in
  backoff_of c' = backoff_of c /\ written c' = written c /\
  stream c' = stream c /\ pingInterval c' = pingInterval c.
Proof.
  unfold subscribeToProgram. destruct (stream c) eqn:Es.
  - destruct (JsMap.has programId (subscriptions c)); cbn [snd];
      unfold backoff_of; fields; now rewrite ?Es.
  - cbn [snd]. now rewrite Es.
Qed.

Lemma resubscribe_loop_outside programs c :
  let c' := fold_left
              (fun acc programId => snd (subscribeToProgram programId acc))
              programs c in
  backoff_of c' = backoff_of c /\ written c' = written c /\
  stream c' = stream c /\ pingInterval c' = pingInterval c.
Proof.
  revert c. induction programs as [|p programs IH]; intros c; cbn [fold_left].
  - repeat split.
  - destruct (IH (snd (subscribeToProgram p c))) as (H1 & H2 & H3 & H4).
    destruct (subscribeToProgram_outside p c) as (G1 & G2 & G3 & G4).
    cbv zeta in *. rewrite H1, H2, H3, H4. now rewrite G1, G2, G3, G4.
Qed.

Lemma resubscribeAll_outside c :
  backoff_of (resubscribeAll c) = backoff_of c /\
  written (resubscribeAll c) = written c /\
  stream (resubscribeAll c) = stream c /\
  pingInterval (resubscribeAll c) = pingInterval c.
Proof.
  unfold resubscribeAll.
  destruct (resubscribe_loop_outside (JsMap.keys (subscriptions c))
              (with_subscriptions (JsMap.clear (subscriptions c)) c))
    as (H1 & H2 & H3 & H4).
  cbv zeta in *. rewrite H1, H2, H3, H4. repeat split.
Qed.

(** [connect] writes no request, whatever [client.subscribe()] answers. *)
Lemma connect_written e c : written (snd (connect e c)) = written c.
Proof.
  unfold connect. destruct e as [e|]; cbn [snd]; [reflexivity|].
  destruct (resubscribeAll_outside (startPingInterval (open_stream c)))
    as (_ & H & _). rewrite H.
  unfold startPingInterval, stopPingInterval. fields.
  destruct (pingInterval c); reflexivity.
Qed.

(** A timeout that runs out while [client.subscribe()] opens a stream. *)
Lemma timeout_event_success c :
  (fired c < List.length (timeouts c))%nat ->
  backoff_of (timeout_event None c) =
  {| b_reconnecting := false; b_attempts := 0; b_timeouts := timeouts c;
     b_fired := S (fired c); b_opened := S (opened c) |}.
Proof.
  intros Hp. unfold timeout_event. apply Nat.ltb_lt in Hp. rewrite Hp.
  unfold reconnect_callback, connect.
  destruct (resubscribeAll_outside
              (startPingInterval (open_stream (timeout_fired c))))
    as (H & _).
  apply backoff_fields in H. destruct H as (_ & _ & Ht & Hf & Ho).
  unfold backoff_of. fields. rewrite Ht, Hf, Ho.
  unfold startPingInterval, stopPingInterval. fields.
  destruct (pingInterval c); reflexivity.
Qed.

(** Once the client has given up, no event makes it arm a timeout or
    open a stream. *)
Lemma gave_up_forever c events :
  reconnecting c = false ->
  maxReconnectAttempts <= reconnectAttempts c ->
  fired c = List.length (timeouts c) ->
  backoff_of (run c events) = backoff_of c.
Proof.
  revert c. induction events as [|ev events IH]; intros c Hr Ha Hf;
    [reflexivity|].
  change (run c (ev :: events)) with (run (handle c ev) events).
  assert (Hstep : backoff_of (handle c ev) = backoff_of c).
  { destruct ev as [|r]; cbn [handle stream_event].
    - now apply handleDisconnect_gives_up.
    - now rewrite timeout_event_idle. }
  pose proof (backoff_fields _ _ Hstep) as (Hr' & Ha' & Ht' & Hf' & _).
  cbn [b_reconnecting b_attempts b_timeouts b_fired backoff_of] in *.
  rewrite IH; [assumption| | |]; congruence.
Qed.

(** C8.  After a disconnect of a client that is not reconnecting and
    counts no attempt, the attempt numbered [n] (from 0) is armed with the
    delay [min (1000 * 2^n) 60000]: 1000, 2000, 4000, 8000, 16000, 32000,
    60000, 60000, ...  Each failed attempt raises the counter by one and a
    failure never lowers it; an attempt that succeeds sets it to zero, so
    that the next disconnect waits 1000 again.  After 20 failed attempts
    the counter is 20 and the client has given up: whatever the stream or
    the timers deliver afterwards, it arms no timeout and opens no
    stream. *)
Theorem reconnect_backoff_schedule :
  forall (c : GrpcClient) (e : string),
    reconnecting c = false ->
    reconnectAttempts c = 0 ->
    fired c = List.length (timeouts c) ->
    (forall n, reconnect_delay n = Z.min (1000 * 2 ^ n) 60000) /\
    delays 8 = [1000; 2000; 4000; 8000; 16000; 32000; 60000; 60000] /\
    forall k,
      let ck := run c (StreamDown :: repeat (TimeoutFires (Some e)) k) in
      timeouts ck = timeouts c ++ delays (Nat.min (S k) 20) /\
      reconnectAttempts ck = Z.of_nat (Nat.min (S k) 20) /\
      ((k < 20)%nat ->
       let ok := handle ck (TimeoutFires None) in
       reconnectAttempts ok = 0 /\ reconnecting ok = false /\
       timeouts (handle ok StreamDown) = timeouts ok ++ [1000]) /\
      ((20 <= k)%nat ->
       forall events,
         timeouts (run ck events) = timeouts ck /\
         opened (run ck events) = opened ck /\
         reconnectAttempts (run ck events) = maxReconnectAttempts).
Proof.
  intros c e Hr Ha Hf. split; [reflexivity|]. split; [reflexivity|].
  intros k ck.
  pose proof (backoff_after_failures c e k Hr Ha Hf) as Hk.
  fold ck in Hk. apply backoff_fields in Hk.
  cbn [b_reconnecting b_attempts b_timeouts b_fired b_opened] in Hk.
  destruct Hk as (Hrk & Hak & Htk & Hfk & Hok).
  split; [assumption|]. split; [assumption|]. split.
  - intros Hlt ok.
    assert (Hp : (fired ck < List.length (timeouts ck))%nat).
    { rewrite Hfk, Htk, length_app, Hf. unfold delays.
      rewrite length_map, length_seq. lia. }
    pose proof (timeout_event_success ck Hp) as Hok'.
    change (timeout_event None ck) with ok in Hok'.
    apply backoff_fields in Hok'.
    cbn [b_reconnecting b_attempts b_timeouts b_fired b_opened] in Hok'.
    destruct Hok' as (Hr1 & Ha1 & Ht1 & Hf1 & Ho1).
    split; [assumption|]. split; [assumption|].
    cbn [handle stream_event].
    assert (Harm := handleDisconnect_arms ok Hr1).
    rewrite Ha1 in Harm. specialize (Harm eq_refl).
    apply backoff_fields in Harm.
    cbn [b_reconnecting b_attempts b_timeouts b_fired b_opened] in Harm.
    destruct Harm as (_ & _ & Ht2 & _). exact Ht2.
  - intros Hge events.
    assert (Hg : backoff_of (run ck events) = backoff_of ck).
    { apply gave_up_forever.
      - rewrite Hrk. apply Nat.ltb_ge. lia.
      - rewrite Hak, Nat.min_r by lia. reflexivity.
      - rewrite Hfk, Htk, length_app, Hf. unfold delays.
        rewrite length_map, length_seq. lia. }
    apply backoff_fields in Hg.
    cbn [b_reconnecting b_attempts b_timeouts b_fired b_opened backoff_of]
      in Hg.
    destruct Hg as (_ & Ha2 & Ht2 & _ & Ho2).
    repeat split; try assumption.
    rewrite Ha2, Hak, Nat.min_r by lia. reflexivity.
Qed.

Lemma reconnect_backoff_schedule_witness :
  let c := snd (connect None new_client) in
  let ck := run c (StreamDown :: repeat (TimeoutFires (Some "down")) 25) in
  reconnecting c = false /\ reconnectAttempts c = 0 /\
  fired c = List.length (timeouts c) /\
  timeouts ck = timeouts c ++ delays (Nat.min 26 20) /\
  reconnectAttempts ck = 20.
Proof.
  intros c ck.
  assert (Hr : reconnecting c = false) by reflexivity.
  assert (Ha : reconnectAttempts c = 0) by reflexivity.
  assert (Hf : fired c = List.length (timeouts c)) by reflexivity.
  destruct (reconnect_backoff_schedule c "down" Hr Ha Hf) as (_ & _ & H).
  destruct (H 25%nat) as (Ht & Hak & _).
  repeat split; assumption.
Defined.

(** C10.  A client with no stream, as it is before [connect] and after
    [disconnect], rejects [subscribeToProgram], [sendSubscriptions] and
    [unsubscribeFromProgram] with "gRPC stream not connected" and is left
    as it was, its subscriptions included. *)
Theorem operations_need_open_stream :
  not_connected = "gRPC stream not connected" /\
  stream new_client = None /\
  (forall c, stream (disconnect c) = None) /\
  forall (c : GrpcClient) (programId : string) (write_error : option string),
    stream c = None ->
    subscribeToProgram programId c = (Rejected not_connected, c) /\
    sendSubscriptions write_error c = (Rejected not_connected, c) /\
    unsubscribeFromProgram write_error programId c
      = (Rejected not_connected, c).
Proof.
  split; [reflexivity|]. split; [reflexivity|]. split.
  - intros c. unfold disconnect, stopPingInterval.
    destruct (pingInterval c); fields; destruct (stream c) eqn:Es; fields;
      rewrite ?Es; reflexivity.
  - intros c programId write_error Hs.
    unfold subscribeToProgram, sendSubscriptions, unsubscribeFromProgram.
    rewrite Hs. repeat split.
Qed.

Lemma operations_need_open_stream_witness :
  let c := disconnect (snd (subscribeToProgram "P" (snd (connect None new_client)))) in
  stream c = None /\
  subscribeToProgram "P" c = (Rejected not_connected, c) /\
  sendSubscriptions None c = (Rejected not_connected, c) /\
  unsubscribeFromProgram None "P" c = (Rejected not_connected, c).
Proof.
  intros c. split; [reflexivity|].
  destruct operations_need_open_stream as (_ & _ & _ & H).
  apply (H c "P" None). reflexivity.
Defined.

(** The client of the scenario of C6: it connects, subscribes to a
    program and sends its subscriptions; then its stream goes down and the
    attempt armed by [handleDisconnect] succeeds. *)
Definition reconnect_scenario (programId : string) : GrpcClient :=
  let c1 := snd (connect None new_client) in
  let c2 := snd (subscribeToProgram programId c1) in
  let c3 := snd (sendSubscriptions None c2) in
  run c3 [StreamDown; TimeoutFires None].

(** C6, as the code has it.  [connect] writes no request to the stream,
    whatever the client remembers: after the disconnect and the
    successful reconnect of the scenario, the client is on its second
    stream and still lists the program as subscribed, and the only request
    it ever wrote is the one it sent on its first stream. *)
Theorem reconnect_sends_no_subscription :
  (forall e c, written (snd (connect e c)) = written c) /\
  forall programId,
    let c := reconnect_scenario programId in
    stream c = Some 1%nat /\
    getSubscribedPrograms c = [programId] /\
    reconnecting c = false /\ reconnectAttempts c = 0 /\
    written c =
      [(0%nat,
        combinedRequest [(programId, ("program_" ++ programId)%string)])].
Proof.
  split; [exact connect_written|].
  intros programId c. repeat split.
Qed.

(** C7 as the claim states it: unsubscribing from a subscribed program
    removes its entry and writes a request whose account filters are those
    of the subscriptions left. *)
Definition unsubscribe_sends_remaining_set : Prop :=
  forall (c : GrpcClient) (programId : string) (s : nat),
    stream c = Some s ->
    JsMap.get programId (subscriptions c)
      = Some ("program_" ++ programId)%string ->
    let c' := snd (unsubscribeFromProgram None programId c) in
    JsMap.get programId (subscriptions c') = None /\
    exists request,
      written c' = written c ++ [(s, request)] /\
      accounts request = accountsFilter (subscriptions c').

(** A connected client subscribed to two programs. *)
Definition two_subscriptions : GrpcClient :=
  let c1 := snd (connect None new_client) in
  let c2 := snd (subscribeToProgram "A" c1) in
  snd (subscribeToProgram "B" c2).

(** C7, counterexample: with "A" and "B" subscribed, unsubscribing from
    "A" writes a request with no account filter while "B" is still
    subscribed. *)
Lemma unsubscribe_ignores_remaining_set : ~ unsubscribe_sends_remaining_set.
Proof.
  intros H.
  destruct (H two_subscriptions "A" 0%nat eq_refl eq_refl)
    as (_ & request & Hw & Ha).
  cbv in Hw. injection Hw as <-. cbv in Ha. discriminate Ha.
Qed.

(** C7, amended.  For a connected client and a program it is subscribed
    to, [unsubscribeFromProgram] writes one request, which holds no
    account filter whatever other programs are subscribed.  When the
    write succeeds the entry of the program is removed and every other
    entry is kept; when the write fails the call is rejected with the
    error of the write and the subscriptions are left as they were. *)
Theorem unsubscribe_sends_empty_request :
  forall (c : GrpcClient) (programId : string) (s : nat)
         (write_error : option string),
    stream c = Some s ->
    JsMap.wf (subscriptions c) ->
    JsMap.get programId (subscriptions c)
      = Some ("program_" ++ programId)%string ->
    let r := fst (unsubscribeFromProgram write_error programId c) in
    let c' := snd (unsubscribeFromProgram write_error programId c) in
    written c' = written c ++ [(s, emptyRequest)] /\
    accounts emptyRequest = [] /\
    match write_error with
    | None =>
        r = Resolved tt /\
        subscriptions c' = JsMap.delete programId (subscriptions c) /\
        JsMap.get programId (subscriptions c') = None /\
        forall other,
          other <> programId ->
          JsMap.get other (subscriptions c')
            = JsMap.get other (subscriptions c)
    | Some e => r = Rejected e /\ subscriptions c' = subscriptions c
    end.
Proof.
  intros c programId s write_error Hs Hwf Hget r c'. subst r c'.
  unfold unsubscribeFromProgram. rewrite Hs, Hget.
  assert (Ht : truthy ("program_" ++ programId)%string = true) by reflexivity.
  rewrite Ht. destruct write_error as [e|]; cbn [fst snd]; fields.
  - repeat split.
  - repeat split.
    + now apply JsMapFacts.get_delete_same.
    + intros other Hne. apply JsMapFacts.get_delete_other. congruence.
Qed.

Lemma unsubscribe_sends_empty_request_witness :
  let c' := snd (unsubscribeFromProgram None "A" two_subscriptions) in
  written c' = [(0%nat, emptyRequest)] /\
  subscriptions c' = [("B", "program_B")].
Proof.
  assert (Hwf : JsMap.wf (subscriptions two_subscriptions)).
  { repeat constructor; cbn; intuition discriminate. }
  destruct (unsubscribe_sends_empty_request two_subscriptions "A" 0%nat None
              eq_refl Hwf eq_refl) as (Hw & _ & _ & Hd & _).
  split; [exact Hw | exact Hd].
Defined.

End GrpcFacts.

(** * Facts about the change processor *)

Module ProcessorFacts.
Import Processor.

Section Facts.

Variable sha256 : list byte -> string.
Variable base64 : list byte -> string.

Abbreviation buffered := (Processor.buffered sha256).
Abbreviation addUpdate := (Processor.addUpdate sha256).
Abbreviation step := (Processor.step sha256 base64).
Abbreviation run := (Processor.run sha256 base64).
Abbreviation deliver := (Processor.deliver sha256).
Abbreviation state_of := (Processor.state_of base64).
Abbreviation detect := (Processor.detect base64).
Abbreviation process_groups := (Processor.process_groups base64).
Abbreviation processBuffer := (Processor.processBuffer base64).

(** *** The buffer *)

Lemma keyed_by_pubkey_new : keyed_by_pubkey new_processor.
Proof. split; [constructor | intros k u []]. Qed.

Lemma In_set_inv {V} k (v : V) m k' v' :
  In (k', v') (JsMap.set k v m) -> (k' = k /\ v' = v) \/ In (k', v') m.
Proof.
  induction m as [|[k0 v0] m IH]; simpl.
  - intros [H|[]]. injection H as <- <-. now left.
  - destruct (String.eqb k k0) eqn:E; simpl.
    + intros [H|H]; [injection H as <- <-; now left | right; now right].
    + intros [H|H]; [right; now left|].
      destruct (IH H) as [?|?]; [now left | right; now right].
Qed.

Lemma keyed_by_pubkey_addUpdate update p :
  keyed_by_pubkey p -> keyed_by_pubkey (addUpdate update p).
Proof.
  intros [Hwf Hk]. split; cbn [buffer Processor.addUpdate].
  - now apply JsMapFacts.wf_set.
  - intros k u Hin. apply In_set_inv in Hin.
    destruct Hin as [[-> ->]|Hin]; [reflexivity | now apply Hk].
Qed.

Lemma keyed_by_pubkey_processBuffer store p :
  keyed_by_pubkey p -> keyed_by_pubkey (after (processBuffer store p)).
Proof.
  intros Hk. unfold Processor.processBuffer.
  destruct (isProcessing p || (JsMap.size (buffer p) =? 0)%nat);
    [exact Hk|].
  assert (Hclear : forall q, keyed_by_pubkey (clear_buffer q))
    by (intros q; split; [constructor | intros k u []]).
  destruct (process_groups store _ [] _) as [[states|e] s];
    [|exact Hk].
  destruct (0 <? List.length states)%nat; [|apply Hclear].
  destruct (Db.insertAccountStates _ states); [apply Hclear | exact Hk].
Qed.

Lemma isProcessing_addUpdate update p :
  isProcessing (addUpdate update p) = isProcessing p.
Proof. reflexivity. Qed.

(** The pubkeys of the buffered updates are the keys of the buffer. *)
Lemma values_pubkeys p :
  keyed_by_pubkey p ->
  map pubkey (JsMap.values (buffer p)) = JsMap.keys (buffer p).
Proof.
  intros [_ Hk]. unfold JsMap.values, JsMap.keys.
  induction (buffer p) as [|[k u] m IH]; [reflexivity|].
  cbn [map fst snd]. f_equal.
  - apply Hk. now left.
  - apply IH. intros k' u' Hin. apply Hk. now right.
Qed.

Lemma values_NoDup p :
  keyed_by_pubkey p -> NoDup (map pubkey (JsMap.values (buffer p))).
Proof. intros Hk. rewrite values_pubkeys by assumption. apply Hk. Qed.

Lemma NoDup_map_inj {A B} (f : A -> B) l a b :
  NoDup (map f l) -> In a l -> In b l -> f a = f b -> a = b.
Proof.
  induction l as [|x l IH]; simpl; [tauto|].
  intros Hnd Ha Hb Hf. inversion Hnd as [|? ? Hnotin Hnd']; subst.
  destruct Ha as [->|Ha], Hb as [->|Hb]; try reflexivity.
  - exfalso. apply Hnotin. rewrite Hf. now apply in_map.
  - exfalso. apply Hnotin. rewrite <- Hf. now apply in_map.
  - now apply IH.
Qed.

(** *** Grouping by program *)

Definition of_program (program : string) (u : BufferedUpdate) : bool :=
  String.eqb (programId u) program.

Definition non_empty {A} (l : list A) : option (list A) :=
  match l with [] => None | _ :: _ => Some l end.

Lemma group_by_program_snoc l u :
  group_by_program (l ++ [u]) = group_step (group_by_program l) u.
Proof. unfold group_by_program. now rewrite fold_left_app. Qed.

Lemma group_by_program_spec l :
  JsMap.wf (group_by_program l) /\
  forall program,
    JsMap.get program (group_by_program l)
    = non_empty (filter (of_program program) l).
Proof.
  induction l as [|u l IH] using rev_ind.
  - split; [constructor | reflexivity].
  - destruct IH as [Hwf Hget]. rewrite group_by_program_snoc.
    unfold group_step. split; [now apply JsMapFacts.wf_set|].
    intros program. rewrite filter_app. cbn [filter]. unfold of_program at 2.
    destruct (String.eqb (programId u) program) eqn:E.
    + apply String.eqb_eq in E. subst program.
      rewrite JsMapFacts.get_set_same, Hget.
      destruct (filter (of_program (programId u)) l); reflexivity.
    + apply String.eqb_neq in E.
      rewrite JsMapFacts.get_set_other by assumption.
      rewrite app_nil_r. apply Hget.
Qed.

Lemma group_entry l program ups :
  In (program, ups) (JsMap.entries (group_by_program l)) ->
  ups = filter (of_program program) l /\ ups <> [].
Proof.
  destruct (group_by_program_spec l) as [Hwf Hget].
  intros Hin. apply JsMapFacts.In_get in Hin; [|assumption].
  rewrite Hget in Hin. destruct (filter (of_program program) l) eqn:E;
    [discriminate|].
  injection Hin as <-. split; [reflexivity | discriminate].
Qed.

Lemma group_of_update l u :
  In u l ->
  In (programId u, filter (of_program (programId u)) l)
     (JsMap.entries (group_by_program l)).
Proof.
  intros Hin. destruct (group_by_program_spec l) as [_ Hget].
  apply JsMapFacts.get_In. rewrite Hget.
  assert (Hf : In u (filter (of_program (programId u)) l)).
  { apply filter_In. split; [assumption|]. apply String.eqb_refl. }
  destruct (filter (of_program (programId u)) l); [destruct Hf | reflexivity].
Qed.

(** *** The states a flush pushes *)

(** The states pushed for one update, given the hashes the lookup
    answered. *)
Definition changed_rows (existingHashes : JsMap.t string)
    (u : BufferedUpdate) : list Db.AccountState :=
  match JsMap.get (pubkey u) existingHashes with
  | None => []
  | Some existingHash =>
      if negb (Grpc.truthy existingHash) then []
      else if negb (String.eqb existingHash (dataHash u)) then [state_of u]
      else []
  end.

(** The states pushed for the updates of one program; none when the
    lookup fails. *)
Definition group_rows (store : Store)
    (g : string * list BufferedUpdate) : list Db.AccountState :=
  let pubkeys := map pubkey (snd g) in
  match Db.getLatestHashes (latest_hashes store (fst g) pubkeys)
                           (fst g) pubkeys with
  | Resolved existingHashes => flat_map (changed_rows existingHashes) (snd g)
  | Rejected _ => []
  end.

Lemma detect_step existingHashes states s u :
  fst (detect existingHashes (states, s) u)
  = states ++ changed_rows existingHashes u.
Proof.
  unfold Processor.detect, changed_rows.
  destruct (JsMap.get (pubkey u) existingHashes) as [h|];
    [|cbn; now rewrite app_nil_r].
  destruct (negb (Grpc.truthy h)); [cbn; now rewrite app_nil_r|].
  destruct (negb (String.eqb h (dataHash u))); cbn;
    [reflexivity | now rewrite app_nil_r].
Qed.

Lemma detect_fold existingHashes ups states s :
  fst (fold_left (detect existingHashes) ups (states, s))
  = states ++ flat_map (changed_rows existingHashes) ups.
Proof.
  revert states s. induction ups as [|u ups IH]; intros states s.
  - cbn. now rewrite app_nil_r.
  - cbn [fold_left flat_map].
    pose proof (detect_step existingHashes states s u) as Hd.
    destruct (detect existingHashes (states, s) u) as [st1 s1].
    cbn [fst] in Hd. rewrite IH, Hd. now rewrite <- app_assoc.
Qed.

(** When the loop over the programs comes to its end, it has pushed the
    states of each program in turn. *)
Lemma process_groups_resolved store todo states s states' s' :
  process_groups store todo states s = (Resolved states', s') ->
  states' = states ++ flat_map (group_rows store) todo.
Proof.
  revert states s. induction todo as [|[program ups] todo IH];
    intros states s; cbn [Processor.process_groups flat_map].
  - intros [= <- _]. now rewrite app_nil_r.
  - unfold group_rows at 1. cbn [fst snd].
    destruct (Db.getLatestHashes _ program (map pubkey ups)) as [m|e];
      [|discriminate].
    pose proof (detect_fold m ups states s) as Hd.
    destruct (fold_left (detect m) ups (states, s)) as [st1 s1].
    cbn [fst] in Hd. intros H. apply IH in H. rewrite H, Hd.
    now rewrite <- app_assoc.
Qed.

(** The loop comes to its end when every lookup answers. *)
Definition lookups_answer (store : Store) : Prop :=
  forall program pubkeys,
    Db.reply_error (latest_hashes store program pubkeys) = None.

Lemma getLatestHashes_answers store program pubkeys :
  lookups_answer store ->
  exists m,
    Db.getLatestHashes (latest_hashes store program pubkeys) program pubkeys
    = Resolved m.
Proof.
  intros H. unfold Db.getLatestHashes. destruct pubkeys; [now eexists|].
  rewrite H. now eexists.
Qed.

Lemma process_groups_answers store todo states s :
  lookups_answer store ->
  exists s',
    process_groups store todo states s
    = (Resolved (states ++ flat_map (group_rows store) todo), s').
Proof.
  intros Hans. revert states s.
  induction todo as [|[program ups] todo IH]; intros states s;
    cbn [Processor.process_groups flat_map].
  - exists s. now rewrite app_nil_r.
  - unfold group_rows at 1. cbn [fst snd].
    destruct (getLatestHashes_answers store program (map pubkey ups) Hans)
      as [m Hm].
    rewrite Hm. pose proof (detect_fold m ups states s) as Hd.
    destruct (fold_left (detect m) ups (states, s)) as [st1 s1].
    cbn [fst] in Hd. destruct (IH st1 s1) as [s' Hs']. exists s'.
    rewrite Hs', Hd. now rewrite <- app_assoc.
Qed.

(** The groups of a flush of [p]. *)
Definition groups_of (p : ChangeProcessor)
  : list (string * list BufferedUpdate) :=
  JsMap.entries (group_by_program (JsMap.values (buffer p))).

(** The states a flush hands to the insert are among those pushed for
    its groups. *)
Lemma batch_incl store p :
  incl (batch (processBuffer store p))
       (flat_map (group_rows store) (groups_of p)).
Proof.
  unfold Processor.processBuffer.
  destruct (isProcessing p || (JsMap.size (buffer p) =? 0)%nat);
    [intros x []|].
  cbn [buffer with_isProcessing stats].
  destruct (process_groups store _ [] (stats p)) as [[states|e] s] eqn:E.
  - apply process_groups_resolved in E. cbn [app] in E. subst states.
    fold (groups_of p).
    destruct (0 <? List.length _)%nat; [|intros x []].
    destruct (Db.insertAccountStates _ _); cbn [batch]; apply incl_refl.
  - intros x [].
Qed.

(** When every lookup answers, a flush that runs hands to the insert the
    states pushed for its groups. *)
Lemma batch_answers store p :
  lookups_answer store ->
  isProcessing p = false ->
  batch (processBuffer store p) = flat_map (group_rows store) (groups_of p).
Proof.
  intros Hans Hip. unfold Processor.processBuffer. rewrite Hip.
  cbn [orb]. destruct (JsMap.size (buffer p) =? 0)%nat eqn:Esz.
  - apply Nat.eqb_eq in Esz. unfold groups_of.
    destruct (buffer p); [reflexivity | discriminate].
  - cbn [buffer with_isProcessing stats].
    destruct (process_groups_answers store (groups_of p) [] (stats p) Hans)
      as [s' Hs'].
    fold (groups_of p). rewrite Hs'. cbn [app].
    destruct (flat_map (group_rows store) (groups_of p)) as [|r rows] eqn:Er;
      [reflexivity|].
    cbn [List.length Nat.ltb Nat.leb].
    destruct (Db.insertAccountStates _ _); reflexivity.
Qed.

(** Where a state of the batch comes from: a buffered update whose
    pubkey the lookup of its program answered with a hash, not empty and
    not the hash of the update. *)
Lemma row_origin store p row :
  In row (batch (processBuffer store p)) ->
  exists u m h,
    In u (JsMap.values (buffer p)) /\
    existing_hashes store p (programId u) = Resolved m /\
    JsMap.get (pubkey u) m = Some h /\
    Grpc.truthy h = true /\ h <> dataHash u /\ row = state_of u.
Proof.
  intros Hin. apply batch_incl in Hin. apply in_flat_map in Hin.
  destruct Hin as ([program ups] & Hg & Hrow).
  apply group_entry in Hg. destruct Hg as [Hups _].
  unfold group_rows in Hrow. cbn [fst snd] in Hrow.
  destruct (Db.getLatestHashes _ program (map pubkey ups)) as [m|e] eqn:Em;
    [|destruct Hrow].
  apply in_flat_map in Hrow. destruct Hrow as (u & Hu & Hrow).
  assert (Hu' : In u (filter (of_program program) (JsMap.values (buffer p))))
    by now rewrite <- Hups.
  apply filter_In in Hu'. destruct Hu' as [Hval Hprog].
  apply String.eqb_eq in Hprog. subst program.
  unfold changed_rows in Hrow.
  destruct (JsMap.get (pubkey u) m) as [h|] eqn:Eh; [|destruct Hrow].
  destruct (Grpc.truthy h) eqn:Et; cbn [negb] in Hrow; [|destruct Hrow].
  destruct (String.eqb h (dataHash u)) eqn:Ee; cbn [negb] in Hrow;
    [destruct Hrow|].
  destruct Hrow as [<-|[]]. exists u, m, h.
  repeat split; try assumption.
  - unfold existing_hashes, program_updates. fold (of_program (programId u)).
    rewrite <- Hups. exact Em.
  - now apply String.eqb_neq.
Qed.

Lemma keyed_by_pubkey_deliver updates p :
  keyed_by_pubkey p -> keyed_by_pubkey (deliver updates p).
Proof.
  revert p. induction updates as [|x updates IH]; intros p Hk;
    [assumption|].
  apply IH. now apply keyed_by_pubkey_addUpdate.
Qed.

Lemma truthy_not_empty h : Grpc.truthy h = true -> h <> "".
Proof.
  unfold Grpc.truthy. intros H ->. discriminate H.
Qed.

(** C4.  Whatever updates were delivered, a flush hands to the insert no
    state for the pubkey of a buffered update when the lookup of its
    program answered no hash for that pubkey; each state of the batch is
    for a pubkey whose lookup answered a hash. *)
Theorem no_baseline_no_row :
  forall (store : Store) (p0 : ChangeProcessor)
         (updates : list Grpc.AccountUpdate),
    keyed_by_pubkey p0 ->
    let p := deliver updates p0 in
    (forall u m,
        In u (JsMap.values (buffer p)) ->
        existing_hashes store p (programId u) = Resolved m ->
        JsMap.get (pubkey u) m = None ->
        forall row,
          In row (batch (processBuffer store p)) ->
          Db.pubkey row <> pubkey u) /\
    (forall row,
        In row (batch (processBuffer store p)) ->
        exists u m h,
          In u (JsMap.values (buffer p)) /\
          Db.pubkey row = pubkey u /\
          existing_hashes store p (programId u) = Resolved m /\
          JsMap.get (pubkey u) m = Some h /\ h <> "").
Proof.
  intros store p0 updates Hk0 p.
  assert (Hk : keyed_by_pubkey p) by now apply keyed_by_pubkey_deliver.
  split.
  - intros u m Hu Hm Hnone row Hrow Heq.
    apply row_origin in Hrow.
    destruct Hrow as (u' & m' & h & Hu' & Hm' & Hh & _ & _ & ->).
    cbn [Db.pubkey Processor.state_of] in Heq.
    assert (u' = u)
      by (eapply NoDup_map_inj; eauto using values_NoDup).
    subst u'. rewrite Hm in Hm'. injection Hm' as <-. congruence.
  - intros row Hrow. apply row_origin in Hrow.
    destruct Hrow as (u & m & h & Hu & Hm & Hh & Ht & _ & ->).
    exists u, m, h. repeat split; try assumption.
    now apply truthy_not_empty.
Qed.

(** *** The states of one pubkey *)

Definition for_pubkey (k : string) (row : Db.AccountState) : bool :=
  String.eqb (Db.pubkey row) k.

Lemma filter_flat_map {A B} (f : B -> bool) (g : A -> list B) l :
  filter f (flat_map g l) = flat_map (fun x => filter f (g x)) l.
Proof.
  induction l as [|x l IH]; [reflexivity|].
  cbn [flat_map]. now rewrite filter_app, IH.
Qed.

Lemma flat_map_nil {A B} (g : A -> list B) l :
  (forall x, In x l -> g x = []) -> flat_map g l = [].
Proof.
  induction l as [|x l IH]; intros H; [reflexivity|].
  cbn [flat_map]. rewrite H by now left. apply IH.
  intros y Hy. apply H. now right.
Qed.

Lemma changed_rows_for_pubkey k m u :
  filter (for_pubkey k) (changed_rows m u)
  = if String.eqb (pubkey u) k then changed_rows m u else [].
Proof.
  unfold changed_rows.
  destruct (JsMap.get (pubkey u) m) as [h|];
    [|now destruct (String.eqb (pubkey u) k)].
  destruct (negb (Grpc.truthy h)); [now destruct (String.eqb (pubkey u) k)|].
  destruct (negb (String.eqb h (dataHash u)));
    [|now destruct (String.eqb (pubkey u) k)].
  cbn [filter]. unfold for_pubkey at 1.
  change (Db.pubkey (state_of u)) with (pubkey u).
  now destruct (String.eqb (pubkey u) k).
Qed.

(** Among updates of distinct pubkeys, only the update of pubkey [k]
    pushes states for [k]. *)
Lemma rows_for_pubkey_in_list k m l b :
  NoDup (map pubkey l) -> In b l -> pubkey b = k ->
  flat_map (fun x => filter (for_pubkey k) (changed_rows m x)) l
  = changed_rows m b.
Proof.
  intros Hnd Hin Hk. induction l as [|x l IH]; [destruct Hin|].
  cbn [map] in Hnd. inversion Hnd as [|? ? Hnotin Hnd']; subst.
  cbn [flat_map]. rewrite changed_rows_for_pubkey.
  destruct Hin as [->|Hin].
  - rewrite String.eqb_refl. rewrite flat_map_nil; [apply app_nil_r|].
    intros y Hy. rewrite changed_rows_for_pubkey.
    destruct (String.eqb (pubkey y) (pubkey b)) eqn:E; [|reflexivity].
    apply String.eqb_eq in E. exfalso. apply Hnotin. rewrite <- E.
    now apply in_map.
  - destruct (String.eqb (pubkey x) (pubkey b)) eqn:E.
    + apply String.eqb_eq in E. exfalso. apply Hnotin. rewrite E.
      now apply in_map.
    + cbn [app]. now apply IH.
Qed.

Lemma NoDup_map_filter {A B} (f : A -> B) (g : A -> bool) l :
  NoDup (map f l) -> NoDup (map f (filter g l)).
Proof.
  induction l as [|x l IH]; intros Hnd; [constructor|].
  cbn [map] in Hnd. inversion Hnd as [|? ? Hnotin Hnd']; subst.
  cbn [filter]. destruct (g x); [|now apply IH].
  cbn [map]. constructor; [|now apply IH].
  intros Hin. apply Hnotin. apply in_map_iff in Hin.
  destruct Hin as (y & Hy & Hin). apply filter_In in Hin.
  apply in_map_iff. exists y. tauto.
Qed.

Lemma flat_map_single {A B} (h : string * A -> list B) G g0 :
  NoDup (map fst G) -> In g0 G ->
  (forall g, In g G -> fst g <> fst g0 -> h g = []) ->
  flat_map h G = h g0.
Proof.
  intros Hnd Hin Hother. induction G as [|g G IH]; [destruct Hin|].
  cbn [map] in Hnd. inversion Hnd as [|? ? Hnotin Hnd']; subst.
  cbn [flat_map]. destruct Hin as [->|Hin].
  - rewrite flat_map_nil; [apply app_nil_r|].
    intros g Hg. apply Hother; [now right|].
    intros Heq. apply Hnotin. rewrite <- Heq. now apply in_map.
  - rewrite Hother; [| now left |].
    + cbn [app]. apply IH; [assumption..|].
      intros g' Hg'. apply Hother. now right.
    + intros Heq. apply Hnotin. rewrite Heq. now apply in_map.
Qed.

(** The states a flush pushes for the pubkey of a buffered update are
    those pushed for that update. *)
Lemma rows_for_pubkey store p b m :
  keyed_by_pubkey p ->
  In b (JsMap.values (buffer p)) ->
  existing_hashes store p (programId b) = Resolved m ->
  filter (for_pubkey (pubkey b))
         (flat_map (group_rows store) (groups_of p))
  = changed_rows m b.
Proof.
  intros Hk Hb Hm. pose proof (values_NoDup p Hk) as Hnd.
  rewrite filter_flat_map.
  set (l := JsMap.values (buffer p)) in *.
  set (g0 := (programId b, filter (of_program (programId b)) l)).
  rewrite (flat_map_single _ (groups_of p) g0).
  - unfold group_rows, g0. cbn [fst snd].
    unfold existing_hashes, program_updates in Hm.
    fold l in Hm. fold (of_program (programId b)) in Hm. rewrite Hm.
    rewrite filter_flat_map. apply rows_for_pubkey_in_list.
    + now apply NoDup_map_filter.
    + apply filter_In. split; [assumption | apply String.eqb_refl].
    + reflexivity.
  - apply (proj1 (group_by_program_spec l)).
  - now apply group_of_update.
  - intros [program ups] Hg Hne. unfold g0 in Hne. cbn [fst] in Hne.
    apply group_entry in Hg. destruct Hg as [-> _].
    unfold group_rows. cbn [fst snd].
    destruct (Db.getLatestHashes _ _ _) as [m'|e]; [|reflexivity].
    rewrite filter_flat_map. apply flat_map_nil. intros x Hx.
    rewrite changed_rows_for_pubkey.
    destruct (String.eqb (pubkey x) (pubkey b)) eqn:E; [|reflexivity].
    apply String.eqb_eq in E. apply filter_In in Hx. destruct Hx as [Hx Hp].
    apply String.eqb_eq in Hp.
    assert (x = b) by (eapply NoDup_map_inj; eauto). subst x. congruence.
Qed.

Lemma buffer_deliver_other k later p :
  (forall x, In x later -> Grpc.pubkey x <> k) ->
  JsMap.get k (buffer (deliver later p)) = JsMap.get k (buffer p).
Proof.
  revert p. induction later as [|x later IH]; intros p Hne; [reflexivity|].
  cbn [Processor.deliver fold_left]. fold (deliver later (addUpdate x p)).
  rewrite IH by (intros y Hy; apply Hne; now right).
  cbn [buffer Processor.addUpdate].
  apply JsMapFacts.get_set_other. apply Hne. now left.
Qed.

(** The buffer holds, for a pubkey, the last update delivered for it. *)
Lemma buffer_after_updates k before u later p :
  Grpc.pubkey u = k ->
  (forall x, In x later -> Grpc.pubkey x <> k) ->
  JsMap.get k (buffer (deliver (before ++ u :: later) p))
  = Some (buffered u).
Proof.
  intros Hk Hne. unfold Processor.deliver. rewrite fold_left_app.
  cbn [fold_left].
  set (q := fold_left _ before p).
  fold (deliver later (addUpdate u q)).
  rewrite buffer_deliver_other by assumption.
  cbn [buffer Processor.addUpdate]. subst k.
  apply JsMapFacts.get_set_same.
Qed.

Lemma isProcessing_deliver updates p :
  isProcessing (deliver updates p) = isProcessing p.
Proof.
  revert p. induction updates as [|x updates IH]; intros p; [reflexivity|].
  cbn [Processor.deliver fold_left]. fold (deliver updates (addUpdate x p)).
  now rewrite IH.
Qed.

(** A flush of updates that were delivered while no flush was awaiting
    the store.  Let [u] be the last of them for the pubkey [k], and let
    every lookup be answered.  The batch of the flush holds at most one
    state for [k], decided by [u] alone: none when the lookup answered
    no hash for [k] (or an empty one), none when the hash answered is
    the digest of the data of [u], and otherwise exactly one, which
    carries that digest and is a [delete] when [u] has zero lamports or
    empty data and an [update] when not. *)
Lemma last_update_decides_row :
  forall (store : Store) (p0 : ChangeProcessor)
         (before later : list Grpc.AccountUpdate) (u : Grpc.AccountUpdate)
         (k : string) (m : JsMap.t string),
    keyed_by_pubkey p0 ->
    isProcessing p0 = false ->
    Grpc.pubkey u = k ->
    (forall x, In x later -> Grpc.pubkey x <> k) ->
    lookups_answer store ->
    let p := deliver (before ++ u :: later) p0 in
    existing_hashes store p (Grpc.owner u) = Resolved m ->
    let rows := filter (for_pubkey k) (batch (processBuffer store p)) in
    (List.length rows <= 1)%nat /\
    (JsMap.get k m = None -> rows = []) /\
    (JsMap.get k m = Some "" -> rows = []) /\
    (JsMap.get k m = Some (sha256 (Grpc.data u)) -> rows = []) /\
    (forall stored,
        JsMap.get k m = Some stored ->
        stored <> "" ->
        stored <> sha256 (Grpc.data u) ->
        exists row,
          rows = [row] /\
          Db.pubkey row = k /\
          Db.program_id row = Grpc.owner u /\
          Db.data_hash row = sha256 (Grpc.data u) /\
          Db.change_type row =
            if (Grpc.lamports u =? 0)
               || (List.length (Grpc.data u) =? 0)%nat
            then Db.delete else Db.update).
Proof.
  intros store p0 before later u k m Hk0 Hip Hu Hlater Hans p Hm rows.
  assert (Hk : keyed_by_pubkey p) by now apply keyed_by_pubkey_deliver.
  assert (Hget : JsMap.get k (buffer p) = Some (buffered u))
    by now apply buffer_after_updates.
  assert (Hin : In (buffered u) (JsMap.values (buffer p))).
  { apply JsMapFacts.get_In in Hget.
    change (buffered u) with (snd (k, buffered u)). now apply in_map. }
  assert (Hrows : rows = changed_rows m (buffered u)).
  { subst rows. rewrite batch_answers
      by (try assumption; unfold p; now rewrite isProcessing_deliver).
    rewrite <- Hu.
    change (Grpc.pubkey u) with (pubkey (buffered u)).
    now apply rows_for_pubkey. }
  rewrite Hrows. unfold changed_rows.
  change (pubkey (buffered u)) with (Grpc.pubkey u). rewrite Hu.
  change (dataHash (buffered u)) with (sha256 (Grpc.data u)).
  destruct (JsMap.get k m) as [h|] eqn:Eh.
  - destruct (String.eqb h "") eqn:Ee.
    + apply String.eqb_eq in Ee. subst h. unfold Grpc.truthy.
      cbn [String.eqb negb].
      split; [cbn; lia|]. split; [intros H; discriminate H|].
      split; [reflexivity|]. split; [reflexivity|].
      intros stored H Hne. injection H as <-. now destruct Hne.
    + unfold Grpc.truthy. rewrite Ee. cbn [negb].
      apply String.eqb_neq in Ee.
      destruct (String.eqb h (sha256 (Grpc.data u))) eqn:Ed; cbn [negb].
      * apply String.eqb_eq in Ed. subst h.
        split; [cbn; lia|]. split; [intros H; discriminate H|].
        split; [reflexivity|]. split; [reflexivity|].
        intros stored H _ Hne. injection H as <-. now destruct Hne.
      * apply String.eqb_neq in Ed.
        split; [cbn; lia|]. split; [intros H; discriminate H|].
        split; [intros H; injection H as H; now destruct (Ee H)|].
        split; [intros H; injection H as H; now destruct (Ed H)|].
        intros stored H _ _. eexists. split; [reflexivity|].
        split; [exact Hu|]. repeat split.
  - split; [cbn; lia|]. split; [reflexivity|].
    split; [intros H; discriminate H|]. split; [intros H; discriminate H|].
    intros stored H. discriminate H.
Qed.

(** The states a flush pushes depend on the store through the answers
    of its lookups only. *)
Lemma process_groups_ext store store' todo states s s' st s1 :
  (forall program pubkeys,
      latest_hashes store' program pubkeys
      = latest_hashes store program pubkeys) ->
  process_groups store todo states s = (Resolved st, s1) ->
  exists s1', process_groups store' todo states s' = (Resolved st, s1').
Proof.
  intros Hext. revert states s s'.
  induction todo as [|[program ups] todo IH]; intros states s s';
    cbn [Processor.process_groups].
  - intros [= <- _]. now eexists.
  - rewrite Hext.
    destruct (Db.getLatestHashes _ program (map pubkey ups)) as [h|e];
      [|discriminate].
    pose proof (detect_fold h ups states s) as Hd.
    pose proof (detect_fold h ups states s') as Hd'.
    destruct (fold_left (detect h) ups (states, s)) as [st1 t1].
    destruct (fold_left (detect h) ups (states, s')) as [st1' t1'].
    cbn [fst] in Hd, Hd'. rewrite Hd', <- Hd. apply IH.
Qed.

(** A flush whose insert failed. *)
Lemma failed_insert_shape store p e :
  let f := processBuffer store p in
  batch f <> [] ->
  insert_error store (batch f) = Some e ->
  exists s,
    (JsMap.size (buffer p) =? 0)%nat = false /\
    process_groups store (groups_of p) [] (stats p)
      = (Resolved (batch f), s) /\
    f = {| outcome := Resolved tt;
           after := with_isProcessing false
                      (with_stats s (with_isProcessing true p));
           batch := batch f; stored := false |}.
Proof.
  cbv zeta. unfold Processor.processBuffer.
  destruct (isProcessing p || (JsMap.size (buffer p) =? 0)%nat) eqn:Eg;
    [intros H; now destruct H|].
  apply orb_false_iff in Eg. destruct Eg as [Hip Hsz].
  cbn [buffer with_isProcessing stats]. fold (groups_of p).
  destruct (process_groups store _ [] (stats p)) as [[states|e0] s] eqn:E;
    [|intros H; now destruct H].
  destruct states as [|r states]; [intros H; now destruct H|].
  cbn [List.length Nat.ltb Nat.leb Db.insertAccountStates].
  destruct (insert_error store (r :: states)) as [e1|] eqn:Ei.
  - intros _ _. exists s. split; [exact Hsz|]. split; reflexivity.
  - intros _ H. cbn [batch Processor.settle] in H. rewrite Ei in H.
    discriminate H.
Qed.

(** C3.  When the insert of the batch of a flush fails, the promise of
    the flush resolves all the same, the buffer is as it was before the
    flush and the flag is lowered; the next flush snapshots the same
    updates and, given the same answers to its lookups, hands the same
    batch to the insert. *)
Theorem failed_insert_keeps_buffer :
  forall (store : Store) (p : ChangeProcessor) (e : string),
    let f := processBuffer store p in
    batch f <> [] ->
    insert_error store (batch f) = Some e ->
    outcome f = Resolved tt /\
    stored f = false /\
    buffer (after f) = buffer p /\
    isProcessing (after f) = false /\
    forall store',
      (forall program pubkeys,
          latest_hashes store' program pubkeys
          = latest_hashes store program pubkeys) ->
      JsMap.values (buffer (after f)) = JsMap.values (buffer p) /\
      batch (processBuffer store' (after f)) = batch f.
Proof.
  intros store p e f Hne Herr.
  destruct (failed_insert_shape store p e Hne Herr) as (s & Hsz & E & Hf).
  fold f in E, Hf. destruct (batch f) as [|r states] eqn:Eb;
    [now destruct Hne|].
  rewrite Hf. cbn [outcome stored after buffer isProcessing
                   with_isProcessing with_stats].
  split; [reflexivity|]. split; [reflexivity|].
  split; [reflexivity|]. split; [reflexivity|].
  intros store' Hext. split; [reflexivity|].
  unfold Processor.processBuffer.
  cbn [buffer isProcessing stats with_isProcessing with_stats].
  rewrite Hsz. cbn [orb]. fold (groups_of p).
  destruct (process_groups_ext store store' _ [] (stats p) s _ _ Hext E)
    as [s1' E'].
  rewrite E'. cbn [List.length Nat.ltb Nat.leb Db.insertAccountStates].
  destruct (insert_error store' (r :: states)); reflexivity.
Qed.

(** *** A flush that no update interrupts

    Turn by turn, with the answers of the store and no other event in
    between, [processBuffer] does what [Processor.processBuffer] says. *)

Definition reply_of (store : Store) (g : string * list BufferedUpdate)
  : Event :=
  HashesReply (latest_hashes store (fst g) (map pubkey (snd g))).

(** The events of a flush of [p] on its own. *)
Definition flush_events (store : Store) (p : ChangeProcessor) : list Event :=
  Tick :: map (reply_of store) (groups_of p)
       ++ [InsertReply (insert_error store (batch (processBuffer store p)))].

Definition is_reply (e : Event) : Prop :=
  match e with
  | HashesReply _ | InsertReply _ => True
  | Update _ | Tick => False
  end.

Lemma run_replies_idle w events :
  task w = None -> Forall is_reply events -> run w events = w.
Proof.
  intros Ht Hall. induction Hall as [|e events He _ IH]; [reflexivity|].
  unfold Processor.run. cbn [fold_left].
  assert (Hs : step w e = w)
    by (destruct e; try destruct He; unfold Processor.step; now rewrite Ht).
  rewrite Hs. exact IH.
Qed.

Lemma replies_are_replies store todo error :
  Forall is_reply (map (reply_of store) todo ++ [InsertReply error]).
Proof.
  apply Forall_app. split.
  - apply Forall_forall. intros e He. apply in_map_iff in He.
    now destruct He as (g & <- & _).
  - now repeat constructor.
Qed.

Definition worker_of (pt : ChangeProcessor * option Task)
    (ins : list (list Db.AccountState)) : Worker :=
  {| processor := fst pt; task := snd pt; inserted := ins |}.

(** What the loop of a flush and its end leave, from the statistics and
    the states the loop ends with. *)
Definition flush_end (error : option string) (p : ChangeProcessor)
    (ins : list (list Db.AccountState))
    (r : Promise (list Db.AccountState) * Stats) : Worker :=
  match r with
  | (Rejected _, s) =>
      {| processor := with_isProcessing false (with_stats s p);
         task := None; inserted := ins |}
  | (Resolved states, s) =>
      if (0 <? List.length states)%nat then
        match error with
        | Some _ =>
            {| processor := with_isProcessing false (with_stats s p);
               task := None; inserted := ins |}
        | None =>
            {| processor :=
                 with_isProcessing false (clear_buffer (with_stats s p));
               task := None; inserted := ins ++ [states] |}
        end
      else
        {| processor :=
             with_isProcessing false (clear_buffer (with_stats s p));
           task := None; inserted := ins |}
  end.

Lemma run_cons w e events : run w (e :: events) = run (step w e) events.
Proof. reflexivity. Qed.

Lemma with_stats_same p : with_stats (stats p) p = p.
Proof. now destruct p. Qed.

Lemma flush_loop store error todo states p ins :
  run (worker_of (Processor.next_await todo states p) ins)
      (map (reply_of store) todo ++ [InsertReply error])
  = flush_end error p ins (process_groups store todo states (stats p)).
Proof.
  revert states p. induction todo as [|[program ups] todo IH];
    intros states p.
  - cbn [map app Processor.next_await Processor.process_groups flush_end].
    rewrite with_stats_same.
    destruct (0 <? List.length states)%nat eqn:El.
    + unfold Processor.run, worker_of.
      cbn [fold_left Processor.step task fst snd processor inserted].
      destruct states as [|r states]; [discriminate El|].
      unfold Processor.resume_insert. cbn [Db.insertAccountStates].
      destruct error; reflexivity.
    + reflexivity.
  - cbn [map app Processor.next_await Processor.process_groups].
    rewrite run_cons.
    unfold worker_of at 1, reply_of at 1.
    cbn [Processor.step task fst snd processor inserted].
    unfold Processor.resume_hashes.
    destruct (Db.getLatestHashes _ program (map pubkey ups)) as [m|e].
    + destruct (fold_left (detect m) ups (states, stats p)) as [st1 s1].
      specialize (IH st1 (with_stats s1 p)).
      unfold worker_of in IH.
      destruct (Processor.next_await todo st1 (with_stats s1 p))
        as [p1 t1] eqn:En.
      cbn [fst snd] in IH. rewrite IH. reflexivity.
    + cbn [snd Processor.settle flush_end].
      rewrite run_replies_idle;
        [rewrite with_stats_same; reflexivity | reflexivity
        | apply replies_are_replies].
Qed.

Lemma step_tick w :
  task w = None ->
  step w Tick
  = worker_of (Processor.processBuffer_call (processor w)) (inserted w).
Proof.
  intros Ht. unfold Processor.step, worker_of.
  destruct (Processor.processBuffer_call (processor w)) as [p [t|]];
    cbn [fst snd]; [reflexivity | now rewrite Ht].
Qed.

(** The flush of a worker with no flush under way. *)
Lemma flush_alone store w :
  task w = None ->
  let f := processBuffer store (processor w) in
  run w (flush_events store (processor w))
  = {| processor := after f; task := None;
       inserted := if stored f then inserted w ++ [batch f]
                   else inserted w |}.
Proof.
  intros Ht f. unfold flush_events. rewrite run_cons, step_tick by exact Ht.
  fold f.
  assert (Hf : f = processBuffer store (processor w)) by reflexivity.
  clearbody f. unfold Processor.processBuffer in Hf.
  unfold Processor.processBuffer_call.
  destruct (isProcessing (processor w)
            || (JsMap.size (buffer (processor w)) =? 0)%nat) eqn:Eg.
  - rewrite run_replies_idle;
      [| reflexivity | apply replies_are_replies].
    rewrite Hf. cbn [after stored]. unfold worker_of. cbn [fst snd].
    destruct w; cbn in *; now subst.
  - cbn [buffer with_isProcessing stats] in Hf |- *.
    fold (groups_of (processor w)) in Hf |- *.
    rewrite flush_loop.
    cbn [stats with_isProcessing].
    destruct (process_groups store (groups_of (processor w)) []
                (stats (processor w))) as [[states|e] s]; cbn [flush_end].
    + destruct states as [|r states].
      * cbn [List.length Nat.ltb Nat.leb] in Hf |- *. now rewrite Hf.
      * cbn [List.length Nat.ltb Nat.leb Db.insertAccountStates] in Hf |- *.
        destruct (insert_error store (r :: states)) as [e1|] eqn:Ei;
          rewrite Hf; cbn [batch Processor.settle after stored];
          rewrite Ei; reflexivity.
    + now rewrite Hf.
Qed.

(** *** An update that arrives while a flush awaits the store *)

(** The answer of the lookup: the one pubkey has the stored hash [h]. *)
Definition one_hash (k h : string) : Db.Reply (list Db.HashRow) :=
  {| Db.reply_data := Some [{| Db.row_pubkey := k; Db.row_data_hash := h |}];
     Db.reply_error := None |}.

Lemma step_insert_stored w states :
  task w = Some (AwaitInsert states) ->
  states <> [] ->
  step w (InsertReply None)
  = {| processor := with_isProcessing false (clear_buffer (processor w));
       task := None; inserted := inserted w ++ [states] |}.
Proof.
  intros Ht Hne. unfold Processor.step. rewrite Ht.
  destruct states; [now destruct Hne | reflexivity].
Qed.

Lemma step_tick_idle w :
  buffer (processor w) = [] -> step w Tick = w.
Proof.
  intros Hb. unfold Processor.step, Processor.processBuffer_call.
  rewrite Hb. cbn [JsMap.size List.length Nat.eqb]. rewrite orb_true_r.
  now destruct w.
Qed.

(** C2, as the code has it.  An update [uA] is buffered and the timer
    starts a flush; an update [uB] of another pubkey arrives while the
    flush awaits the hashes.  The flush goes on with its snapshot, which
    holds [uA] only, and when the insert has succeeded it clears the
    whole buffer: [uB] is in the buffer until then, is in no batch the
    store took, and is gone afterwards, so that the next tick of the
    timer finds nothing to flush. *)
Theorem update_during_flush_is_lost :
  forall (uA uB : Grpc.AccountUpdate) (h : string),
    Grpc.pubkey uA <> Grpc.pubkey uB ->
    h <> "" ->
    h <> sha256 (Grpc.data uA) ->
    let w1 := run new_worker [Update uA; Tick] in
    let w2 := run w1 [Update uB; HashesReply (one_hash (Grpc.pubkey uA) h)] in
    let w3 := run w2 [InsertReply None] in
    task w2 = Some (AwaitInsert [state_of (buffered uA)]) /\
    JsMap.get (Grpc.pubkey uB) (buffer (processor w2)) = Some (buffered uB) /\
    inserted w3 = [[state_of (buffered uA)]] /\
    buffer (processor w3) = [] /\
    task w3 = None /\
    run w3 [Tick] = w3.
Proof.
  intros uA uB h Hne Hh Hd w1 w2 w3.
  assert (EAB : String.eqb (Grpc.pubkey uB) (Grpc.pubkey uA) = false)
    by (apply String.eqb_neq; congruence).
  assert (Eh : String.eqb h "" = false) by now apply String.eqb_neq.
  assert (Ed : String.eqb h (sha256 (Grpc.data uA)) = false)
    by now apply String.eqb_neq.
  assert (H2 : task w2 = Some (AwaitInsert [state_of (buffered uA)]) /\
               buffer (processor w2)
               = [(Grpc.pubkey uA, buffered uA);
                  (Grpc.pubkey uB, buffered uB)] /\
               inserted w2 = []).
  { subst w2 w1. unfold Processor.run.
    cbn [fold_left Processor.step Processor.addUpdate processor task inserted
         new_worker new_processor buffer JsMap.set JsMap.empty
         Processor.processBuffer_call isProcessing orb JsMap.size
         List.length Nat.eqb with_isProcessing JsMap.values map snd
         Processor.group_by_program Processor.group_step JsMap.get
         Processor.buffered programId app JsMap.entries
         Processor.next_await processInterval stats].
    unfold Processor.resume_hashes.
    cbn [map pubkey Processor.buffered
         Db.getLatestHashes one_hash Db.reply_error Db.reply_data
         Db.hash_map fold_left JsMap.set JsMap.empty Db.row_pubkey
         Db.row_data_hash Processor.detect JsMap.get stats].
    rewrite String.eqb_refl. unfold Grpc.truthy. rewrite Eh.
    cbn [negb dataHash Processor.buffered]. rewrite Ed.
    cbn [negb app Processor.next_await List.length Nat.ltb Nat.leb
         with_stats buffer processInterval isProcessing processor task
         inserted Processor.addUpdate with_isProcessing JsMap.set].
    cbn [buffer new_processor JsMap.set JsMap.empty]. rewrite EAB.
    repeat split. }
  destruct H2 as (Ht2 & Hb2 & Hi2).
  assert (H3 : w3 = {| processor := with_isProcessing false
                                      (clear_buffer (processor w2));
                       task := None;
                       inserted := [[state_of (buffered uA)]] |}).
  { subst w3. unfold Processor.run. cbn [fold_left].
    rewrite (step_insert_stored w2 _ Ht2) by discriminate.
    now rewrite Hi2. }
  split; [exact Ht2|]. split.
  - rewrite Hb2. cbn [JsMap.get]. now rewrite EAB, String.eqb_refl.
  - rewrite H3. cbn [inserted processor task buffer with_isProcessing
                     clear_buffer with_buffer JsMap.clear].
    repeat split.
Qed.

(** *** Updates that arrive while a flush awaits the store, and the next
    flush *)

(** The lookup found no row. *)
Definition no_rows : Db.Reply (list Db.HashRow) :=
  {| Db.reply_data := Some []; Db.reply_error := None |}.

Lemma run_updates updates w :
  run w (map Update updates)
  = {| processor := deliver updates (processor w); task := task w;
       inserted := inserted w |}.
Proof.
  revert w. induction updates as [|u updates IH]; intros w;
    [now destruct w|].
  cbn [map]. rewrite run_cons, IH. reflexivity.
Qed.

Lemma flush_of_nothing store p :
  buffer p = [] -> batch (processBuffer store p) = [].
Proof.
  intros Hb. unfold Processor.processBuffer. rewrite Hb.
  cbn [JsMap.size List.length Nat.eqb]. now rewrite orb_true_r.
Qed.

(** C5, as the code has it.  An update [uX] is buffered and the timer
    starts a flush.  While the flush awaits the hashes, updates arrive
    of which [u] is the last; they are buffered, and [u] is the entry of
    its pubkey.  The lookup finds no row for [uX]; the flush has nothing
    to insert and clears the whole buffer.  The next flush finds nothing
    and hands no row to the insert, whatever hash the store holds for
    the pubkey of [u]; the same updates delivered while no flush was
    awaiting give exactly one row for that pubkey when the store holds
    another hash for it. *)
Theorem updates_during_flush_yield_no_row :
  forall (uX : Grpc.AccountUpdate) (earlier : list Grpc.AccountUpdate)
         (u : Grpc.AccountUpdate) (store : Store),
    let during := earlier ++ [u] in
    let w1 := run new_worker [Update uX; Tick] in
    let w2 := run w1 (map Update during) in
    let w3 := run w2 [HashesReply no_rows] in
    let alone := deliver during new_processor in
    task w1 <> None /\
    JsMap.get (Grpc.pubkey u) (buffer (processor w2)) = Some (buffered u) /\
    task w3 = None /\
    buffer (processor w3) = [] /\
    inserted w3 = [] /\
    batch (processBuffer store (processor w3)) = [] /\
    run w3 [Tick] = w3 /\
    (lookups_answer store ->
     forall m h,
       existing_hashes store alone (Grpc.owner u) = Resolved m ->
       JsMap.get (Grpc.pubkey u) m = Some h ->
       h <> "" ->
       h <> sha256 (Grpc.data u) ->
       exists row,
         filter (for_pubkey (Grpc.pubkey u))
                (batch (processBuffer store alone)) = [row] /\
         Db.data_hash row = sha256 (Grpc.data u)).
Proof.
  intros uX earlier u store during w1 w2 w3 alone.
  assert (H1 : w1 = {| processor :=
                         with_isProcessing true (addUpdate uX new_processor);
                       task := Some (AwaitHashes (Grpc.owner uX)
                                       [buffered uX] [] []);
                       inserted := [] |}) by reflexivity.
  assert (H2 : w2 = {| processor := deliver during (processor w1);
                       task := task w1; inserted := inserted w1 |})
    by apply run_updates.
  assert (H3 : w3 = {| processor :=
                         with_isProcessing false
                           (clear_buffer
                              (with_stats (stats (processor w2))
                                          (processor w2)));
                       task := None; inserted := [] |}).
  { subst w3. unfold Processor.run. cbn [fold_left]. rewrite H2, H1.
    reflexivity. }
  assert (Hb3 : buffer (processor w3) = []) by (rewrite H3; reflexivity).
  split; [rewrite H1; discriminate|]. split.
  { rewrite H2. cbn [processor]. subst during.
    now apply buffer_after_updates. }
  split; [rewrite H3; reflexivity|]. split; [exact Hb3|].
  split; [rewrite H3; reflexivity|].
  split; [now apply flush_of_nothing|].
  split; [unfold Processor.run; cbn [fold_left]; now apply step_tick_idle|].
  intros Hans m h Hm Hget Hh Hd.
  destruct (last_update_decides_row store new_processor earlier [] u
              (Grpc.pubkey u) m keyed_by_pubkey_new eq_refl eq_refl
              (fun x (H : In x []) => match H with end) Hans Hm)
    as (_ & _ & _ & _ & Hrow).
  destruct (Hrow h Hget Hh Hd) as (row & Hr & _ & _ & Hhash & _).
  exists row. split; [exact Hr | exact Hhash].
Qed.

End Facts.

End ProcessorFacts.

(** ** The facts above on a sample run

    A digest and a base-64 text stand in for those of the runtime: the
    hexadecimal text of the data serves for both. *)

Module ProcessorSamples.
Import Processor ProcessorFacts.

Definition sample_digest (d : list byte) : string := hex d.

Definition accountA (d : list byte) : Grpc.AccountUpdate :=
  {| Grpc.pubkey := "A"; Grpc.owner := "P"; Grpc.lamports := 5;
     Grpc.slot := 10; Grpc.data := d; Grpc.executable := false;
     Grpc.rentEpoch := 0 |}.

Definition accountB : Grpc.AccountUpdate :=
  {| Grpc.pubkey := "B"; Grpc.owner := "P"; Grpc.lamports := 7;
     Grpc.slot := 11; Grpc.data := [x09]; Grpc.executable := false;
     Grpc.rentEpoch := 0 |}.

(** A store that knows the hash "h0" for the pubkey "A" and nothing
    else, and whose insert answers [error]. *)
Definition sample_store (error : option string) : Store :=
  {| latest_hashes := fun _ _ => one_hash "A" "h0";
     insert_error := fun _ => error |}.

(** A store that knows no hash. *)
Definition empty_store : Store :=
  {| latest_hashes := fun _ _ =>
       {| Db.reply_data := Some []; Db.reply_error := None |};
     insert_error := fun _ => None |}.

Lemma failed_insert_keeps_buffer_witness :
  let p := deliver sample_digest [accountA [x01]] new_processor in
  let store := sample_store (Some "down") in
  let f := processBuffer sample_digest store p in
  batch f <> [] /\
  outcome f = Resolved tt /\
  buffer (after f) = buffer p /\
  batch (processBuffer sample_digest (sample_store None) (after f)) = batch f.
Proof.
  intros p store f.
  assert (Hne : batch f <> []) by (vm_compute; discriminate).
  assert (Herr : insert_error store (batch f) = Some "down") by reflexivity.
  destruct (failed_insert_keeps_buffer sample_digest
              store p "down" Hne Herr) as (Ho & _ & Hb & _ & Hnext).
  split; [exact Hne|]. split; [exact Ho|]. split; [exact Hb|].
  apply (Hnext (sample_store None)). reflexivity.
Defined.

Lemma no_baseline_no_row_witness :
  let p := deliver sample_digest [accountA [x01]; accountA [x02]]
                   new_processor in
  Forall (fun row => Db.pubkey row <> "A")
         (batch (processBuffer sample_digest empty_store p)).
Proof.
  intros p. apply Forall_forall.
  destruct (no_baseline_no_row sample_digest sample_digest empty_store
              new_processor [accountA [x01]; accountA [x02]]
              keyed_by_pubkey_new) as [H _].
  apply (H (buffered sample_digest (accountA [x02])) JsMap.empty).
  - left. reflexivity.
  - reflexivity.
  - reflexivity.
Defined.

Lemma last_update_decides_row_witness :
  let p := deliver sample_digest
             [accountA [x01]; accountA [x02]; accountB] new_processor in
  let rows := filter (for_pubkey "A")
                (batch (processBuffer sample_digest (sample_store None) p)) in
  exists row,
    rows = [row] /\ Db.data_hash row = sample_digest [x02] /\
    Db.change_type row = Db.update.
Proof.
  intros p rows.
  assert (Hlater : forall x, In x [accountB] -> Grpc.pubkey x <> "A")
    by (intros x [<-|[]]; discriminate).
  assert (Hans : lookups_answer (sample_store None)) by (intros ? ?; reflexivity).
  destruct (last_update_decides_row sample_digest sample_digest
              (sample_store None) new_processor [accountA [x01]] [accountB]
              (accountA [x02]) "A" [("A", "h0")]
              keyed_by_pubkey_new eq_refl eq_refl Hlater Hans eq_refl)
    as (_ & _ & _ & _ & H).
  destruct (H "h0" eq_refl) as (row & Hrows & _ & _ & Hhash & Htype);
    [discriminate | vm_compute; discriminate |].
  exists row. split; [exact Hrows|]. split; [exact Hhash | exact Htype].
Defined.

Lemma update_during_flush_is_lost_witness :
  let w := run sample_digest sample_digest new_worker
             [Update (accountA [x01]); Tick; Update accountB;
              HashesReply (one_hash "A" "h0"); InsertReply None] in
  inserted w = [[state_of sample_digest (buffered sample_digest (accountA [x01]))]] /\
  buffer (processor w) = [].
Proof.
  assert (H1 : Grpc.pubkey (accountA [x01]) <> Grpc.pubkey accountB)
    by discriminate.
  assert (H2 : "h0" <> "") by discriminate.
  assert (H3 : "h0" <> sample_digest (Grpc.data (accountA [x01])))
    by (vm_compute; discriminate).
  destruct (update_during_flush_is_lost sample_digest sample_digest
              (accountA [x01]) accountB "h0" H1 H2 H3)
    as (_ & _ & Hi & Hb & _).
  split; [exact Hi | exact Hb].
Defined.

Lemma updates_during_flush_yield_no_row_witness :
  let w := run sample_digest sample_digest new_worker
             [Update accountB; Tick; Update (accountA [x01]);
              Update (accountA [x02]); HashesReply no_rows] in
  let alone := deliver sample_digest [accountA [x01]; accountA [x02]]
                       new_processor in
  buffer (processor w) = [] /\
  batch (processBuffer sample_digest (sample_store None) (processor w))
  = [] /\
  exists row,
    filter (for_pubkey "A")
           (batch (processBuffer sample_digest (sample_store None) alone))
    = [row] /\
    Db.data_hash row = sample_digest [x02].
Proof.
  intros w alone.
  destruct (updates_during_flush_yield_no_row sample_digest sample_digest
              accountB [accountA [x01]] (accountA [x02])
              (sample_store None))
    as (_ & _ & _ & Hb & _ & Hn & _ & Hone).
  split; [exact Hb|]. split; [exact Hn|].
  apply (Hone (fun _ _ => eq_refl)
              (Db.hash_map [{| Db.row_pubkey := "A";
                               Db.row_data_hash := "h0" |}]) "h0").
  - reflexivity.
  - reflexivity.
  - discriminate.
  - vm_compute. discriminate.
Defined.

End ProcessorSamples.

(** * Facts about the cleanup job *)

Module CleanupFacts.
Import Cleanup.

(** *** The order of the select *)

Lemma insert_desc_perm t l : Permutation (t :: l) (insert_desc t l).
Proof.
  induction l as [|x l IH]; cbn [insert_desc]; [reflexivity|].
  destruct (x <=? t); [reflexivity|].
  rewrite perm_swap. now apply perm_skip.
Qed.

Lemma order_desc_perm l : Permutation l (order_desc l).
Proof.
  induction l as [|x l IH]; cbn [order_desc fold_right]; [reflexivity|].
  fold (order_desc l). rewrite <- insert_desc_perm. now apply perm_skip.
Qed.

Lemma order_desc_length l : List.length (order_desc l) = List.length l.
Proof. symmetry. apply Permutation_length, order_desc_perm. Qed.

(** Newest first: each timestamp is at least those after it. *)
Definition newest_first (l : list Z) : Prop := StronglySorted Z.ge l.

Lemma insert_desc_sorted t l :
  newest_first l -> newest_first (insert_desc t l).
Proof.
  unfold newest_first. induction l as [|x l IH]; intros Hs;
    cbn [insert_desc].
  - repeat constructor.
  - inversion Hs as [|? ? Hs' Hall]; subst.
    destruct (x <=? t) eqn:E.
    + apply Z.leb_le in E. constructor; [assumption|].
      constructor; [lia|]. eapply Forall_impl; [|exact Hall].
      intros y Hy. cbv beta in Hy. lia.
    + apply Z.leb_gt in E. constructor; [now apply IH|].
      eapply Permutation_Forall; [apply insert_desc_perm|].
      constructor; [lia | assumption].
Qed.

Lemma order_desc_sorted l : newest_first (order_desc l).
Proof.
  induction l as [|x l IH]; cbn [order_desc fold_right]; [constructor|].
  now apply insert_desc_sorted.
Qed.

(** *** The cutoff in a list that is newest first *)

Definition older (cutoff t : Z) : bool := t <? cutoff.

Lemma filter_all {A} (f : A -> bool) l :
  Forall (fun x => f x = true) l -> filter f l = l.
Proof.
  induction 1 as [|x l Hx _ IH]; [reflexivity|].
  cbn [filter]. now rewrite Hx, IH.
Qed.

Lemma filter_none {A} (f : A -> bool) l :
  Forall (fun x => f x = false) l -> filter f l = [].
Proof.
  induction 1 as [|x l Hx _ IH]; [reflexivity|].
  cbn [filter]. now rewrite Hx, IH.
Qed.

(** The timestamps older than the [k]-th newest are beyond the first [k]
    at least; with no timestamp twice they are those beyond exactly. *)
Lemma older_beyond l k cutoff :
  newest_first l -> NoDup l ->
  nth_error l k = Some cutoff ->
  filter (older cutoff) l = skipn (S k) l.
Proof.
  unfold newest_first. revert k.
  induction l as [|x l IH]; intros k Hs Hnd Hnth; [now destruct k|].
  inversion Hs as [|? ? Hs' Hall]; subst.
  inversion Hnd as [|? ? Hnotin Hnd']; subst.
  destruct k as [|k]; cbn [nth_error] in Hnth.
  - injection Hnth as ->. cbn [filter skipn]. unfold older at 1.
    rewrite Z.ltb_irrefl. apply filter_all.
    apply Forall_forall. intros y Hy. unfold older. apply Z.ltb_lt.
    rewrite Forall_forall in Hall. specialize (Hall y Hy).
    assert (y <> cutoff) by (intros ->; contradiction). lia.
  - cbn [filter]. unfold older at 1.
    assert (Hx : (x <? cutoff) = false).
    { apply Z.ltb_ge. rewrite Forall_forall in Hall.
      apply nth_error_In in Hnth. specialize (Hall cutoff Hnth). lia. }
    rewrite Hx. now apply IH.
Qed.

Lemma kept_first l k cutoff :
  newest_first l -> NoDup l ->
  nth_error l k = Some cutoff ->
  filter (fun t => negb (older cutoff t)) l = firstn (S k) l.
Proof.
  unfold newest_first. revert k.
  induction l as [|x l IH]; intros k Hs Hnd Hnth; [now destruct k|].
  inversion Hs as [|? ? Hs' Hall]; subst.
  inversion Hnd as [|? ? Hnotin Hnd']; subst.
  destruct k as [|k]; cbn [nth_error] in Hnth.
  - injection Hnth as ->. cbn [filter firstn]. unfold older at 1.
    rewrite Z.ltb_irrefl. cbn [negb]. f_equal. apply filter_none.
    apply Forall_forall. intros y Hy. unfold older.
    apply negb_false_iff, Z.ltb_lt.
    rewrite Forall_forall in Hall. specialize (Hall y Hy).
    assert (y <> cutoff) by (intros ->; contradiction). lia.
  - cbn [filter firstn]. unfold older at 1.
    assert (Hx : (x <? cutoff) = false).
    { apply Z.ltb_ge. rewrite Forall_forall in Hall.
      apply nth_error_In in Hnth. specialize (Hall cutoff Hnth). lia. }
    rewrite Hx. cbn [negb]. f_equal. now apply IH.
Qed.

Lemma filter_perm {A} (f : A -> bool) l l' :
  Permutation l l' -> Permutation (filter f l) (filter f l').
Proof.
  induction 1 as [|x l l' _ IH|x y l|l l' l'' _ IH1 _ IH2];
    cbn [filter].
  - reflexivity.
  - destruct (f x); [now apply perm_skip | assumption].
  - destruct (f x), (f y); try reflexivity. apply perm_swap.
  - now transitivity (filter f l').
Qed.

(** *** The statements on the table *)

Lemma older_than_rows programId pubkey0 cutoff table :
  map created_at (filter (older_than programId pubkey0 cutoff) table)
  = filter (older cutoff) (timestamps_of table programId pubkey0).
Proof.
  unfold timestamps_of, rows_of, older_than, older.
  induction table as [|r table IH]; [reflexivity|].
  cbn [filter]. destruct (of_account programId pubkey0 r); cbn [andb];
    [|exact IH].
  cbn [map filter]. destruct (created_at r <? cutoff); cbn [map];
    now rewrite IH.
Qed.

Lemma kept_rows programId pubkey0 cutoff table :
  timestamps_of
    (filter (fun r => negb (older_than programId pubkey0 cutoff r)) table)
    programId pubkey0
  = filter (fun t => negb (older cutoff t))
           (timestamps_of table programId pubkey0).
Proof.
  unfold timestamps_of, rows_of, older_than, older.
  induction table as [|r table IH]; [reflexivity|].
  cbn [filter]. destruct (of_account programId pubkey0 r) eqn:Ea;
    cbn [andb negb map filter].
  - destruct (created_at r <? cutoff); cbn [negb filter map];
      rewrite ?Ea; cbn [map]; now rewrite IH.
  - rewrite Ea. exact IH.
Qed.

Lemma other_rows_kept programId pubkey0 cutoff table r :
  In r table -> of_account programId pubkey0 r = false ->
  In r (filter (fun r => negb (older_than programId pubkey0 cutoff r)) table).
Proof.
  intros Hin Ha. apply filter_In. split; [assumption|].
  unfold older_than. now rewrite Ha.
Qed.

(** The last of the timestamps the select answers. *)
Lemma last_of_keep (l : list Z) k :
  (1 <= k <= List.length l)%nat ->
  nth_error (firstn k l) (List.length (firstn k l) - 1)
  = nth_error l (k - 1).
Proof.
  intros Hk. rewrite length_firstn, Nat.min_l by lia.
  rewrite nth_error_firstn.
  destruct (k - 1 <? k)%nat eqn:E; [reflexivity|].
  apply Nat.ltb_ge in E. lia.
Qed.

Lemma timestamps_length table programId pubkey0 :
  List.length (order_desc (timestamps_of table programId pubkey0))
  = List.length (rows_of table programId pubkey0).
Proof.
  rewrite order_desc_length. unfold timestamps_of. apply length_map.
Qed.

(** C9.  Let [max_changes] be at least 1.  For an account with fewer
    rows than [max_changes], [pruneAccountChanges] issues no delete and
    leaves the table as it is, whatever the database answers.  For an
    account with at least [max_changes] rows whose select is answered, it
    issues exactly one delete, of the rows of the account whose
    [created_at] is below the [max_changes]-th newest timestamp; when the
    delete is answered, the rows of other accounts are kept, and when no
    two rows of the account have the same timestamp the delete removes
    all rows of the account but [max_changes] and keeps the
    [max_changes] newest. *)
Theorem prune_keeps_newest :
  forall (max_changes : nat) (table : Table) (programId pubkey0 : string),
    (1 <= max_changes)%nat ->
    let n := List.length (rows_of table programId pubkey0) in
    let newest := order_desc (timestamps_of table programId pubkey0) in
    ((n < max_changes)%nat ->
     forall select_error delete_err,
       let r := pruneAccountChanges select_error delete_err max_changes
                                    table programId pubkey0 in
       deletes r = [] /\ table_after r = table /\ result r = Resolved 0) /\
    ((max_changes <= n)%nat ->
     exists cutoff,
       nth_error newest (max_changes - 1) = Some cutoff /\
       forall delete_err,
         let r := pruneAccountChanges None delete_err max_changes
                                      table programId pubkey0 in
         deletes r = [{| stmt_program_id := programId;
                         stmt_pubkey := pubkey0;
                         stmt_cutoff := cutoff |}] /\
         (delete_err = None ->
          table_after r
          = filter (fun row => negb (older_than programId pubkey0 cutoff row))
                   table /\
          result r
          = Resolved
              (Z.of_nat
                 (List.length
                    (filter (older_than programId pubkey0 cutoff) table))) /\
          (forall row,
              In row table ->
              of_account programId pubkey0 row = false ->
              In row (table_after r)) /\
          (NoDup (timestamps_of table programId pubkey0) ->
           List.length (filter (older_than programId pubkey0 cutoff) table)
           = (n - max_changes)%nat /\
           Permutation (timestamps_of (table_after r) programId pubkey0)
                       (firstn max_changes newest)))).
Proof.
  intros max_changes table programId pubkey0 HK n newest.
  pose proof (timestamps_length table programId pubkey0) as Hlen.
  fold newest in Hlen. fold n in Hlen.
  split.
  - intros Hlt select_error delete_err r. subst r.
    unfold pruneAccountChanges, select_created_at.
    destruct select_error as [e|]; cbn [Db.reply_error Db.reply_data];
      [repeat split|].
    fold (rows_of table programId pubkey0).
    fold (timestamps_of table programId pubkey0). fold newest.
    rewrite length_firstn, Hlen, Nat.min_r by lia.
    assert (E : (n <? max_changes)%nat = true) by (apply Nat.ltb_lt; lia).
    rewrite E. repeat split.
  - intros Hge.
    destruct (nth_error newest (max_changes - 1)) as [cutoff|] eqn:Ec;
      [|apply nth_error_None in Ec; lia].
    exists cutoff. split; [reflexivity|].
    intros delete_err r.
    assert (Hr : r =
      let stmt := {| stmt_program_id := programId; stmt_pubkey := pubkey0;
                     stmt_cutoff := cutoff |} in
      match delete_err with
      | Some _ => {| result := Resolved 0; table_after := table;
                     deletes := [stmt] |}
      | None =>
          {| result :=
               Resolved
                 (let c := Z.of_nat
                             (List.length
                                (filter (older_than programId pubkey0 cutoff)
                                        table)) in
                  if c =? 0 then 0 else c);
             table_after :=
               filter (fun row =>
                         negb (older_than programId pubkey0 cutoff row))
                      table;
             deletes := [stmt] |}
      end).
    { subst r. unfold pruneAccountChanges, select_created_at.
      cbn [Db.reply_error Db.reply_data].
      fold (rows_of table programId pubkey0).
      fold (timestamps_of table programId pubkey0). fold newest.
      rewrite last_of_keep by lia.
      rewrite length_firstn, Hlen, Nat.min_l by lia.
      rewrite Nat.ltb_irrefl, Ec. unfold delete_older.
      destruct delete_err; reflexivity. }
    clearbody r. subst r. cbv zeta.
    split; [now destruct delete_err|].
    intros ->. cbn [table_after result].
    split; [reflexivity|]. split.
    { f_equal. destruct (Z.of_nat _ =? 0) eqn:E0; [|reflexivity].
      apply Z.eqb_eq in E0. now rewrite E0. }
    split; [intros row Hin Ha; now apply other_rows_kept|].
    intros Hnd.
    assert (Hnd' : NoDup newest)
      by (eapply Permutation_NoDup; [apply order_desc_perm | exact Hnd]).
    assert (Hs : newest_first newest) by apply order_desc_sorted.
    assert (HK' : S (max_changes - 1) = max_changes) by lia.
    split.
    + rewrite <- (length_map created_at), older_than_rows.
      rewrite (Permutation_length
                 (filter_perm (older cutoff) _ _
                    (order_desc_perm (timestamps_of table programId pubkey0)))).
      fold newest. rewrite (older_beyond newest _ cutoff Hs Hnd' Ec), HK'.
      rewrite length_skipn. lia.
    + rewrite kept_rows.
      rewrite (filter_perm (fun t => negb (older cutoff t)) _ _
                 (order_desc_perm (timestamps_of table programId pubkey0))).
      fold newest. rewrite (kept_first newest _ cutoff Hs Hnd' Ec), HK'.
      reflexivity.
Qed.

(** Fifteen rows of one account, stored at the times 1 to 15, among the
    rows of another account. *)
Definition fifteen_rows : Table :=
  map (fun t => {| program_id := "P"; pubkey := "A"; created_at := t;
                   data_hash := "h" |})
      [3; 1; 4; 15; 9; 2; 6; 5; 13; 8; 7; 12; 11; 10; 14]
  ++ [{| program_id := "P"; pubkey := "B"; created_at := 1;
         data_hash := "h" |}].

Lemma prune_keeps_newest_witness :
  let r := pruneAccountChanges None None 10 fifteen_rows "P" "A" in
  result r = Resolved 5 /\
  Permutation (timestamps_of (table_after r) "P" "A")
              [15; 14; 13; 12; 11; 10; 9; 8; 7; 6].
Proof.
  intros r.
  assert (HK : (1 <= 10)%nat) by lia.
  destruct (prune_keeps_newest 10 fifteen_rows "P" "A" HK) as [_ H].
  destruct H as (cutoff & Hc & H); [vm_compute; lia|].
  destruct (H None) as (_ & H'). destruct (H' eq_refl) as (_ & _ & _ & Hd).
  assert (Hnd : NoDup (timestamps_of fifteen_rows "P" "A")).
  { vm_compute. repeat constructor; cbn; intuition discriminate. }
  destruct (Hd Hnd) as (_ & Hp).
  split; [reflexivity | exact Hp].
Defined.

End CleanupFacts.

(** * More facts about the address codec *)

Module AddressCodecMore.
Import AddressCodec AddressCodecFacts.

Lemma append_length (s1 s2 : string) :
  String.length (s1 ++ s2)%string
  = (String.length s1 + String.length s2)%nat.
Proof.
  induction s1 as [|c s1 IH]; [reflexivity|].
  cbn [String.append String.length]. now rewrite IH.
Qed.

Lemma ones_length n : String.length (ones n) = n.
Proof. induction n as [|n IH]; [reflexivity | cbn; now rewrite IH]. Qed.

Lemma ones_injective n m : ones n = ones m -> n = m.
Proof.
  intros H. apply (f_equal String.length) in H.
  now rewrite !ones_length in H.
Qed.

Lemma fromBase58_ones n : fromBase58 (ones n) = Some (repeat x00 n).
Proof.
  unfold fromBase58. rewrite split_leader_all_ones.
  cbn [digits_value String.length value_bytes]. now rewrite app_nil_r.
Qed.

(** What the decoder gives for the text of any bytes. *)
Lemma fromBase58_toBase58 bytes :
  fromBase58 (toBase58 bytes)
  = Some (match strip_zeros bytes with
          | [] => x00 :: bytes
          | _ :: _ => bytes
          end).
Proof.
  destruct (strip_zeros bytes) as [|b rest] eqn:E.
  - pose proof (zeros_and_rest bytes) as Hz. rewrite E, app_nil_r in Hz.
    rewrite Hz at 1. rewrite toBase58_zeros, fromBase58_ones.
    cbn [repeat]. now rewrite <- Hz.
  - apply base58_roundtrip_nonzero. rewrite E. discriminate.
Qed.

(** The text decides the bytes. *)
Lemma toBase58_eq x y : toBase58 x = toBase58 y -> x = y.
Proof.
  intros Heq.
  pose proof (fromBase58_toBase58 x) as Hx.
  pose proof (fromBase58_toBase58 y) as Hy.
  rewrite Heq, Hy in Hx. injection Hx as Hx.
  destruct (strip_zeros x) as [|bx rx] eqn:Ex,
           (strip_zeros y) as [|by' ry] eqn:Ey.
  - now injection Hx.
  - exfalso. rewrite Hx in Ey. cbn [strip_zeros] in Ey.
    change (byte_value x00 =? 0) with true in Ey. cbv iota in Ey.
    rewrite Ex in Ey. discriminate Ey.
  - exfalso. rewrite <- Hx in Ex. cbn [strip_zeros] in Ex.
    change (byte_value x00 =? 0) with true in Ex. cbv iota in Ex.
    rewrite Ey in Ex. discriminate Ex.
  - now symmetry.
Qed.

(** X1.  [toBase58] gives different texts to different byte strings,
    whatever their lengths. *)
Theorem toBase58_injective :
  forall x y : list byte, x <> y -> toBase58 x <> toBase58 y.
Proof.
  intros x y Hne Heq. apply Hne. now apply toBase58_eq.
Qed.

Lemma toBase58_injective_witness :
  toBase58 [x00] <> toBase58 [x00; x00].
Proof.
  apply toBase58_injective. discriminate.
Defined.

(** *** The text of an address *)

Lemma bytes_number_upper v bytes :
  0 <= v ->
  bytes_number v bytes < (v + 1) * 256 ^ Z.of_nat (List.length bytes).
Proof.
  revert v. induction bytes as [|b bytes IH]; intros v Hv.
  - cbn. lia.
  - cbn [bytes_number fold_left List.length].
    pose proof (byte_value_range b) as Hb.
    fold (bytes_number (v * 256 + byte_value b) bytes).
    assert (Hv' : 0 <= v * 256 + byte_value b) by lia.
    specialize (IH _ Hv').
    rewrite Nat2Z.inj_succ, Z.pow_succ_r by lia.
    assert (0 < 256 ^ Z.of_nat (List.length bytes))
      by (apply Z.pow_pos_nonneg; lia).
    nia.
Qed.

(** [m] bytes fit in [m + 12] base-58 digits, for [m] up to 32. *)
Lemma bytes_fit_table :
  forallb (fun m => 256 ^ Z.of_nat m <=? 58 ^ (Z.of_nat m + 12)) (seq 0 33)
  = true.
Proof. vm_compute. reflexivity. Qed.

Lemma bytes_fit m :
  (m <= 32)%nat -> 256 ^ Z.of_nat m <= 58 ^ (Z.of_nat m + 12).
Proof.
  intros Hm. apply Z.leb_le.
  apply (proj1 (forallb_forall _ _) bytes_fit_table m).
  apply in_seq. lia.
Qed.

Lemma index_in_includes c alphabet d :
  index_in c alphabet = Some d -> Validation.includes alphabet c = true.
Proof.
  revert d. induction alphabet as [|a rest IH]; intros d; cbn [index_in];
    [discriminate|].
  cbn [Validation.includes]. rewrite (Ascii.eqb_sym a c).
  destruct (Ascii.eqb c a); [reflexivity|].
  destruct (index_in c rest) as [d'|]; [|discriminate].
  intros _. cbn [orb]. now apply (IH d').
Qed.

Lemma all_base58_append s1 s2 :
  Validation.all_base58 (s1 ++ s2)%string
  = Validation.all_base58 s1 && Validation.all_base58 s2.
Proof.
  induction s1 as [|c s1 IH]; [reflexivity|].
  cbn [String.append Validation.all_base58].
  destruct (negb (Validation.includes Validation.BASE58_ALPHABET c));
    [reflexivity | exact IH].
Qed.

Lemma all_base58_ones n : Validation.all_base58 (ones n) = true.
Proof. induction n as [|n IH]; [reflexivity | exact IH]. Qed.

Lemma all_base58_digits r :
  base58_digits r -> Validation.all_base58 (digits_text r) = true.
Proof.
  induction 1 as [|d r Hd _ IH]; [reflexivity|].
  cbn [digits_text]. destruct (alphabet_digit d Hd) as (c & -> & Hc & _).
  cbn [String.append Validation.all_base58].
  unfold digit_of in Hc. apply index_in_includes in Hc.
  change ALPHABET with Validation.BASE58_ALPHABET in Hc.
  now rewrite Hc.
Qed.

(** The length of the text: the zero bytes in front and the digits. *)
Lemma toBase58_length bytes :
  String.length (toBase58 bytes)
  = (count_zeros bytes
     + List.length (fold_left absorb_byte bytes [0%Z]))%nat.
Proof.
  unfold toBase58.
  destruct (encoder_holds bytes [0] 0 holds_start (Z.le_refl 0)) as (Hok & _).
  rewrite append_length, leading_zeros_ones, ones_length.
  rewrite digits_text_length by now apply Forall_rev.
  now rewrite length_rev.
Qed.

Lemma toBase58_all_base58 bytes :
  Validation.all_base58 (toBase58 bytes) = true.
Proof.
  unfold toBase58.
  destruct (encoder_holds bytes [0] 0 holds_start (Z.le_refl 0)) as (Hok & _).
  rewrite all_base58_append, leading_zeros_ones, all_base58_ones.
  apply all_base58_digits. now apply Forall_rev.
Qed.

Lemma zeros_and_rest_length bytes :
  List.length bytes
  = (count_zeros bytes + List.length (strip_zeros bytes))%nat.
Proof.
  rewrite (zeros_and_rest bytes) at 1.
  now rewrite length_app, repeat_length.
Qed.

(** The number of digits of an input of at most 32 bytes. *)
Lemma digits_count bytes :
  (List.length bytes <= 32)%nat ->
  let digits := fold_left absorb_byte bytes [0] in
  let m := List.length (strip_zeros bytes) in
  match strip_zeros bytes with
  | [] => digits = [0]
  | _ :: _ => (m <= List.length digits <= m + 12)%nat
  end.
Proof.
  intros Hlen digits m.
  destruct (encoder_holds bytes [0] 0 holds_start (Z.le_refl 0))
    as (Hok & Hnum & Hzero & Htop).
  fold digits in Hok, Hnum, Hzero, Htop.
  fold (bytes_number 0 bytes) in Hnum, Hzero, Htop.
  rewrite <- strip_zeros_number in Hnum, Hzero, Htop.
  pose proof (zeros_and_rest_length bytes) as Hsplit. subst m.
  destruct (strip_zeros bytes) as [|b rest] eqn:E.
  - now apply Hzero.
  - assert (Hnz : no_leading_zero (b :: rest))
      by (rewrite <- E; apply strip_zeros_no_leading_zero).
    assert (Hpos : 0 < bytes_number 0 (b :: rest))
      by (apply bytes_number_positive; [discriminate | exact Hnz]).
    assert (Hdne : digits <> [])
      by (intros Ed; rewrite Ed in Hnum;
          cbn [digits_number fold_right] in Hnum; lia).
    split.
    + apply (enough_width (b :: rest) digits); try assumption. discriminate.
    + pose proof (digits_number_top digits Hok Hdne (Htop Hpos)) as Hlow.
      pose proof (bytes_number_upper 0 (b :: rest) (Z.le_refl 0)) as Hhigh.
      rewrite Hnum in Hlow.
      set (m := List.length (b :: rest)) in *.
      assert (Hfit : 256 ^ Z.of_nat m <= 58 ^ (Z.of_nat m + 12))
        by (apply bytes_fit; lia).
      assert (Hlt : 58 ^ (Z.of_nat (List.length digits) - 1)
                    < 58 ^ (Z.of_nat m + 12)) by lia.
      apply Z.pow_lt_mono_r_iff in Hlt; lia.
Qed.

(** X2.  The text [toBase58] gives to 32 bytes has between 32 and 44
    characters, all of the base-58 alphabet: [isValidPubkey] accepts
    it. *)
Theorem address_text_is_valid_pubkey :
  forall bytes : list byte,
    List.length bytes = 32%nat ->
    (32 <= String.length (toBase58 bytes) <= 44)%nat /\
    Validation.isValidPubkey (toBase58 bytes) = true.
Proof.
  intros bytes Hlen.
  assert (Hb : (32 <= String.length (toBase58 bytes) <= 44)%nat).
  { rewrite toBase58_length.
    pose proof (digits_count bytes ltac:(lia)) as Hd. cbv zeta in Hd.
    pose proof (zeros_and_rest_length bytes) as Hsplit.
    destruct (strip_zeros bytes) as [|b rest].
    - rewrite Hd. cbn [List.length] in *. lia.
    - lia. }
  split; [exact Hb|].
  unfold Validation.isValidPubkey.
  assert (E1 : (String.length (toBase58 bytes) <? 32)%nat = false)
    by (apply Nat.ltb_ge; lia).
  assert (E2 : (44 <? String.length (toBase58 bytes))%nat = false)
    by (apply Nat.ltb_ge; lia).
  rewrite E1, E2. cbn [orb].
  assert (E0 : String.eqb (toBase58 bytes) "" = false).
  { apply String.eqb_neq. intros E. rewrite E in Hb. cbn in Hb. lia. }
  rewrite E0. apply toBase58_all_base58.
Qed.

Lemma address_text_is_valid_pubkey_witness :
  Validation.isValidPubkey (toBase58 (repeat xff 32)) = true.
Proof.
  apply (address_text_is_valid_pubkey (repeat xff 32)). reflexivity.
Defined.

End AddressCodecMore.

(** * More facts about the gRPC client *)

Module GrpcMore.
Import Grpc GrpcFacts.

(** *** Maps that grow at the end *)

Lemma set_new {V} k (v : V) m :
  JsMap.get k m = None -> JsMap.set k v m = m ++ [(k, v)].
Proof.
  induction m as [|[k' v'] m IH]; cbn [JsMap.get JsMap.set app];
    [reflexivity|].
  destruct (String.eqb k k'); [discriminate|].
  intros H. now rewrite IH.
Qed.

Lemma get_app_None {V} k (m1 m2 : JsMap.t V) :
  JsMap.get k (m1 ++ m2) = None
  <-> JsMap.get k m1 = None /\ JsMap.get k m2 = None.
Proof.
  induction m1 as [|[k' v'] m1 IH]; cbn [JsMap.get app]; [tauto|].
  destruct (String.eqb k k'); [|exact IH].
  split; [discriminate | intros [H _]; discriminate H].
Qed.

Lemma delete_set_new {V} k (v : V) m :
  JsMap.get k m = None -> JsMap.delete k (JsMap.set k v m) = m.
Proof.
  induction m as [|[k' v'] m IH]; cbn [JsMap.get JsMap.set JsMap.delete].
  - now rewrite String.eqb_refl.
  - destruct (String.eqb k k') eqn:E; [discriminate|].
    intros H. cbn [JsMap.delete]. rewrite E. now rewrite IH.
Qed.

Lemma In_delete {V} k (m : JsMap.t V) x :
  In x (JsMap.delete k m) -> In x m.
Proof.
  induction m as [|[k' v'] m IH]; cbn [JsMap.delete]; [trivial|].
  destruct (String.eqb k k'); [now right|].
  intros [H|H]; [now left | right; now apply IH].
Qed.

(** *** The keys of the subscriptions *)

Definition key_of (programId : string) : string :=
  ("program_" ++ programId)%string.

Lemma key_of_injective a b : key_of a = key_of b -> a = b.
Proof. unfold key_of. cbn [String.append]. now intros [= H]. Qed.

(** Each subscription has the key [subscribeToProgram] gives it, and no
    program is subscribed twice. *)
Definition subscription_keys (c : GrpcClient) : Prop :=
  JsMap.wf (subscriptions c) /\
  forall programId key,
    In (programId, key) (subscriptions c) -> key = key_of programId.

Lemma subscription_keys_entries c :
  subscription_keys c ->
  subscriptions c
  = map (fun programId => (programId, key_of programId))
        (getSubscribedPrograms c).
Proof.
  intros [_ Hk]. unfold getSubscribedPrograms, JsMap.keys.
  induction (subscriptions c) as [|[p k] m IH]; [reflexivity|].
  cbn [map fst]. rewrite (Hk p k) by now left. f_equal.
  apply IH. intros p' k' Hin. apply Hk. now right.
Qed.

Lemma subscribeToProgram_subscriptions programId c :
  subscriptions (snd (subscribeToProgram programId c))
  = match stream c with
    | None => subscriptions c
    | Some _ =>
        if JsMap.has programId (subscriptions c) then subscriptions c
        else JsMap.set programId (key_of programId) (subscriptions c)
    end.
Proof.
  unfold subscribeToProgram. destruct (stream c); [|reflexivity].
  now destruct (JsMap.has programId (subscriptions c)).
Qed.

Lemma set_keeps_keys k m :
  (forall p key, In (p, key) m -> key = key_of p) ->
  forall p key, In (p, key) (JsMap.set k (key_of k) m) -> key = key_of p.
Proof.
  intros Hk p key Hin.
  induction m as [|[k0 v0] m IH]; cbn [JsMap.set] in Hin.
  - destruct Hin as [[= <- <-]|[]]. reflexivity.
  - destruct (String.eqb k k0).
    + destruct Hin as [[= <- <-]|Hin]; [reflexivity|].
      apply Hk. now right.
    + destruct Hin as [Hin|Hin]; [apply Hk; now left|].
      apply IH; [|assumption]. intros p' key' H. apply Hk. now right.
Qed.

Lemma subscription_keys_subscribe programId c :
  subscription_keys c ->
  subscription_keys (snd (subscribeToProgram programId c)).
Proof.
  intros [Hwf Hk]. unfold subscription_keys.
  rewrite subscribeToProgram_subscriptions.
  destruct (stream c); [|now split].
  destruct (JsMap.has programId (subscriptions c)); [now split|].
  split; [now apply JsMapFacts.wf_set | now apply set_keeps_keys].
Qed.

(** The loop of [resubscribeAll] on an open stream: the programs, in
    their order, each with its key. *)
Lemma resubscribe_loop_subscriptions programs c s :
  stream c = Some s ->
  NoDup programs ->
  (forall p, In p programs -> JsMap.get p (subscriptions c) = None) ->
  subscriptions
    (fold_left (fun acc programId => snd (subscribeToProgram programId acc))
               programs c)
  = subscriptions c ++ map (fun p => (p, key_of p)) programs.
Proof.
  revert c. induction programs as [|p programs IH]; intros c Hs Hnd Hnew;
    cbn [fold_left map].
  - now rewrite app_nil_r.
  - inversion Hnd as [|? ? Hnotin Hnd']; subst.
    assert (Hp : JsMap.get p (subscriptions c) = None)
      by (apply Hnew; now left).
    assert (Hsub : subscriptions (snd (subscribeToProgram p c))
                   = subscriptions c ++ [(p, key_of p)]).
    { rewrite subscribeToProgram_subscriptions, Hs. unfold JsMap.has.
      rewrite Hp. now apply set_new. }
    rewrite IH.
    + rewrite Hsub, <- app_assoc. reflexivity.
    + destruct (subscribeToProgram_outside p c) as (_ & _ & H & _).
      cbv zeta in H. now rewrite H.
    + assumption.
    + intros q Hq. rewrite Hsub. apply get_app_None. split.
      * apply Hnew. now right.
      * cbn [JsMap.get]. destruct (String.eqb q p) eqn:E; [|reflexivity].
        apply String.eqb_eq in E. subst q. contradiction.
Qed.

Lemma connect_subscriptions c :
  JsMap.wf (subscriptions c) ->
  subscriptions (snd (connect None c))
  = map (fun p => (p, key_of p)) (getSubscribedPrograms c).
Proof.
  intros Hwf. unfold connect, resubscribeAll. cbn [snd].
  set (c2 := startPingInterval (open_stream c)).
  assert (Hsubs : subscriptions c2 = subscriptions c).
  { unfold c2, startPingInterval, stopPingInterval.
    cbn [pingInterval open_stream]. now destruct (pingInterval c). }
  assert (Hstream : stream c2 = Some (opened c)).
  { unfold c2, startPingInterval, stopPingInterval.
    cbn [pingInterval open_stream]. now destruct (pingInterval c). }
  rewrite (resubscribe_loop_subscriptions _ _ (opened c)).
  - cbn [subscriptions with_subscriptions JsMap.clear app].
    now rewrite Hsubs.
  - exact Hstream.
  - rewrite Hsubs. exact Hwf.
  - intros p _. reflexivity.
Qed.

Lemma map_keys_fst programs :
  JsMap.keys (map (fun p => (p, key_of p)) programs) = programs.
Proof.
  unfold JsMap.keys. rewrite map_map. cbn [fst]. apply map_id.
Qed.

Lemma subscription_keys_connect e c :
  subscription_keys c -> subscription_keys (snd (connect e c)).
Proof.
  intros [Hwf Hk]. destruct e as [e|]; [now split|].
  unfold subscription_keys. rewrite connect_subscriptions by assumption.
  split.
  - unfold JsMap.wf. rewrite map_keys_fst. exact Hwf.
  - intros p key Hin. apply in_map_iff in Hin.
    destruct Hin as (q & [= <- <-] & _). reflexivity.
Qed.

(** *** What each call leaves alone *)

(** The counters of the reconnection. *)
Definition reconnect_state (c : GrpcClient) : bool * Z * list Z * nat :=
  (reconnecting c, reconnectAttempts c, timeouts c, fired c).

Lemma handleDisconnect_inside c :
  subscriptions (handleDisconnect c) = subscriptions c /\
  stream (handleDisconnect c) = stream c /\
  written (handleDisconnect c) = written c /\
  opened (handleDisconnect c) = opened c /\
  pingInterval (handleDisconnect c)
  = if reconnecting c then pingInterval c else false.
Proof.
  unfold handleDisconnect, stopPingInterval.
  destruct (reconnecting c); [repeat split|]. fields.
  destruct (pingInterval c) eqn:Ep; fields;
    destruct (reconnectAttempts c >=? maxReconnectAttempts); fields;
    rewrite ?Ep; repeat split.
Qed.

Lemma sendSubscriptions_inside write_error c :
  let c' := snd (sendSubscriptions write_error c) in
  subscriptions c' = subscriptions c /\ stream c' = stream c /\
  pingInterval c' = pingInterval c /\ opened c' = opened c /\
  reconnect_state c' = reconnect_state c.
Proof.
  unfold sendSubscriptions. destruct (stream c) eqn:Es;
    [|cbn [snd]; now rewrite Es].
  destruct (JsMap.size (subscriptions c) =? 0)%nat;
    [cbn [snd]; now rewrite Es|].
  destruct write_error; cbn [snd]; unfold reconnect_state; fields;
    now rewrite Es.
Qed.

Lemma unsubscribeFromProgram_inside write_error programId c :
  let c' := snd (unsubscribeFromProgram write_error programId c) in
  stream c' = stream c /\ pingInterval c' = pingInterval c /\
  opened c' = opened c /\ reconnect_state c' = reconnect_state c /\
  (subscriptions c' = subscriptions c \/
   subscriptions c' = JsMap.delete programId (subscriptions c)).
Proof.
  unfold unsubscribeFromProgram. destruct (stream c) eqn:Es;
    [|cbn [snd]; rewrite Es; repeat split; now left].
  destruct (JsMap.get programId (subscriptions c)) as [key|];
    [|cbn [snd]; rewrite Es; repeat split; now left].
  destruct (truthy key); [|cbn [snd]; rewrite Es; repeat split; now left].
  destruct write_error; cbn [snd]; unfold reconnect_state; fields;
    rewrite Es; repeat split; [now left | now right].
Qed.

Lemma disconnect_inside c :
  stream (disconnect c) = None /\ subscriptions (disconnect c) = [] /\
  pingInterval (disconnect c) = false /\
  written (disconnect c) = written c /\ opened (disconnect c) = opened c /\
  reconnect_state (disconnect c) = reconnect_state c.
Proof.
  unfold disconnect, stopPingInterval, reconnect_state.
  destruct (pingInterval c) eqn:Ep; fields;
    destruct (stream c) eqn:Es; fields; rewrite ?Es, ?Ep; repeat split.
Qed.

Lemma ping_tick_inside now c :
  subscriptions (ping_tick now c) = subscriptions c /\
  stream (ping_tick now c) = stream c /\
  pingInterval (ping_tick now c) = pingInterval c /\
  opened (ping_tick now c) = opened c /\
  reconnect_state (ping_tick now c) = reconnect_state c.
Proof.
  unfold ping_tick. destruct (pingInterval c) eqn:Ep; [|now rewrite Ep].
  destruct (stream c) eqn:Es; [|now rewrite Ep, Es].
  unfold reconnect_state. fields. now rewrite Ep, Es.
Qed.

Lemma connect_reconnect_state e c :
  reconnect_state (snd (connect e c)) = reconnect_state c.
Proof.
  destruct e as [e|]; [reflexivity|]. unfold connect. cbn [snd].
  destruct (resubscribeAll_outside (startPingInterval (open_stream c)))
    as (H & _).
  apply backoff_fields in H. destruct H as (Hr & Ha & Ht & Hf & _).
  unfold reconnect_state. rewrite Hr, Ha, Ht, Hf.
  unfold startPingInterval, stopPingInterval. fields.
  now destruct (pingInterval c).
Qed.

Lemma subscribeToProgram_reconnect_state programId c :
  reconnect_state (snd (subscribeToProgram programId c)) = reconnect_state c.
Proof.
  destruct (subscribeToProgram_outside programId c) as (H & _).
  cbv zeta in H. apply backoff_fields in H.
  destruct H as (Hr & Ha & Ht & Hf & _).
  unfold reconnect_state. now rewrite Hr, Ha, Ht, Hf.
Qed.

(** *** What every use of the client keeps *)

(** At most one attempt is armed, and it is armed exactly while the
    client is reconnecting; the counter stays within its bounds. *)
Definition one_attempt (c : GrpcClient) : Prop :=
  0 <= reconnectAttempts c <= maxReconnectAttempts /\
  ((reconnecting c = true /\ List.length (timeouts c) = S (fired c)) \/
   (reconnecting c = false /\ List.length (timeouts c) = fired c)).

Lemma one_attempt_state c c' :
  reconnect_state c' = reconnect_state c -> one_attempt c -> one_attempt c'.
Proof.
  unfold reconnect_state, one_attempt. intros [= Hr Ha Ht Hf].
  now rewrite Hr, Ha, Ht, Hf.
Qed.

Lemma one_attempt_handleDisconnect c :
  one_attempt c -> one_attempt (handleDisconnect c).
Proof.
  intros (Hb & Hp). destruct (reconnecting c) eqn:Er.
  - rewrite handleDisconnect_busy by assumption.
    split; [exact Hb|]. rewrite Er. exact Hp.
  - destruct Hp as [[H _]|[_ Hlen]]; [discriminate H|].
    destruct (Z_lt_ge_dec (reconnectAttempts c) maxReconnectAttempts)
      as [Hlt|Hge].
    + pose proof (handleDisconnect_arms c Er Hlt) as H.
      apply backoff_fields in H.
      cbn [b_reconnecting b_attempts b_timeouts b_fired] in H.
      destruct H as (Hr & Ha & Ht & Hf & _).
      unfold one_attempt. rewrite Hr, Ha, Ht, Hf, length_app.
      cbn [List.length]. split; [lia|]. left. split; [reflexivity|lia].
    + pose proof (handleDisconnect_gives_up c Er ltac:(lia)) as H.
      apply backoff_fields in H.
      cbn [b_reconnecting b_attempts b_timeouts b_fired backoff_of] in H.
      destruct H as (Hr & Ha & Ht & Hf & _).
      unfold one_attempt. rewrite Hr, Ha, Ht, Hf.
      split; [assumption|]. right. now split.
Qed.

Lemma one_attempt_timeout r c :
  one_attempt c -> one_attempt (timeout_event r c).
Proof.
  intros (Hb & Hp). unfold timeout_event.
  destruct (fired c <? List.length (timeouts c))%nat eqn:E; [|now split].
  apply Nat.ltb_lt in E.
  destruct Hp as [[Hr Hlen]|[_ Hlen]]; [|lia].
  unfold reconnect_callback. destruct r as [e|].
  - cbn [connect]. apply one_attempt_handleDisconnect.
    split; [exact Hb|]. right. split; [reflexivity|]. exact Hlen.
  - pose proof (connect_reconnect_state None (timeout_fired c)) as Hc.
    destruct (connect None (timeout_fired c)) as [[u|e] c1] eqn:Ec.
    + cbn [snd] in Hc. unfold reconnect_state in Hc.
      injection Hc as _ _ Ht Hf. cbn [timeouts fired timeout_fired] in Ht, Hf.
      split; [cbn; unfold maxReconnectAttempts; lia|].
      right. split; [reflexivity|].
      cbn [timeouts fired with_reconnecting with_reconnectAttempts].
      now rewrite Ht, Hf.
    + discriminate Ec.
Qed.

(** Both invariants hold of a new client and after every call. *)
Definition sane (c : GrpcClient) : Prop :=
  subscription_keys c /\ one_attempt c.

Lemma sane_new : sane new_client.
Proof.
  split; [split; [constructor | intros ? ? []]|].
  split; [cbn; unfold maxReconnectAttempts; lia|]. right. now split.
Qed.

Lemma subscription_keys_same c c' :
  subscriptions c' = subscriptions c ->
  subscription_keys c -> subscription_keys c'.
Proof. unfold subscription_keys. now intros ->. Qed.

Lemma subscription_keys_timeout r c :
  subscription_keys c -> subscription_keys (timeout_event r c).
Proof.
  intros Hk. unfold timeout_event.
  destruct (fired c <? List.length (timeouts c))%nat; [|exact Hk].
  assert (Hk0 : subscription_keys (timeout_fired c)) by exact Hk.
  pose proof (subscription_keys_connect r (timeout_fired c) Hk0) as Hc.
  unfold reconnect_callback.
  destruct (connect r (timeout_fired c)) as [[u|e] c1]; cbn [snd] in Hc.
  - exact Hc.
  - eapply subscription_keys_same; [|exact Hc].
    now destruct (handleDisconnect_inside (with_reconnecting false c1))
      as (H & _).
Qed.

Lemma sane_call c x : sane c -> sane (call c x).
Proof.
  intros [Hk Ho]. destruct x as [e|p|we|we p| |ev|now]; cbn [call].
  - split; [now apply subscription_keys_connect|].
    eapply one_attempt_state; [apply connect_reconnect_state | exact Ho].
  - split; [now apply subscription_keys_subscribe|].
    eapply one_attempt_state;
      [apply subscribeToProgram_reconnect_state | exact Ho].
  - destruct (sendSubscriptions_inside we c) as (Hs & _ & _ & _ & Hr).
    split; [eapply subscription_keys_same; eassumption|].
    eapply one_attempt_state; eassumption.
  - destruct (unsubscribeFromProgram_inside we p c)
      as (_ & _ & _ & Hr & Hs).
    split; [|eapply one_attempt_state; eassumption].
    destruct Hs as [Hs|Hs]; [eapply subscription_keys_same; eassumption|].
    destruct Hk as [Hwf Hkeys]. split; cbv zeta in Hs; rewrite Hs.
    + now apply JsMapFacts.wf_delete.
    + intros q key Hin. apply Hkeys. now apply (In_delete p).
  - destruct (disconnect_inside c) as (_ & Hs & _ & _ & _ & Hr).
    split; [|eapply one_attempt_state; eassumption].
    split; rewrite Hs; [constructor | intros ? ? []].
  - destruct ev as [|r]; cbn [handle stream_event].
    + split; [|now apply one_attempt_handleDisconnect].
      eapply subscription_keys_same; [|exact Hk].
      now destruct (handleDisconnect_inside c) as (H & _).
    + split; [now apply subscription_keys_timeout
             | now apply one_attempt_timeout].
  - destruct (ping_tick_inside now c) as (Hs & _ & _ & _ & Hr).
    split; [eapply subscription_keys_same; eassumption|].
    eapply one_attempt_state; eassumption.
Qed.

Lemma sane_calls l : sane (calls new_client l).
Proof.
  unfold calls. generalize sane_new. generalize new_client.
  induction l as [|x l IH]; intros c Hc; [exact Hc|].
  cbn [fold_left]. apply IH. now apply sane_call.
Qed.

(** *** The combined request *)

Definition owner_filter (programId : string) : AccountsFilter :=
  {| filter_owner := [programId]; filter_account := [];
     filter_filters := [] |}.

Lemma accountsFilter_loop programs acc :
  NoDup programs ->
  (forall p, In p programs -> JsMap.get (key_of p) acc = None) ->
  fold_left
    (fun acc entry =>
       let '(programId, subscriptionKey) := entry in
       set_property subscriptionKey
         {| filter_owner := [programId]; filter_account := [];
            filter_filters := [] |} acc)
    (map (fun p => (p, key_of p)) programs) acc
  = acc ++ map (fun p => (key_of p, owner_filter p)) programs.
Proof.
  revert acc. induction programs as [|p programs IH]; intros acc Hnd Hnew;
    cbn [map fold_left].
  - now rewrite app_nil_r.
  - inversion Hnd as [|? ? Hnotin Hnd']; subst.
    unfold set_property at 2. rewrite set_new by (apply Hnew; now left).
    rewrite IH; [now rewrite <- app_assoc | assumption |].
    intros q Hq. apply get_app_None. split; [apply Hnew; now right|].
    cbn [JsMap.get]. destruct (String.eqb (key_of q) (key_of p)) eqn:E;
      [|reflexivity].
    apply String.eqb_eq, key_of_injective in E. subst q. contradiction.
Qed.

Lemma accountsFilter_programs c :
  subscription_keys c ->
  accountsFilter (subscriptions c)
  = map (fun p => (key_of p, owner_filter p)) (getSubscribedPrograms c).
Proof.
  intros Hk. unfold accountsFilter, JsMap.entries.
  rewrite (subscription_keys_entries c Hk) at 1.
  rewrite accountsFilter_loop; [reflexivity | apply Hk |].
  intros p _. reflexivity.
Qed.

(** X3.  [subscribeToProgram] is idempotent and writes no request: a
    second call for the same program answers like the first and changes
    nothing.  On a connected client the call resolves and the program is
    subscribed afterwards; a program that was not subscribed is added
    after the others, with the key "program_" followed by the program. *)
Theorem subscribeToProgram_idempotent :
  forall (c : GrpcClient) (programId : string),
    let c1 := snd (subscribeToProgram programId c) in
    subscribeToProgram programId c1
    = (fst (subscribeToProgram programId c), c1) /\
    written c1 = written c /\
    (forall s,
        stream c = Some s ->
        fst (subscribeToProgram programId c) = Resolved tt /\
        JsMap.has programId (subscriptions c1) = true /\
        (JsMap.has programId (subscriptions c) = false ->
         JsMap.get programId (subscriptions c1)
         = Some ("program_" ++ programId)%string /\
         getSubscribedPrograms c1 = getSubscribedPrograms c ++ [programId])).
Proof.
  intros c programId c1. subst c1. unfold subscribeToProgram.
  destruct (stream c) as [s|] eqn:Es.
  - destruct (JsMap.has programId (subscriptions c)) eqn:Eh; cbn [fst snd].
    + rewrite Es, Eh. split; [reflexivity|]. split; [reflexivity|].
      intros s' _. split; [reflexivity|]. split; [reflexivity|].
      intros H. discriminate H.
    + fields. rewrite Es.
      assert (Hhas : JsMap.has programId
                       (JsMap.set programId ("program_" ++ programId)%string
                                  (subscriptions c)) = true)
        by (unfold JsMap.has; now rewrite JsMapFacts.get_set_same).
      rewrite Hhas.
      split; [reflexivity|]. split; [reflexivity|].
      intros s' _. split; [reflexivity|]. split; [reflexivity|].
      intros _. split; [apply JsMapFacts.get_set_same|].
      unfold getSubscribedPrograms. fields.
      rewrite JsMapFacts.keys_set, Eh. reflexivity.
  - cbn [fst snd]. rewrite Es. split; [reflexivity|]. split; [reflexivity|].
    intros s' H. discriminate H.
Qed.

Lemma subscribeToProgram_idempotent_witness :
  let c := snd (connect None new_client) in
  let c1 := snd (subscribeToProgram "P" c) in
  subscribeToProgram "P" c1 = (Resolved tt, c1) /\ written c1 = [].
Proof.
  intros c c1.
  destruct (subscribeToProgram_idempotent c "P") as (H1 & H2 & _).
  split; [exact H1 | exact H2].
Defined.

(** X4.  After any calls on a new client, [sendSubscriptions] on an open
    stream with a program subscribed writes one request: it holds, for
    each subscribed program in the order of subscription, one account
    filter named "program_" followed by the program and owned by the
    program, and nothing else but the slot filter and the commitment
    level. *)
Theorem sendSubscriptions_request :
  forall (l : list Call) (write_error : option string) (s : nat),
    let c := calls new_client l in
    stream c = Some s ->
    getSubscribedPrograms c <> [] ->
    NoDup (getSubscribedPrograms c) /\
    written (snd (sendSubscriptions write_error c))
    = written c
      ++ [(s, {| accounts :=
                   map (fun p => (("program_" ++ p)%string,
                                  {| filter_owner := [p];
                                     filter_account := [];
                                     filter_filters := [] |}))
                       (getSubscribedPrograms c);
                 slots := [("slots", true)];
                 commitment := Some CONFIRMED;
                 ping := None |})].
Proof.
  intros l write_error s c Hs Hne.
  destruct (sane_calls l) as [Hk _]. fold c in Hk.
  split; [apply Hk|].
  unfold sendSubscriptions. rewrite Hs.
  destruct (subscriptions c) as [|x m] eqn:Em;
    [unfold getSubscribedPrograms in Hne; rewrite Em in Hne; now destruct Hne|].
  cbn [JsMap.size List.length Nat.eqb]. rewrite <- Em.
  unfold combinedRequest. rewrite (accountsFilter_programs c Hk).
  destruct write_error; reflexivity.
Qed.

Lemma sendSubscriptions_request_witness :
  let c := calls new_client
             [Connect None; SubscribeToProgram "A"; SubscribeToProgram "B";
              SubscribeToProgram "A"] in
  written (snd (sendSubscriptions None c))
  = [(0%nat,
      {| accounts := [("program_A", owner_filter "A");
                      ("program_B", owner_filter "B")];
         slots := [("slots", true)];
         commitment := Some CONFIRMED; ping := None |})].
Proof.
  intros c.
  assert (Hne : getSubscribedPrograms c <> []) by discriminate.
  destruct (sendSubscriptions_request
              [Connect None; SubscribeToProgram "A"; SubscribeToProgram "B";
               SubscribeToProgram "A"] None 0%nat eq_refl Hne) as (_ & H).
  exact H.
Defined.

(** X5.  [sendSubscriptions] never changes the subscriptions.  With no
    program subscribed it writes nothing; when the write reports an
    error on an open stream it rejects with that error. *)
Theorem sendSubscriptions_keeps_subscriptions :
  forall (c : GrpcClient) (write_error : option string),
    subscriptions (snd (sendSubscriptions write_error c)) = subscriptions c /\
    (subscriptions c = [] ->
     written (snd (sendSubscriptions write_error c)) = written c) /\
    (forall s e,
        stream c = Some s ->
        subscriptions c <> [] ->
        fst (sendSubscriptions (Some e) c) = Rejected e).
Proof.
  intros c write_error.
  destruct (sendSubscriptions_inside write_error c) as (Hs & _).
  split; [exact Hs|]. split.
  - intros He. unfold sendSubscriptions. rewrite He.
    now destruct (stream c).
  - intros s e Hst Hne. unfold sendSubscriptions. rewrite Hst.
    destruct (subscriptions c); [now destruct Hne | reflexivity].
Qed.

Lemma sendSubscriptions_keeps_subscriptions_witness :
  let c := calls new_client [Connect None; SubscribeToProgram "A"] in
  fst (sendSubscriptions (Some "broken pipe") c) = Rejected "broken pipe" /\
  subscriptions (snd (sendSubscriptions (Some "broken pipe") c))
  = [("A", "program_A")].
Proof.
  intros c.
  destruct (sendSubscriptions_keeps_subscriptions c (Some "broken pipe"))
    as (H1 & _ & H3).
  split; [apply (H3 0%nat); [reflexivity | discriminate] | exact H1].
Defined.

(** X6.  After any calls on a new client at most one reconnection attempt
    is armed, and one is armed exactly while the client is reconnecting;
    the attempt counter is between 0 and 20; while the client is
    reconnecting, a further error or end of the stream changes
    nothing. *)
Theorem at_most_one_attempt_armed :
  forall l : list Call,
    let c := calls new_client l in
    (fired c <= List.length (timeouts c) <= S (fired c))%nat /\
    (reconnecting c = true <-> List.length (timeouts c) = S (fired c)) /\
    0 <= reconnectAttempts c <= 20 /\
    (reconnecting c = true -> handle c StreamDown = c).
Proof.
  intros l c. destruct (sane_calls l) as [_ (Hb & Hp)]. fold c in Hb, Hp.
  split; [destruct Hp as [[_ H]|[_ H]]; lia|].
  split.
  - destruct Hp as [[Hr H]|[Hr H]]; split; intros H'; try assumption.
    + rewrite Hr in H'. discriminate H'.
    + lia.
  - split; [exact Hb|]. intros Hr. now apply handleDisconnect_busy.
Qed.

Lemma at_most_one_attempt_armed_witness :
  let c := calls new_client
             [Connect None; Delivered StreamDown; Delivered StreamDown;
              Delivered (TimeoutFires (Some "down")); Delivered StreamDown] in
  timeouts c = [1000; 2000] /\ fired c = 1%nat /\ handle c StreamDown = c.
Proof.
  intros c.
  destruct (at_most_one_attempt_armed
              [Connect None; Delivered StreamDown; Delivered StreamDown;
               Delivered (TimeoutFires (Some "down")); Delivered StreamDown])
    as (_ & _ & _ & H).
  split; [reflexivity|]. split; [reflexivity|]. apply H. reflexivity.
Defined.

Lemma get_program_key programs p :
  In p programs ->
  JsMap.get p (map (fun q => (q, key_of q)) programs) = Some (key_of p).
Proof.
  induction programs as [|q programs IH]; intros Hin; [destruct Hin|].
  cbn [map JsMap.get]. destruct (String.eqb p q) eqn:E.
  - apply String.eqb_eq in E. now subst q.
  - destruct Hin as [->|Hin]; [now rewrite String.eqb_refl in E|].
    now apply IH.
Qed.

Lemma connect_outside c :
  let c' := snd (connect None c) in
  stream c' = Some (opened c) /\ pingInterval c' = true /\
  opened c' = S (opened c).
Proof.
  unfold connect. cbn [snd].
  destruct (resubscribeAll_outside (startPingInterval (open_stream c)))
    as (Hb & _ & Hs & Hp).
  apply backoff_fields in Hb. destruct Hb as (_ & _ & _ & _ & Ho).
  rewrite Hs, Hp, Ho. unfold startPingInterval, stopPingInterval. fields.
  destruct (pingInterval c); repeat split.
Qed.

(** X7.  A [connect] that opens a stream keeps the programs that were
    subscribed, in their order, each with the key "program_" followed by
    the program; the client is on a stream no call had before, with the
    keepalive armed.  A [connect] whose [client.subscribe()] throws
    rejects with that error and leaves the client as it was. *)
Theorem connect_keeps_subscribed_programs :
  forall c : GrpcClient,
    JsMap.wf (subscriptions c) ->
    let c' := snd (connect None c) in
    fst (connect None c) = Resolved tt /\
    getSubscribedPrograms c' = getSubscribedPrograms c /\
    (forall p,
        In p (getSubscribedPrograms c) ->
        JsMap.get p (subscriptions c') = Some ("program_" ++ p)%string) /\
    stream c' = Some (opened c) /\
    pingInterval c' = true /\
    forall e, connect (Some e) c = (Rejected e, c).
Proof.
  intros c Hwf c'. subst c'.
  destruct (connect_outside c) as (Hs & Hp & _). cbv zeta in Hs, Hp.
  split; [reflexivity|]. split.
  - unfold getSubscribedPrograms at 1.
    rewrite connect_subscriptions by assumption. apply map_keys_fst.
  - split.
    + intros p Hin. rewrite connect_subscriptions by assumption.
      now apply get_program_key.
    + split; [exact Hs|]. split; [exact Hp | reflexivity].
Qed.

Lemma connect_keeps_subscribed_programs_witness :
  let c := calls new_client
             [Connect None; SubscribeToProgram "A"; SubscribeToProgram "B";
              Delivered StreamDown] in
  getSubscribedPrograms (snd (connect None c)) = ["A"; "B"] /\
  stream (snd (connect None c)) = Some 1%nat.
Proof.
  intros c.
  assert (Hwf : JsMap.wf (subscriptions c)).
  { repeat constructor; cbn; intuition discriminate. }
  destruct (connect_keeps_subscribed_programs c Hwf)
    as (_ & Hk & _ & Hs & _).
  split; [exact Hk | exact Hs].
Defined.

(** X8.  On a connected client, unsubscribing from a program that is not
    subscribed resolves, writes nothing and changes nothing; subscribing
    to such a program and unsubscribing from it again, with the write
    delivered, gives back the subscriptions as they were. *)
Theorem unsubscribe_undoes_subscribe :
  forall (c : GrpcClient) (programId : string) (s : nat)
         (write_error : option string),
    stream c = Some s ->
    JsMap.get programId (subscriptions c) = None ->
    unsubscribeFromProgram write_error programId c = (Resolved tt, c) /\
    subscriptions
      (snd (unsubscribeFromProgram None programId
              (snd (subscribeToProgram programId c))))
    = subscriptions c.
Proof.
  intros c programId s write_error Hs Hget. split.
  - unfold unsubscribeFromProgram. now rewrite Hs, Hget.
  - unfold subscribeToProgram. rewrite Hs. unfold JsMap.has. rewrite Hget.
    cbn [snd]. unfold unsubscribeFromProgram. fields. rewrite Hs.
    rewrite JsMapFacts.get_set_same.
    assert (Ht : truthy ("program_" ++ programId)%string = true)
      by reflexivity.
    rewrite Ht. cbn [snd]. fields. now apply delete_set_new.
Qed.

Lemma unsubscribe_undoes_subscribe_witness :
  let c := calls new_client [Connect None; SubscribeToProgram "A"] in
  unsubscribeFromProgram None "B" c = (Resolved tt, c) /\
  subscriptions
    (snd (unsubscribeFromProgram None "B" (snd (subscribeToProgram "B" c))))
  = [("A", "program_A")].
Proof.
  intros c.
  apply (unsubscribe_undoes_subscribe c "B" 0%nat None); reflexivity.
Defined.

(** X9.  The keepalive follows the stream: after a [connect] that opens
    a stream a tick of the ping timer writes one ping, to the new
    stream; after [disconnect], and after an error or end of the stream
    that the client handles, a tick writes nothing.  A tick never
    changes the subscriptions. *)
Theorem pings_follow_the_stream :
  forall (c : GrpcClient) (now : Z),
    written (ping_tick now (snd (connect None c)))
    = written c ++ [(opened c, pingRequest now)] /\
    ping_tick now (disconnect c) = disconnect c /\
    (reconnecting c = false ->
     ping_tick now (handle c StreamDown) = handle c StreamDown) /\
    subscriptions (ping_tick now c) = subscriptions c.
Proof.
  intros c now. split.
  - destruct (connect_outside c) as (Hs & Hp & _). cbv zeta in Hs, Hp.
    unfold ping_tick. rewrite Hp, Hs. fields.
    now rewrite connect_written.
  - split.
    + destruct (disconnect_inside c) as (_ & _ & Hp & _).
      unfold ping_tick. now rewrite Hp.
    + split.
      * intros Hr. change (handle c StreamDown) with (handleDisconnect c).
        destruct (handleDisconnect_inside c) as (_ & _ & _ & _ & Hp).
        rewrite Hr in Hp. unfold ping_tick. now rewrite Hp.
      * now destruct (ping_tick_inside now c) as (H & _).
Qed.

Lemma pings_follow_the_stream_witness :
  let c := calls new_client [Connect None; SubscribeToProgram "A"] in
  ping_tick 7 (handle c StreamDown) = handle c StreamDown /\
  written (ping_tick 7 c) = [(0%nat, pingRequest 7)].
Proof.
  intros c.
  destruct (pings_follow_the_stream c 7) as (_ & _ & H & _).
  split; [apply H; reflexivity | reflexivity].
Defined.

End GrpcMore.

(** * More facts about the queries *)

Module DbMore.
Import Db.

(** The hash of the last row, if any, that an answer holds for a
    pubkey. *)
Definition last_hash (k : string) (rows : list HashRow) : option string :=
  option_map row_data_hash
    (find (fun row => String.eqb (row_pubkey row) k) (rev rows)).

Lemma hash_map_snoc rows row :
  hash_map (rows ++ [row])
  = JsMap.set (row_pubkey row) (row_data_hash row) (hash_map rows).
Proof. unfold hash_map. now rewrite fold_left_app. Qed.

Lemma hash_map_get k rows :
  JsMap.get k (hash_map rows) = last_hash k rows.
Proof.
  unfold last_hash. induction rows as [|row rows IH] using rev_ind;
    [reflexivity|].
  rewrite hash_map_snoc, rev_app_distr. cbn [rev app find].
  destruct (String.eqb (row_pubkey row) k) eqn:E.
  - apply String.eqb_eq in E. subst k.
    now rewrite JsMapFacts.get_set_same.
  - apply String.eqb_neq in E.
    now rewrite JsMapFacts.get_set_other.
Qed.

(** X10.  [getLatestHashes] for no pubkey resolves with the empty map
    whatever the database would answer; for some pubkeys it rejects with
    the error of the answer when there is one, and otherwise resolves
    with a map that gives, for each pubkey, the hash of the last row the
    answer holds for it, and nothing for a pubkey with no row (an answer
    without data counts as no row). *)
Theorem getLatestHashes_lookup :
  forall (reply : Reply (list HashRow)) (programId : string),
    getLatestHashes reply programId [] = Resolved JsMap.empty /\
    forall (p : string) (pubkeys : list string),
      (forall e,
          reply_error reply = Some e ->
          getLatestHashes reply programId (p :: pubkeys) = Rejected e) /\
      (reply_error reply = None ->
       exists m,
         getLatestHashes reply programId (p :: pubkeys) = Resolved m /\
         forall k,
           JsMap.get k m
           = last_hash k (match reply_data reply with
                          | Some rows => rows
                          | None => []
                          end)).
Proof.
  intros reply programId. split; [reflexivity|].
  intros p pubkeys. unfold getLatestHashes. split.
  - intros e He. now rewrite He.
  - intros He. rewrite He. eexists. split; [reflexivity|].
    intros k. apply hash_map_get.
Qed.

Lemma getLatestHashes_lookup_witness :
  let reply :=
    {| reply_data :=
         Some [{| row_pubkey := "A"; row_data_hash := "h1" |};
               {| row_pubkey := "B"; row_data_hash := "h2" |};
               {| row_pubkey := "A"; row_data_hash := "h3" |}];
       reply_error := None |} in
  exists m,
    getLatestHashes reply "P" ["A"; "B"; "C"] = Resolved m /\
    JsMap.get "A" m = Some "h3" /\ JsMap.get "C" m = None.
Proof.
  intros reply.
  destruct (getLatestHashes_lookup reply "P") as (_ & H).
  destruct (H "A" ["B"; "C"]) as (_ & H').
  destruct (H' eq_refl) as (m & Hm & Hget).
  exists m. split; [exact Hm|].
  split; [rewrite Hget | rewrite Hget]; reflexivity.
Defined.

End DbMore.

(** * More facts about the change processor *)

Module ProcessorMore.
Import Processor ProcessorFacts.

(** *** The hexadecimal text *)

Lemma hex_length bytes : String.length (hex bytes) = (2 * List.length bytes)%nat.
Proof.
  induction bytes as [|b bytes IH]; [reflexivity|].
  cbn [hex String.length List.length]. rewrite IH. lia.
Qed.

Lemma hex_digit_table :
  forallb (fun i =>
             forallb (fun j =>
                        negb (Ascii.eqb (hex_digit (N.of_nat i))
                                        (hex_digit (N.of_nat j)))
                        || (i =? j)%nat)
                     (seq 0 16))
          (seq 0 16) = true.
Proof. vm_compute. reflexivity. Qed.

Lemma hex_digit_injective i j :
  (i < 16)%N -> (j < 16)%N -> hex_digit i = hex_digit j -> i = j.
Proof.
  intros Hi Hj H.
  pose proof (proj1 (forallb_forall _ _) hex_digit_table (N.to_nat i)) as Ht.
  specialize (Ht ltac:(apply in_seq; lia)).
  pose proof (proj1 (forallb_forall _ _) Ht (N.to_nat j)) as Ht'.
  specialize (Ht' ltac:(apply in_seq; lia)).
  rewrite !Nnat.N2Nat.id, H, Ascii.eqb_refl in Ht'. cbn [negb orb] in Ht'.
  apply Nat.eqb_eq in Ht'. lia.
Qed.

Lemma byte_of_nibbles x y :
  (Byte.to_N x / 16 = Byte.to_N y / 16)%N ->
  (Byte.to_N x mod 16 = Byte.to_N y mod 16)%N ->
  x = y.
Proof.
  intros Hd Hm.
  assert (Hn : Byte.to_N x = Byte.to_N y).
  { rewrite (N.div_mod (Byte.to_N x) 16), (N.div_mod (Byte.to_N y) 16)
      by discriminate.
    now rewrite Hd, Hm. }
  pose proof (Byte.of_to_N x) as Hx. rewrite Hn, Byte.of_to_N in Hx.
  now injection Hx.
Qed.

Lemma nibbles_range b :
  (Byte.to_N b / 16 < 16)%N /\ (Byte.to_N b mod 16 < 16)%N.
Proof.
  pose proof (Byte.to_N_bounded b) as Hb. split.
  - apply N.Div0.div_lt_upper_bound. lia.
  - apply N.mod_lt. discriminate.
Qed.

Lemma hex_injective a b : hex a = hex b -> a = b.
Proof.
  revert b. induction a as [|x a IH]; intros [|y b]; cbn [hex];
    try discriminate; [reflexivity|].
  intros [= H1 H2 H3].
  destruct (nibbles_range x) as [Hx1 Hx2], (nibbles_range y) as [Hy1 Hy2].
  apply hex_digit_injective in H1; [|assumption..].
  apply hex_digit_injective in H2; [|assumption..].
  f_equal; [now apply byte_of_nibbles | now apply IH].
Qed.

(** *** [Number] of a slot *)

(** Up to [2^53] in absolute value [Number] is exact. *)
Lemma Number_exact n : Z.abs n <= 2 ^ 53 -> Number n = Db.Finite n.
Proof.
  intros Hn. unfold Number.
  assert (Hm : round_to_double (Z.abs n) = Z.abs n).
  { destruct (Z.eq_dec (Z.abs n) (2 ^ 53)) as [E|E].
    - rewrite E. reflexivity.
    - unfold round_to_double.
      assert (Hb : (Z.log2 (Z.abs n) + 1 <=? 53) = true).
      { apply Z.leb_le.
        destruct (Z.eq_dec (Z.abs n) 0) as [E0|E0]; [now rewrite E0|].
        assert (Z.log2 (Z.abs n) < 53); [|lia].
        apply Z.log2_lt_pow2; lia. }
      now rewrite Hb. }
  rewrite Hm.
  assert (Hbig : 2 ^ 53 < 2 ^ 1024) by reflexivity.
  assert (Hf : (Z.abs n >=? 2 ^ 1024) = false).
  { rewrite Z.geb_leb. apply Z.leb_gt. lia. }
  rewrite Hf. f_equal. lia.
Qed.

(** Beyond [2^53] a slot can lose its last bits, and from [2^1024] on it
    is an infinity. *)
Example Number_rounds :
  Number 9007199254740993 = Db.Finite 9007199254740992 /\
  Number 9007199254740995 = Db.Finite 9007199254740996 /\
  Number (2 ^ 1024) = Db.PlusInfinity.
Proof. repeat split; vm_compute; reflexivity. Qed.

Section More.

Variable sha256 : list byte -> string.
Variable base64 : list byte -> string.

Abbreviation buffered := (Processor.buffered sha256).
Abbreviation addUpdate := (Processor.addUpdate sha256).
Abbreviation deliver := (Processor.deliver sha256).
Abbreviation state_of := (Processor.state_of base64).
Abbreviation detect := (Processor.detect base64).
Abbreviation process_groups := (Processor.process_groups base64).
Abbreviation processBuffer := (Processor.processBuffer base64).
Abbreviation step := (Processor.step sha256 base64).
Abbreviation run := (Processor.run sha256 base64).

(** X11.  The discriminator of a buffered update is absent exactly when
    the data has fewer than 8 bytes; otherwise it is the 16 hexadecimal
    characters of the first 8 bytes, and data that differ in their first
    8 bytes have different discriminators.  The update counts as deleted
    exactly when its lamports are zero or its data is empty. *)
Theorem discriminator_of_update :
  forall update : Grpc.AccountUpdate,
    let b := buffered update in
    (discriminator b = None <-> (List.length (Grpc.data update) < 8)%nat) /\
    (forall d,
        discriminator b = Some d ->
        String.length d = 16%nat /\
        d = hex (firstn 8 (Grpc.data update))) /\
    (forall other,
        discriminator b <> None ->
        discriminator b = discriminator (buffered other) ->
        firstn 8 (Grpc.data update) = firstn 8 (Grpc.data other)) /\
    (isDeleted b = true
     <-> Grpc.lamports update = 0 \/ Grpc.data update = []).
Proof.
  intros update b. subst b. unfold Processor.buffered.
  cbn [discriminator isDeleted].
  split; [|split; [|split]].
  - destruct (8 <=? List.length (Grpc.data update))%nat eqn:E.
    + apply Nat.leb_le in E. split; [discriminate | lia].
    + apply Nat.leb_gt in E. split; [intros _; exact E | reflexivity].
  - intros d.
    destruct (8 <=? List.length (Grpc.data update))%nat eqn:E;
      [|discriminate].
    apply Nat.leb_le in E. intros Hd.
    assert (Hd' : hex (firstn 8 (Grpc.data update)) = d)
      by (now injection Hd).
    rewrite <- Hd'. split; [|reflexivity].
    rewrite hex_length, length_firstn. lia.
  - intros other Hsome.
    destruct (8 <=? List.length (Grpc.data update))%nat;
      [|now destruct Hsome].
    destruct (8 <=? List.length (Grpc.data other))%nat; [|discriminate].
    intros [= H]. now apply hex_injective.
  - rewrite orb_true_iff, Z.eqb_eq, Nat.eqb_eq.
    split; intros [H|H]; try (now left); right.
    + now apply length_zero_iff_nil.
    + now rewrite H.
Qed.

(** *** The statistics and the buffer under updates *)

Lemma deliver_snoc updates u p :
  deliver (updates ++ [u]) p = addUpdate u (deliver updates p).
Proof. unfold Processor.deliver. now rewrite fold_left_app. Qed.

(** X12.  Delivering updates counts each of them, leaves the count of
    changes alone and makes the last slot the greatest of the last slot
    before and the slots delivered.  Every delivered pubkey is buffered
    afterwards, the last update of the list is the entry of its pubkey,
    and the buffer has no other new key. *)
Theorem deliver_counts_and_buffers :
  forall (updates : list Grpc.AccountUpdate) (p : ChangeProcessor),
    let q := deliver updates p in
    updatesReceived (stats q)
    = updatesReceived (stats p) + Z.of_nat (List.length updates) /\
    changesDetected (stats q) = changesDetected (stats p) /\
    lastProcessedSlot (stats q)
    = fold_left Z.max (map Grpc.slot updates) (lastProcessedSlot (stats p)) /\
    (forall u, In u updates -> JsMap.has (Grpc.pubkey u) (buffer q) = true) /\
    (forall k,
        JsMap.has k (buffer q) = true ->
        JsMap.has k (buffer p) = true \/ In k (map Grpc.pubkey updates)) /\
    (forall before u,
        updates = before ++ [u] ->
        JsMap.get (Grpc.pubkey u) (buffer q) = Some (buffered u)).
Proof.
  intros updates p q. subst q.
  induction updates as [|u updates IH] using rev_ind.
  - cbn [Processor.deliver fold_left List.length map]. rewrite Z.add_0_r.
    split; [reflexivity|]. split; [reflexivity|]. split; [reflexivity|].
    split; [intros u []|]. split; [intros k H; now left|].
    intros before u H. now destruct before.
  - destruct IH as (H1 & H2 & H3 & H4 & H5 & _).
    rewrite deliver_snoc. set (q := deliver updates p) in *.
    cbn [Processor.addUpdate stats updatesReceived changesDetected
         lastProcessedSlot buffer].
    rewrite length_app, map_app, fold_left_app. cbn [List.length map fold_left].
    split; [rewrite H1; lia|]. split; [exact H2|]. split.
    { rewrite <- H3.
      destruct (Grpc.slot u >? lastProcessedSlot (stats q)) eqn:E.
      - apply Z.gtb_lt in E. lia.
      - rewrite Z.gtb_ltb in E. apply Z.ltb_ge in E. lia. }
    split.
    { intros x Hx. unfold JsMap.has.
      destruct (String.eqb (Grpc.pubkey u) (Grpc.pubkey x)) eqn:E.
      - apply String.eqb_eq in E. rewrite <- E.
        now rewrite JsMapFacts.get_set_same.
      - apply String.eqb_neq in E.
        rewrite JsMapFacts.get_set_other by assumption.
        apply in_app_or in Hx. destruct Hx as [Hx|[->|[]]].
        + apply (H4 x Hx).
        + now destruct E. }
    split.
    { intros k Hk. unfold JsMap.has in Hk.
      destruct (String.eqb (Grpc.pubkey u) k) eqn:E.
      - apply String.eqb_eq in E. right. rewrite map_app.
        apply in_or_app. right. now left.
      - apply String.eqb_neq in E.
        rewrite JsMapFacts.get_set_other in Hk by assumption.
        destruct (H5 k Hk) as [H|H]; [now left|].
        right. rewrite map_app. apply in_or_app. now left. }
    intros before u' Heq. apply app_inj_tail in Heq. destruct Heq as [_ <-].
    apply JsMapFacts.get_set_same.
Qed.

(** *** The flag of the flush *)

(** The flag is up exactly while a flush is suspended. *)
Definition flag_of (p : ChangeProcessor) (t : option Task) : Prop :=
  isProcessing p = match t with Some _ => true | None => false end.

Definition flag_follows_task (w : Worker) : Prop :=
  flag_of (processor w) (task w).

Lemma next_await_flag todo states p :
  isProcessing p = true ->
  flag_of (fst (Processor.next_await todo states p))
          (snd (Processor.next_await todo states p)).
Proof.
  intros Hp. unfold Processor.next_await, flag_of.
  destruct todo as [|[program ups] todo]; [|exact Hp].
  destruct (0 <? List.length states)%nat; [exact Hp | reflexivity].
Qed.

Lemma processBuffer_call_flag p :
  isProcessing p = false ->
  flag_of (fst (Processor.processBuffer_call p))
          (snd (Processor.processBuffer_call p)).
Proof.
  intros Hp. unfold Processor.processBuffer_call. rewrite Hp. cbn [orb].
  destruct (JsMap.size (buffer p) =? 0)%nat; [exact Hp|].
  now apply next_await_flag.
Qed.

Lemma flag_follows_task_step w e :
  flag_follows_task w -> flag_follows_task (step w e).
Proof.
  unfold flag_follows_task, flag_of. intros Hw.
  destruct e as [u| |reply|error]; cbn [Processor.step].
  - cbn [task processor]. now rewrite isProcessing_addUpdate.
  - destruct (task w) as [t|] eqn:Et.
    + unfold Processor.processBuffer_call. rewrite Hw. cbn [orb].
      cbn [task processor]. exact Hw.
    + pose proof (processBuffer_call_flag (processor w) Hw) as H.
      unfold flag_of in H.
      destruct (Processor.processBuffer_call (processor w)) as [p1 [t1|]];
        cbn [fst snd task processor] in *; exact H.
  - destruct (task w) as [[program ups todo states|states]|] eqn:Et;
      try (now rewrite Et).
    unfold Processor.resume_hashes.
    destruct (Db.getLatestHashes reply program (map pubkey ups)) as [m|err].
    + destruct (fold_left (detect m) ups (states, stats (processor w)))
        as [st1 s1].
      pose proof (next_await_flag todo st1 (with_stats s1 (processor w)) Hw)
        as H.
      unfold flag_of in H.
      destruct (Processor.next_await todo st1 _) as [p1 t1].
      exact H.
    + reflexivity.
  - destruct (task w) as [[program ups todo states|states]|] eqn:Et;
      try (now rewrite Et).
    unfold Processor.resume_insert.
    destruct (Db.insertAccountStates error states); reflexivity.
Qed.

Lemma flag_follows_task_run events w :
  flag_follows_task w -> flag_follows_task (run w events).
Proof.
  revert w. induction events as [|e events IH]; intros w Hw; [exact Hw|].
  apply IH. now apply flag_follows_task_step.
Qed.

(** X13.  Whatever the event loop has delivered to a new worker, the
    flag [isProcessing] is up exactly while a flush is suspended, and a
    tick of the timer that comes while a flush is suspended starts no
    second flush and changes nothing. *)
Theorem tick_during_flush_is_skipped :
  forall events : list Event,
    let w := run new_worker events in
    (isProcessing (processor w) = true <-> task w <> None) /\
    (task w <> None -> step w Tick = w).
Proof.
  intros events w.
  assert (Hw : flag_follows_task w)
    by (apply flag_follows_task_run; reflexivity).
  unfold flag_follows_task, flag_of in Hw. split.
  - destruct (task w); rewrite Hw; split; try discriminate; try reflexivity.
    intros H. now destruct H.
  - intros Ht. destruct (task w) eqn:Et; [|now destruct Ht].
    unfold Processor.step, Processor.processBuffer_call.
    rewrite Hw. cbn [orb]. now destruct w.
Qed.

(** X23.  [flush], the forced call at shutdown, does on every processor
    what [processBuffer] does.  Whatever the event loop has delivered to
    a new worker, a [flush] that is called while a flush is suspended
    resolves at once, asks the store nothing and leaves the buffered
    updates where they are. *)
Theorem flush_during_flush_stores_nothing :
  forall (store : Store) (events : list Event),
    let w := run new_worker events in
    (forall p, Processor.flush base64 store p = processBuffer store p) /\
    (task w <> None ->
     Processor.flush base64 store (processor w)
     = {| outcome := Resolved tt; after := processor w; batch := [];
          stored := false |}).
Proof.
  intros store events w. split.
  - intros p. unfold Processor.flush, Processor.processBuffer.
    destruct (JsMap.size (buffer p)) as [|n] eqn:E; cbn [Nat.ltb Nat.leb];
      [|reflexivity].
    cbn [Nat.eqb]. now rewrite orb_true_r.
  - intros Ht.
    assert (Hw : flag_follows_task w)
      by (apply flag_follows_task_run; reflexivity).
    unfold flag_follows_task, flag_of in Hw.
    destruct (task w); [|now destruct Ht].
    unfold Processor.flush, Processor.processBuffer. rewrite Hw.
    cbn [orb]. now destruct (0 <? JsMap.size (buffer (processor w)))%nat.
Qed.

(** *** The rows of a flush *)

Abbreviation changed_rows := (ProcessorFacts.changed_rows base64).
Abbreviation group_rows := (ProcessorFacts.group_rows base64).

Lemma changed_rows_cases m u :
  changed_rows m u = [] \/ changed_rows m u = [state_of u].
Proof.
  unfold ProcessorFacts.changed_rows.
  destruct (JsMap.get (pubkey u) m); [|now left].
  destruct (negb (Grpc.truthy s)); [now left|].
  destruct (negb (String.eqb s (dataHash u))); [now right | now left].
Qed.

Lemma rows_pubkeys m ups k :
  In k (map Db.pubkey (flat_map (changed_rows m) ups)) ->
  exists u, In u ups /\ pubkey u = k.
Proof.
  intros H. apply in_map_iff in H. destruct H as (row & <- & H).
  apply in_flat_map in H. destruct H as (u & Hu & H).
  exists u. split; [exact Hu|].
  destruct (changed_rows_cases m u) as [E|E]; rewrite E in H.
  - destruct H.
  - destruct H as [<-|[]]. reflexivity.
Qed.

Lemma rows_NoDup m ups :
  NoDup (map pubkey ups) ->
  NoDup (map Db.pubkey (flat_map (changed_rows m) ups)).
Proof.
  induction ups as [|u ups IH]; intros Hn; [constructor|].
  cbn [map] in Hn. inversion Hn as [|? ? Hnotin Hn']; subst.
  cbn [flat_map].
  destruct (changed_rows_cases m u) as [E|E]; rewrite E; cbn [app map].
  - now apply IH.
  - constructor; [|now apply IH].
    intros H. apply rows_pubkeys in H. destruct H as (u' & Hu' & Hk).
    change (pubkey u' = pubkey u) in Hk.
    apply Hnotin. rewrite <- Hk. now apply in_map.
Qed.

Lemma group_rows_pubkeys store g k :
  In k (map Db.pubkey (group_rows store g)) ->
  exists u, In u (snd g) /\ pubkey u = k.
Proof.
  unfold ProcessorFacts.group_rows.
  destruct (Db.getLatestHashes _ _ _) as [m|e]; [apply rows_pubkeys|].
  intros [].
Qed.

Lemma group_rows_NoDup store g :
  NoDup (map pubkey (snd g)) ->
  NoDup (map Db.pubkey (group_rows store g)).
Proof.
  intros Hn. unfold ProcessorFacts.group_rows.
  destruct (Db.getLatestHashes _ _ _) as [m|e]; [now apply rows_NoDup|].
  constructor.
Qed.

Lemma NoDup_keys_flat_map {A B} (key : B -> string)
    (f : string * A -> list B) G :
  NoDup (map fst G) ->
  (forall g, In g G -> NoDup (map key (f g))) ->
  (forall g g' k,
      In g G -> In g' G ->
      In k (map key (f g)) -> In k (map key (f g')) -> fst g = fst g') ->
  NoDup (map key (flat_map f G)).
Proof.
  induction G as [|g G IH]; intros Hk Hn Hd; [constructor|].
  cbn [map] in Hk. inversion Hk as [|? ? Hnotin Hk']; subst.
  cbn [flat_map]. rewrite map_app. apply NoDup_app.
  - apply Hn. now left.
  - apply IH; [assumption| |].
    + intros g0 H0. apply Hn. now right.
    + intros g1 g2 k H1 H2. apply Hd; now right.
  - intros k H1 H2. apply in_map_iff in H2. destruct H2 as (row & <- & H2).
    apply in_flat_map in H2. destruct H2 as (g' & Hg' & H2).
    apply Hnotin. rewrite (Hd g g' (key row)).
    + now apply in_map.
    + now left.
    + now right.
    + exact H1.
    + now apply in_map.
Qed.

Lemma groups_NoDup p : NoDup (map fst (groups_of p)).
Proof.
  unfold groups_of, JsMap.entries.
  exact (proj1 (group_by_program_spec (JsMap.values (buffer p)))).
Qed.

Lemma group_members p g :
  In g (groups_of p) ->
  snd g = program_updates p (fst g) /\ snd g <> [].
Proof.
  destruct g as [program ups]. intros H. apply group_entry in H. exact H.
Qed.

Lemma program_updates_In p program u :
  In u (program_updates p program) <->
  In u (JsMap.values (buffer p)) /\ programId u = program.
Proof.
  unfold program_updates. rewrite filter_In. now rewrite String.eqb_eq.
Qed.

Lemma flush_rows_NoDup store p :
  keyed_by_pubkey p ->
  NoDup (map Db.pubkey (flat_map (group_rows store) (groups_of p))).
Proof.
  intros Hk. pose proof (values_NoDup p Hk) as Hv.
  apply NoDup_keys_flat_map.
  - apply groups_NoDup.
  - intros g Hg. apply group_rows_NoDup.
    rewrite (proj1 (group_members p g Hg)).
    now apply NoDup_map_filter.
  - intros g g' k Hg Hg' H1 H2.
    apply group_rows_pubkeys in H1. destruct H1 as (u & Hu & Hku).
    apply group_rows_pubkeys in H2. destruct H2 as (u' & Hu' & Hku').
    rewrite (proj1 (group_members p g Hg)) in Hu.
    rewrite (proj1 (group_members p g' Hg')) in Hu'.
    apply program_updates_In in Hu. apply program_updates_In in Hu'.
    destruct Hu as [Hu <-], Hu' as [Hu' <-].
    f_equal. apply (NoDup_map_inj pubkey (JsMap.values (buffer p)));
      try assumption. congruence.
Qed.

(** What the loop over the programs gives: the rows of all the groups,
    or nothing when a lookup failed. *)
Definition loop_result (store : Store) (p : ChangeProcessor)
  : Promise (list Db.AccountState) * Stats :=
  process_groups store (groups_of p) [] (stats p).

Lemma batch_cases store p :
  batch (processBuffer store p) = [] \/
  batch (processBuffer store p)
  = flat_map (group_rows store) (groups_of p).
Proof.
  unfold Processor.processBuffer.
  destruct (isProcessing p || (JsMap.size (buffer p) =? 0)%nat);
    [now left|].
  cbn [buffer with_isProcessing stats]. fold (groups_of p).
  destruct (process_groups store (groups_of p) [] (stats p))
    as [[states|e] s] eqn:E; [|now left].
  apply process_groups_resolved in E. cbn [app] in E. subst states.
  destruct (0 <? List.length _)%nat; [|now left].
  destruct (Db.insertAccountStates _ _); now right.
Qed.

Lemma values_get p u :
  keyed_by_pubkey p ->
  In u (JsMap.values (buffer p)) ->
  JsMap.get (pubkey u) (buffer p) = Some u.
Proof.
  intros [Hwf Hk] Hu. unfold JsMap.values in Hu.
  apply in_map_iff in Hu. destruct Hu as ([k v] & <- & Hin).
  cbn [snd]. rewrite (Hk k v Hin). now apply JsMapFacts.In_get.
Qed.

(** X14.  Whatever the store answers, the states a flush hands to
    [insertAccountStates] hold at most one row for a pubkey and so no
    more rows than the buffer has entries; every row is the state of the
    update buffered under its pubkey, carries its program, hash and
    discriminator, has no [created_at] and is never a [create].  The
    slot of the row is the double nearest to the slot of the update: the
    slot itself up to [2^53], and a rounded value beyond. *)
Theorem flush_rows_are_buffered_changes :
  forall (store : Store) (p : ChangeProcessor),
    keyed_by_pubkey p ->
    let f := processBuffer store p in
    NoDup (map Db.pubkey (batch f)) /\
    (List.length (batch f) <= JsMap.size (buffer p))%nat /\
    forall row,
      In row (batch f) ->
      exists u,
        JsMap.get (Db.pubkey row) (buffer p) = Some u /\
        Db.program_id row = programId u /\
        Db.slot row = Number (slot u) /\
        (Z.abs (slot u) <= 2 ^ 53 -> Db.slot row = Db.Finite (slot u)) /\
        Db.data_hash row = dataHash u /\
        Db.discriminator row = discriminator u /\
        Db.data row = base64 (data u) /\
        Db.created_at row = None /\
        Db.change_type row
        = (if isDeleted u then Db.delete else Db.update) /\
        Db.change_type row <> Db.create.
Proof.
  intros store p Hk f.
  assert (Hrow : forall row, In row (batch f) ->
            exists u, JsMap.get (Db.pubkey row) (buffer p) = Some u /\
                      row = state_of u).
  { intros row Hrow. apply row_origin in Hrow.
    destruct Hrow as (u & m & h & Hu & _ & _ & _ & _ & ->).
    exists u. split; [|reflexivity]. now apply values_get. }
  assert (Hn : NoDup (map Db.pubkey (batch f))).
  { subst f. destruct (batch_cases store p) as [E|E]; rewrite E.
    - constructor.
    - now apply flush_rows_NoDup. }
  split; [exact Hn|]. split.
  - rewrite <- (length_map Db.pubkey). unfold JsMap.size.
    rewrite <- (length_map fst). apply NoDup_incl_length; [exact Hn|].
    intros k H. apply in_map_iff in H. destruct H as (row & <- & H).
    destruct (Hrow row H) as (u & Hget & _).
    apply JsMapFacts.get_In in Hget.
    change (Db.pubkey row) with (fst (Db.pubkey row, u)). now apply in_map.
  - intros row H. destruct (Hrow row H) as (u & Hget & ->).
    exists u. split; [exact Hget|].
    cbn [Processor.state_of Db.program_id Db.slot Db.data_hash
         Db.discriminator Db.data Db.created_at Db.change_type].
    split; [reflexivity|]. split; [reflexivity|].
    split; [apply Number_exact|].
    repeat (split; [reflexivity|]).
    now destruct (isDeleted u).
Qed.

(** *** The count of changes *)

Lemma detect_stats m states s u :
  let r := snd (detect m (states, s) u) in
  updatesReceived r = updatesReceived s /\
  lastProcessedSlot r = lastProcessedSlot s /\
  changesDetected r
  = changesDetected s + Z.of_nat (List.length (changed_rows m u)).
Proof.
  unfold Processor.detect, ProcessorFacts.changed_rows.
  destruct (JsMap.get (pubkey u) m) as [h|]; cbn [snd List.length];
    [|repeat split; lia].
  destruct (negb (Grpc.truthy h)); cbn [snd List.length];
    [repeat split; lia|].
  destruct (negb (String.eqb h (dataHash u)));
    cbn [snd List.length Processor.count_change updatesReceived
         lastProcessedSlot changesDetected]; repeat split; lia.
Qed.

Lemma detect_fold_stats m ups states s :
  let r := snd (fold_left (detect m) ups (states, s)) in
  updatesReceived r = updatesReceived s /\
  lastProcessedSlot r = lastProcessedSlot s /\
  changesDetected r
  = changesDetected s
    + Z.of_nat (List.length (flat_map (changed_rows m) ups)).
Proof.
  revert states s. induction ups as [|u ups IH]; intros states s.
  - cbn. repeat split; lia.
  - cbn [fold_left flat_map].
    destruct (detect m (states, s) u) as [st1 s1] eqn:E.
    pose proof (detect_stats m states s u) as H. rewrite E in H.
    cbn [snd] in H. destruct H as (H1 & H2 & H3).
    destruct (IH st1 s1) as (I1 & I2 & I3).
    cbv zeta. rewrite I1, I2, I3, H1, H2, H3, length_app.
    repeat split; lia.
Qed.

(** The statistics after the loop over the programs: only the count of
    changes moves; it grows by the number of rows pushed when every
    lookup answered, and never shrinks. *)
Lemma process_groups_stats store todo states s :
  let r := process_groups store todo states s in
  updatesReceived (snd r) = updatesReceived s /\
  lastProcessedSlot (snd r) = lastProcessedSlot s /\
  changesDetected s <= changesDetected (snd r) /\
  forall states',
    fst r = Resolved states' ->
    changesDetected (snd r)
    = changesDetected s
      + Z.of_nat (List.length states') - Z.of_nat (List.length states).
Proof.
  revert states s. induction todo as [|[program ups] todo IH];
    intros states s.
  - cbn. repeat split; try lia. intros states' [= <-]. lia.
  - cbn [Processor.process_groups].
    destruct (Db.getLatestHashes _ _ _) as [m|e].
    + destruct (fold_left (detect m) ups (states, s)) as [st1 s1] eqn:E.
      pose proof (detect_fold_stats m ups states s) as H.
      pose proof (detect_fold base64 m ups states s) as Hst.
      rewrite E in H, Hst. cbn [fst snd] in H, Hst.
      destruct H as (H1 & H2 & H3).
      destruct (IH st1 s1) as (I1 & I2 & I3 & I4).
      cbv zeta. rewrite I1, I2, H1, H2.
      split; [reflexivity|]. split; [reflexivity|]. split; [lia|].
      intros states' Hr. rewrite (I4 states' Hr), H3, Hst, length_app. lia.
    + cbn. repeat split; try lia. intros states' [=].
Qed.

Lemma flush_stats store p :
  let f := processBuffer store p in
  updatesReceived (stats (after f)) = updatesReceived (stats p) /\
  lastProcessedSlot (stats (after f)) = lastProcessedSlot (stats p) /\
  changesDetected (stats p) <= changesDetected (stats (after f)) /\
  (lookups_answer store ->
   changesDetected (stats (after f))
   = changesDetected (stats p) + Z.of_nat (List.length (batch f))).
Proof.
  intros f. subst f. unfold Processor.processBuffer.
  destruct (isProcessing p || (JsMap.size (buffer p) =? 0)%nat).
  - cbn [after stats batch List.length].
    split; [reflexivity|]. split; [reflexivity|]. split; [lia|].
    intros _. cbn. lia.
  - cbn [buffer with_isProcessing stats]. fold (groups_of p).
    pose proof (process_groups_stats store (groups_of p) [] (stats p))
      as (H1 & H2 & H3 & H4).
    pose proof (process_groups_answers base64 store (groups_of p) []
                  (stats p)) as Hans.
    destruct (process_groups store (groups_of p) [] (stats p))
      as [[states|e] s]; cbn [fst snd] in H1, H2, H3, H4.
    + specialize (H4 states eq_refl). cbn [List.length] in H4.
      destruct (0 <? List.length states)%nat eqn:El.
      * destruct (Db.insertAccountStates _ _); cbn;
          (split; [exact H1|]; split; [exact H2|]; split; [exact H3|]);
          intros _; lia.
      * apply Nat.ltb_ge in El. cbn.
        split; [exact H1|]. split; [exact H2|]. split; [exact H3|].
        intros _. lia.
    + cbn. split; [exact H1|]. split; [exact H2|]. split; [exact H3|].
      intros Ha. destruct (Hans Ha) as (s' & [=]).
Qed.

Lemma group_rows_same store store' g :
  (forall program pubkeys,
      latest_hashes store' program pubkeys
      = latest_hashes store program pubkeys) ->
  group_rows store' g = group_rows store g.
Proof.
  intros Hsame. unfold ProcessorFacts.group_rows. now rewrite Hsame.
Qed.

(** X15.  A flush moves no statistic but the count of changes, which
    never shrinks.  When every lookup answers, the count grows by the
    number of states handed to the insert, whether the insert succeeds
    or fails: a failed insert leaves its changes counted, and the flush
    that retries it counts them a second time. *)
Theorem flush_counts_detected_changes :
  forall (store : Store) (p : ChangeProcessor),
    let f := processBuffer store p in
    updatesReceived (stats (after f)) = updatesReceived (stats p) /\
    lastProcessedSlot (stats (after f)) = lastProcessedSlot (stats p) /\
    changesDetected (stats p) <= changesDetected (stats (after f)) /\
    (lookups_answer store ->
     changesDetected (stats (after f))
     = changesDetected (stats p) + Z.of_nat (List.length (batch f))) /\
    (lookups_answer store ->
     isProcessing p = false ->
     forall e store',
       batch f <> [] ->
       insert_error store (batch f) = Some e ->
       (forall program pubkeys,
           latest_hashes store' program pubkeys
           = latest_hashes store program pubkeys) ->
       changesDetected (stats (after (processBuffer store' (after f))))
       = changesDetected (stats p)
         + 2 * Z.of_nat (List.length (batch f))).
Proof.
  intros store p f.
  destruct (flush_stats store p) as (H1 & H2 & H3 & H4). fold f in H1, H2, H3, H4.
  split; [exact H1|]. split; [exact H2|]. split; [exact H3|].
  split; [exact H4|].
  intros Hans Hp e store' Hne He Hsame.
  destruct (failed_insert_shape base64 store p e Hne He)
    as (s & _ & _ & Hf).
  fold f in Hf.
  assert (Hafter : after f = with_isProcessing false
                     (with_stats s (with_isProcessing true p)))
    by (rewrite Hf; reflexivity).
  assert (Hans' : lookups_answer store')
    by (intros program pubkeys; rewrite Hsame; apply Hans).
  destruct (flush_stats store' (after f)) as (_ & _ & _ & H4').
  rewrite (H4' Hans'), (H4 Hans).
  assert (Hb : batch (processBuffer store' (after f)) = batch f).
  { rewrite (batch_answers base64 store' (after f) Hans')
      by (rewrite Hafter; reflexivity).
    unfold f at 2. rewrite (batch_answers base64 store p Hans Hp).
    replace (groups_of (after f)) with (groups_of p)
      by (unfold groups_of; rewrite Hafter; reflexivity).
    apply flat_map_ext. intros g. now apply group_rows_same. }
  rewrite Hb. lia.
Qed.

(** *** A lookup that fails, a flush that stores *)

Lemma process_groups_rejected store todo states s program ups e :
  In (program, ups) todo ->
  ups <> [] ->
  Db.reply_error (latest_hashes store program (map pubkey ups)) = Some e ->
  exists e', fst (process_groups store todo states s) = Rejected e'.
Proof.
  revert states s. induction todo as [|[program0 ups0] todo IH];
    intros states s Hin Hne He; [destruct Hin|].
  cbn [Processor.process_groups].
  destruct (Db.getLatestHashes _ _ _) as [m|e0] eqn:E.
  - destruct (fold_left (detect m) ups0 (states, s)) as [st1 s1].
    destruct Hin as [[= -> ->]|Hin]; [|now apply IH].
    unfold Db.getLatestHashes in E. destruct ups as [|u ups]; [now destruct Hne|].
    cbn [map] in E, He. rewrite He in E. discriminate E.
  - now exists e0.
Qed.

(** X16.  When the lookup of the latest hashes fails for one of the
    programs of the buffer, the flush still resolves, calls no insert,
    keeps the buffer as it was and lowers its flag, so that the next
    tick tries the same updates again. *)
Theorem failed_lookup_keeps_buffer :
  forall (store : Store) (p : ChangeProcessor)
         (u : BufferedUpdate) (e : string),
    isProcessing p = false ->
    In u (JsMap.values (buffer p)) ->
    Db.reply_error
      (latest_hashes store (programId u)
         (map pubkey (program_updates p (programId u)))) = Some e ->
    let f := processBuffer store p in
    outcome f = Resolved tt /\
    batch f = [] /\
    stored f = false /\
    buffer (after f) = buffer p /\
    isProcessing (after f) = false.
Proof.
  intros store p u e Hp Hu He f. subst f.
  unfold Processor.processBuffer. rewrite Hp. cbn [orb].
  destruct (JsMap.size (buffer p) =? 0)%nat eqn:Es.
  { apply Nat.eqb_eq in Es. unfold JsMap.size, JsMap.values in *.
    destruct (buffer p); [destruct Hu | discriminate Es]. }
  cbn [buffer with_isProcessing stats]. fold (groups_of p).
  pose proof (group_of_update (JsMap.values (buffer p)) u Hu) as Hg.
  fold (groups_of p) in Hg.
  destruct (group_members p _ Hg) as [Hm Hne]. cbn [fst snd] in Hm, Hne.
  change (program_updates p (programId u))
    with (filter (of_program (programId u)) (JsMap.values (buffer p)))
    in He.
  destruct (process_groups_rejected store (groups_of p) [] (stats p)
              (programId u) _ e Hg Hne He) as (e' & Hr).
  destruct (process_groups store (groups_of p) [] (stats p))
    as [[states|e0] s]; [discriminate Hr|].
  cbn. repeat split.
Qed.

Lemma idle_flush store p :
  buffer p = [] ->
  processBuffer store p
  = {| outcome := Resolved tt; after := p; batch := []; stored := false |}.
Proof.
  intros Hb. unfold Processor.processBuffer. rewrite Hb.
  cbn [JsMap.size List.length Nat.eqb]. now rewrite orb_true_r.
Qed.

(** X17.  A flush calls the insert only with a non-empty batch.  When
    every lookup answers and the insert, if there is one, succeeds, the
    flush empties the buffer, lowers its flag and has stored exactly the
    states it detected; a flush that follows with no update in between
    asks the store nothing and changes nothing. *)
Theorem stored_flush_empties_buffer :
  forall (store : Store) (p : ChangeProcessor),
    let f := processBuffer store p in
    (stored f = true -> batch f <> []) /\
    (isProcessing p = false ->
     lookups_answer store ->
     insert_error store (batch f) = None ->
     outcome f = Resolved tt /\
     buffer (after f) = [] /\
     isProcessing (after f) = false /\
     (stored f = true <-> batch f <> []) /\
     forall store',
       processBuffer store' (after f)
       = {| outcome := Resolved tt; after := after f; batch := [];
            stored := false |}).
Proof.
  intros store p f. split.
  - subst f. unfold Processor.processBuffer.
    destruct (isProcessing p || (JsMap.size (buffer p) =? 0)%nat);
      [discriminate|].
    destruct (process_groups _ _ _ _) as [[states|e] s]; [|discriminate].
    destruct (0 <? List.length states)%nat eqn:El; [|discriminate].
    destruct (Db.insertAccountStates _ _); cbn; [|discriminate].
    intros _ ->. discriminate El.
  - intros Hp Hans Hins.
    assert (H : outcome f = Resolved tt /\ buffer (after f) = [] /\
                isProcessing (after f) = false /\
                (stored f = true <-> batch f <> [])).
    { subst f. unfold Processor.processBuffer in *. rewrite Hp in *.
      cbn [orb] in *.
      destruct (JsMap.size (buffer p) =? 0)%nat eqn:Es.
      { apply Nat.eqb_eq in Es. unfold JsMap.size in Es.
        cbn. split; [reflexivity|].
        split; [now destruct (buffer p)|]. split; [exact Hp|].
        split; [discriminate | intros H; now destruct H]. }
      cbn [buffer with_isProcessing stats] in *. fold (groups_of p) in *.
      destruct (process_groups_answers base64 store (groups_of p) []
                  (stats p) Hans) as (s' & Hpg).
      rewrite Hpg in *. cbn [app] in *.
      destruct (0 <? List.length (flat_map (group_rows store) (groups_of p)))%nat
        eqn:El.
      - unfold Db.insertAccountStates in *.
        destruct (flat_map (group_rows store) (groups_of p))
          as [|row rows]; [discriminate El|].
        destruct (insert_error store (row :: rows)) as [e|] eqn:Ei.
        + cbn in Hins. congruence.
        + cbn. split; [reflexivity|]. split; [reflexivity|].
          split; [reflexivity|]. split; [discriminate | reflexivity].
      - cbn. split; [reflexivity|]. split; [reflexivity|].
        split; [reflexivity|].
        split; [discriminate | intros H; now destruct H]. }
    destruct H as (Ho & Hb & Hi & Hs).
    split; [exact Ho|]. split; [exact Hb|]. split; [exact Hi|].
    split; [exact Hs|].
    intros store'. now apply idle_flush.
Qed.

(** The groups of a flush: they have distinct programs, the group of a
    program holds exactly the buffered updates of that program, in the
    order of the buffer and with no pubkey twice, and no group is
    empty. *)
Lemma groups_of_buffer :
  forall p : ChangeProcessor,
    keyed_by_pubkey p ->
    let groups := JsMap.entries (group_by_program (JsMap.values (buffer p))) in
    NoDup (map fst groups) /\
    (forall program ups,
        In (program, ups) groups <->
        ups = program_updates p program /\ ups <> []) /\
    (forall program ups,
        In (program, ups) groups -> NoDup (map pubkey ups)) /\
    (forall u,
        In u (JsMap.values (buffer p)) ->
        exists ups, In (programId u, ups) groups /\ In u ups).
Proof.
  intros p Hk groups. subst groups. fold (groups_of p).
  split; [apply groups_NoDup|]. split; [|split].
  - intros program ups. split.
    + intros H. exact (group_members p (program, ups) H).
    + intros [-> Hne].
      destruct (program_updates p program) as [|u l] eqn:E;
        [now destruct Hne|].
      assert (Hu : In u (program_updates p program))
        by (rewrite E; now left).
      apply program_updates_In in Hu. destruct Hu as [Hu <-].
      rewrite <- E. exact (group_of_update _ u Hu).
  - intros program ups H.
    destruct (group_members p (program, ups) H) as [Hm _].
    cbn [fst snd] in Hm. rewrite Hm.
    apply NoDup_map_filter. now apply values_NoDup.
  - intros u Hu. exists (program_updates p (programId u)). split.
    + exact (group_of_update _ u Hu).
    + now apply program_updates_In.
Qed.

(** *** The lookups of a flush *)

(** The call of [getLatestHashes] that a suspended flush waits for: the
    program and the pubkeys. *)
Definition awaited_lookup (w : Worker) : option (string * list string) :=
  match task w with
  | Some (AwaitHashes program programUpdates _ _) =>
      Some (program, map pubkey programUpdates)
  | _ => None
  end.

(** The lookup of a group. *)
Definition lookup_of (g : string * list BufferedUpdate)
  : string * list string :=
  (fst g, map pubkey (snd g)).

(** The database answered the lookup. *)
Definition answered (reply : Db.Reply (list Db.HashRow)) : Prop :=
  Db.reply_error reply = None.

Lemma replies_skipped w answers :
  awaited_lookup w = None ->
  run w (map HashesReply answers) = w.
Proof.
  intros Hw. induction answers as [|a answers IH]; [reflexivity|].
  cbn [map]. rewrite run_cons.
  assert (Hs : step w (HashesReply a) = w).
  { unfold awaited_lookup in Hw. cbn [Processor.step].
    destruct (task w) as [[program ups todo states|states]|];
      [discriminate Hw | reflexivity | reflexivity]. }
  rewrite Hs. exact IH.
Qed.

Lemma answered_resolves reply program pubkeys :
  answered reply ->
  exists m, Db.getLatestHashes reply program pubkeys = Resolved m.
Proof.
  unfold answered, Db.getLatestHashes. intros ->.
  destruct pubkeys; eexists; reflexivity.
Qed.

Lemma step_answered a program ups todo states p1 ins :
  answered a ->
  exists st1 s1,
    step (worker_of (Processor.next_await ((program, ups) :: todo) states p1)
                    ins)
         (HashesReply a)
    = worker_of (Processor.next_await todo st1 (with_stats s1 p1)) ins.
Proof.
  intros Ha. cbn [Processor.next_await worker_of fst snd Processor.step task
                  processor inserted].
  unfold Processor.resume_hashes.
  destruct (answered_resolves a program (map pubkey ups) Ha) as (m & ->).
  destruct (fold_left (detect m) ups (states, stats p1)) as [st1 s1].
  exists st1, s1.
  now destruct (Processor.next_await todo st1 (with_stats s1 p1)).
Qed.

Lemma lookups_loop answers :
  forall todo states p1 ins,
    Forall answered answers ->
    awaited_lookup
      (run (worker_of (Processor.next_await todo states p1) ins)
           (map HashesReply answers))
    = option_map lookup_of (nth_error todo (List.length answers)).
Proof.
  induction answers as [|a answers IH]; intros todo states p1 ins Hall.
  - destruct todo as [|[program ups] todo]; cbn [Processor.next_await];
      [|reflexivity].
    now destruct (0 <? List.length states)%nat.
  - inversion Hall as [|? ? Ha Hrest]; subst.
    destruct todo as [|[program ups] todo].
    + rewrite replies_skipped; cbn [Processor.next_await];
        now destruct (0 <? List.length states)%nat.
    + cbn [map]. rewrite run_cons.
      destruct (step_answered a program ups todo states p1 ins Ha)
        as (st1 & s1 & ->).
      now rewrite IH.
Qed.

Lemma lookups_state answers :
  forall todo states p1 ins,
    Forall answered answers ->
    (List.length answers < List.length todo)%nat ->
    exists st' s',
      run (worker_of (Processor.next_await todo states p1) ins)
          (map HashesReply answers)
      = worker_of (Processor.next_await (skipn (List.length answers) todo)
                     st' (with_stats s' p1)) ins.
Proof.
  induction answers as [|a answers IH]; intros todo states p1 ins Hall Hlen.
  - exists states, (stats p1). now rewrite with_stats_same.
  - inversion Hall as [|? ? Ha Hrest]; subst.
    destruct todo as [|[program ups] todo]; [cbn in Hlen; lia|].
    cbn [map]. rewrite run_cons.
    destruct (step_answered a program ups todo states p1 ins Ha)
      as (st1 & s1 & ->).
    destruct (IH todo st1 (with_stats s1 p1) ins Hrest) as (st' & s' & ->);
      [cbn [List.length] in Hlen; lia|].
    now exists st', s'.
Qed.

(** X18.  A flush looks up the latest hashes program by program, in the
    order in which the programs first appear in the buffer.  After the
    lookups that were answered so far it waits for the lookup of the
    next program, made with exactly the pubkeys buffered for that
    program; after the last program it waits for no lookup.  The
    programs of the lookups are distinct, their updates are those of the
    buffer and none is empty.  A lookup that is rejected ends the flush:
    the programs after it get no lookup, nothing is inserted, the buffer
    is kept and the flag is lowered. *)
Theorem lookups_of_a_flush :
  forall (p : ChangeProcessor) (ins : list (list Db.AccountState))
         (answers : list (Db.Reply (list Db.HashRow))),
    keyed_by_pubkey p ->
    isProcessing p = false ->
    Forall answered answers ->
    let groups := JsMap.entries (group_by_program (JsMap.values (buffer p))) in
    let w := run {| processor := p; task := None; inserted := ins |}
                 (Tick :: map HashesReply answers) in
    NoDup (map fst groups) /\
    (forall program ups,
        In (program, ups) groups <->
        ups = program_updates p program /\ ups <> []) /\
    (forall program ups,
        In (program, ups) groups -> NoDup (map pubkey ups)) /\
    awaited_lookup w
    = option_map lookup_of (nth_error groups (List.length answers)) /\
    (forall reply e,
        (List.length answers < List.length groups)%nat ->
        Db.reply_error reply = Some e ->
        let w' := step w (HashesReply reply) in
        awaited_lookup w' = None /\
        task w' = None /\
        inserted w' = ins /\
        buffer (processor w') = buffer p /\
        isProcessing (processor w') = false /\
        forall more, run w' (map HashesReply more) = w').
Proof.
  intros p ins answers Hk Hp Hall groups w.
  destruct (groups_of_buffer p Hk) as (G1 & G2 & G3 & _).
  fold groups in G1, G2, G3.
  split; [exact G1|]. split; [exact G2|]. split; [exact G3|].
  assert (Hw : w = run (worker_of (Processor.processBuffer_call p) ins)
                       (map HashesReply answers)).
  { subst w. rewrite run_cons. now rewrite step_tick. }
  unfold Processor.processBuffer_call in Hw. rewrite Hp in Hw.
  cbn [orb] in Hw.
  destruct (JsMap.size (buffer p) =? 0)%nat eqn:Es.
  - (* nothing is buffered *)
    assert (Hg : groups = []).
    { apply Nat.eqb_eq in Es. unfold JsMap.size in Es. subst groups.
      now destruct (buffer p). }
    rewrite replies_skipped in Hw by reflexivity.
    rewrite Hg, Hw. split; [now destruct (List.length answers)|].
    intros reply e Hlen. cbn in Hlen. lia.
  - change (JsMap.entries
              (group_by_program
                 (JsMap.values (buffer (with_isProcessing true p)))))
      with groups in Hw.
    split; [rewrite Hw; now apply lookups_loop|].
    intros reply e Hlen He w'.
    destruct (lookups_state answers groups [] (with_isProcessing true p)
                ins Hall Hlen) as (st' & s' & Hst).
    rewrite <- Hw in Hst.
    destruct (skipn (List.length answers) groups) as [|[program ups] rest]
      eqn:Eskip.
    { apply (f_equal (@List.length _)) in Eskip.
      rewrite length_skipn in Eskip. cbn in Eskip. lia. }
    assert (Hin : In (program, ups) groups).
    { rewrite <- (firstn_skipn (List.length answers) groups), Eskip.
      apply in_or_app. right. now left. }
    apply G2 in Hin. destruct Hin as [_ Hne].
    assert (Hw' : w' = {| processor :=
                            with_isProcessing false
                              (with_stats s' (with_isProcessing true p));
                          task := None; inserted := ins |}).
    { subst w'. rewrite Hst.
      cbn [Processor.next_await worker_of fst snd Processor.step task
           processor inserted].
      unfold Processor.resume_hashes, Db.getLatestHashes.
      destruct ups as [|u ups]; [now destruct Hne|].
      cbn [map]. now rewrite He. }
    rewrite Hw'. cbn [task inserted processor buffer isProcessing
                      with_isProcessing with_stats].
    split; [reflexivity|]. split; [reflexivity|]. split; [reflexivity|].
    split; [reflexivity|]. split; [reflexivity|].
    intros more. now apply replies_skipped.
Qed.

End More.

(** The facts above on sample runs. *)

Lemma discriminator_of_update_witness :
  let u := {| Grpc.pubkey := "A"; Grpc.owner := "P"; Grpc.lamports := 1;
              Grpc.slot := 1;
              Grpc.data := [x01; x02; x03; x04; x05; x06; x07; x08; x09];
              Grpc.executable := false; Grpc.rentEpoch := 0 |} in
  String.length "0102030405060708" = 16%nat /\
  "0102030405060708" = hex (firstn 8 (Grpc.data u)).
Proof.
  intros u.
  destruct (discriminator_of_update ProcessorSamples.sample_digest u) as (_ & H & _).
  apply (H "0102030405060708"). reflexivity.
Defined.

Lemma deliver_counts_and_buffers_witness :
  let q := Processor.deliver ProcessorSamples.sample_digest
             [ProcessorSamples.accountA [x01]; ProcessorSamples.accountB]
             new_processor in
  updatesReceived (stats q) = 2 /\
  lastProcessedSlot (stats q) = 11 /\
  JsMap.get "B" (buffer q)
  = Some (Processor.buffered ProcessorSamples.sample_digest
            ProcessorSamples.accountB).
Proof.
  intros q.
  destruct (deliver_counts_and_buffers ProcessorSamples.sample_digest
              [ProcessorSamples.accountA [x01]; ProcessorSamples.accountB]
              new_processor) as (H1 & _ & H3 & _ & _ & H6).
  split; [exact H1|]. split; [exact H3|].
  exact (H6 [ProcessorSamples.accountA [x01]] ProcessorSamples.accountB
            eq_refl).
Defined.

Lemma tick_during_flush_is_skipped_witness :
  let w := Processor.run ProcessorSamples.sample_digest
             ProcessorSamples.sample_digest new_worker
             [Update (ProcessorSamples.accountA [x01]); Tick] in
  task w <> None /\
  Processor.step ProcessorSamples.sample_digest
    ProcessorSamples.sample_digest w Tick = w.
Proof.
  intros w.
  assert (Ht : task w <> None) by (vm_compute; discriminate).
  split; [exact Ht|].
  exact (proj2 (tick_during_flush_is_skipped ProcessorSamples.sample_digest
                  ProcessorSamples.sample_digest
                  [Update (ProcessorSamples.accountA [x01]); Tick]) Ht).
Defined.

Lemma flush_rows_are_buffered_changes_witness :
  let p := Processor.deliver ProcessorSamples.sample_digest
             [ProcessorSamples.accountA [x01]; ProcessorSamples.accountB]
             new_processor in
  let f := Processor.processBuffer ProcessorSamples.sample_digest
             (ProcessorSamples.sample_store None) p in
  NoDup (map Db.pubkey (batch f)) /\
  (List.length (batch f) <= JsMap.size (buffer p))%nat.
Proof.
  intros p f.
  destruct (flush_rows_are_buffered_changes ProcessorSamples.sample_digest
              (ProcessorSamples.sample_store None) p
              (keyed_by_pubkey_deliver ProcessorSamples.sample_digest _ _
                 keyed_by_pubkey_new)) as (H1 & H2 & _).
  split; [exact H1 | exact H2].
Defined.

Lemma flush_counts_detected_changes_witness :
  let p := Processor.deliver ProcessorSamples.sample_digest
             [ProcessorSamples.accountA [x01]] new_processor in
  let f := Processor.processBuffer ProcessorSamples.sample_digest
             (ProcessorSamples.sample_store (Some "down")) p in
  changesDetected
    (stats (after (Processor.processBuffer ProcessorSamples.sample_digest
                     (ProcessorSamples.sample_store None) (after f))))
  = changesDetected (stats p) + 2 * Z.of_nat (List.length (batch f)).
Proof.
  intros p f.
  destruct (flush_counts_detected_changes ProcessorSamples.sample_digest
              (ProcessorSamples.sample_store (Some "down")) p)
    as (_ & _ & _ & _ & H).
  apply (H (fun _ _ => eq_refl) eq_refl "down"
           (ProcessorSamples.sample_store None)).
  - vm_compute. discriminate.
  - reflexivity.
  - reflexivity.
Defined.

(** A store whose lookups fail. *)
Definition failing_store : Store :=
  {| latest_hashes := fun _ _ =>
       {| Db.reply_data := None; Db.reply_error := Some "down" |};
     insert_error := fun _ => None |}.

Lemma failed_lookup_keeps_buffer_witness :
  let p := Processor.deliver ProcessorSamples.sample_digest
             [ProcessorSamples.accountA [x01]] new_processor in
  let f := Processor.processBuffer ProcessorSamples.sample_digest
             failing_store p in
  outcome f = Resolved tt /\ batch f = [] /\ stored f = false /\
  buffer (after f) = buffer p /\ isProcessing (after f) = false.
Proof.
  intros p f.
  apply (failed_lookup_keeps_buffer ProcessorSamples.sample_digest
           failing_store p
           (Processor.buffered ProcessorSamples.sample_digest
              (ProcessorSamples.accountA [x01])) "down").
  - reflexivity.
  - left. reflexivity.
  - reflexivity.
Defined.

Lemma stored_flush_empties_buffer_witness :
  let p := Processor.deliver ProcessorSamples.sample_digest
             [ProcessorSamples.accountA [x01]] new_processor in
  let f := Processor.processBuffer ProcessorSamples.sample_digest
             (ProcessorSamples.sample_store None) p in
  outcome f = Resolved tt /\ buffer (after f) = [] /\
  isProcessing (after f) = false /\ batch f <> [].
Proof.
  intros p f.
  destruct (stored_flush_empties_buffer ProcessorSamples.sample_digest
              (ProcessorSamples.sample_store None) p) as (Hs & H).
  destruct (H eq_refl (fun _ _ => eq_refl) eq_refl)
    as (Ho & Hb & Hi & _ & _).
  split; [exact Ho|]. split; [exact Hb|]. split; [exact Hi|].
  apply Hs. reflexivity.
Defined.

Lemma flush_during_flush_stores_nothing_witness :
  let w := Processor.run ProcessorSamples.sample_digest
             ProcessorSamples.sample_digest new_worker
             [Update (ProcessorSamples.accountA [x01]); Tick;
              Update ProcessorSamples.accountB] in
  let f := Processor.flush ProcessorSamples.sample_digest
             (ProcessorSamples.sample_store None) (processor w) in
  batch f = [] /\ stored f = false /\
  JsMap.size (buffer (after f)) = 2%nat.
Proof.
  intros w f.
  assert (Ht : task w <> None) by (vm_compute; discriminate).
  pose proof (proj2 (flush_during_flush_stores_nothing
                       ProcessorSamples.sample_digest
                       ProcessorSamples.sample_digest
                       (ProcessorSamples.sample_store None)
                       [Update (ProcessorSamples.accountA [x01]); Tick;
                        Update ProcessorSamples.accountB]) Ht) as H.
  fold w in H. fold f in H. rewrite H.
  split; [reflexivity|]. split; reflexivity.
Defined.

(** An account of a second program. *)
Definition accountC : Grpc.AccountUpdate :=
  {| Grpc.pubkey := "C"; Grpc.owner := "Q"; Grpc.lamports := 3;
     Grpc.slot := 12; Grpc.data := [x07]; Grpc.executable := false;
     Grpc.rentEpoch := 0 |}.

Lemma lookups_of_a_flush_witness :
  let p := Processor.deliver ProcessorSamples.sample_digest
             [ProcessorSamples.accountA [x01]; accountC;
              ProcessorSamples.accountB] new_processor in
  let w := Processor.run ProcessorSamples.sample_digest
             ProcessorSamples.sample_digest
             {| processor := p; task := None; inserted := [] |}
             [Tick; HashesReply (one_hash "A" "h0")] in
  let w' := Processor.step ProcessorSamples.sample_digest
              ProcessorSamples.sample_digest w
              (HashesReply {| Db.reply_data := None;
                              Db.reply_error := Some "down" |}) in
  awaited_lookup w = Some ("Q", ["C"]) /\
  awaited_lookup w' = None /\
  inserted w' = [] /\
  buffer (processor w') = buffer p.
Proof.
  intros p w w'.
  destruct (lookups_of_a_flush ProcessorSamples.sample_digest
              ProcessorSamples.sample_digest p [] [one_hash "A" "h0"])
    as (_ & _ & _ & Hnext & Hfail).
  - apply keyed_by_pubkey_deliver. exact keyed_by_pubkey_new.
  - reflexivity.
  - repeat constructor.
  - destruct (Hfail {| Db.reply_data := None;
                       Db.reply_error := Some "down" |} "down")
      as (H1 & _ & H3 & H4 & _).
    + vm_compute. lia.
    + reflexivity.
    + split; [exact Hnext|]. split; [exact H1|].
      split; [exact H3 | exact H4].
Defined.

End ProcessorMore.

(** * More facts about the cleanup job *)

Module CleanupMore.
Import Cleanup CleanupFacts.

(** *** The order of the select and a filter *)

Lemma insert_desc_front x l :
  (forall z, In z l -> z <= x) -> insert_desc x l = x :: l.
Proof.
  intros H. destruct l as [|y l]; [reflexivity|].
  cbn [insert_desc].
  assert (E : (y <=? x) = true) by (apply Z.leb_le, H; now left).
  now rewrite E.
Qed.

Lemma filter_insert_desc (f : Z -> bool) x s :
  newest_first s ->
  filter f (insert_desc x s)
  = if f x then insert_desc x (filter f s) else filter f s.
Proof.
  unfold newest_first. induction s as [|y s IH]; intros Hs.
  - cbn. now destruct (f x).
  - inversion Hs as [|? ? Hs' Hall]; subst. cbn [insert_desc].
    destruct (y <=? x) eqn:E.
    + cbn [filter]. destruct (f x) eqn:Fx; [|reflexivity].
      destruct (f y) eqn:Fy.
      * cbn [insert_desc]. now rewrite E.
      * symmetry. apply insert_desc_front. intros z Hz.
        apply filter_In in Hz. destruct Hz as [Hz _].
        rewrite Forall_forall in Hall. specialize (Hall z Hz).
        apply Z.leb_le in E. lia.
    + cbn [filter]. rewrite (IH Hs').
      destruct (f y) eqn:Fy; [|reflexivity].
      destruct (f x); [|reflexivity].
      cbn [insert_desc]. now rewrite E.
Qed.

Lemma order_desc_filter (f : Z -> bool) l :
  order_desc (filter f l) = filter f (order_desc l).
Proof.
  induction l as [|x l IH]; [reflexivity|].
  change (order_desc (x :: l)) with (insert_desc x (order_desc l)).
  rewrite filter_insert_desc by apply order_desc_sorted.
  cbn [filter]. destruct (f x); [|exact IH].
  change (order_desc (x :: filter f l))
    with (insert_desc x (order_desc (filter f l))).
  now rewrite IH.
Qed.

(** The timestamps not older than the one at a position are a prefix
    that reaches this position at least. *)
Lemma sorted_prefix_kept s k cutoff :
  newest_first s ->
  nth_error s k = Some cutoff ->
  firstn (S k) (filter (fun t => negb (older cutoff t)) s)
  = firstn (S k) s.
Proof.
  unfold newest_first. revert k.
  induction s as [|x s IH]; intros k Hs Hnth; [now destruct k|].
  inversion Hs as [|? ? Hs' Hall]; subst.
  assert (Hx : older cutoff x = false).
  { unfold older. apply Z.ltb_ge. destruct k as [|k]; cbn in Hnth.
    - injection Hnth as ->. lia.
    - rewrite Forall_forall in Hall. apply nth_error_In in Hnth.
      specialize (Hall cutoff Hnth). lia. }
  cbn [filter]. rewrite Hx. cbn [negb firstn]. f_equal.
  destruct k as [|k]; [reflexivity|].
  cbn [nth_error] in Hnth. now apply IH.
Qed.

Lemma firstn_In {A} n (l : list A) x : In x (firstn n l) -> In x l.
Proof.
  intros H. rewrite <- (firstn_skipn n l). apply in_or_app. now left.
Qed.

Lemma nth_error_lt {A} (l : list A) n x :
  nth_error l n = Some x -> (n < List.length l)%nat.
Proof. intros H. apply nth_error_Some. congruence. Qed.

(** *** What a call of [pruneAccountChanges] can do *)

Definition keeps (programId pubkey0 : string) (cutoff : Z) (r : Row)
  : bool :=
  negb (older_than programId pubkey0 cutoff r).

Definition statement (programId pubkey0 : string) (cutoff : Z)
  : DeleteStatement :=
  {| stmt_program_id := programId; stmt_pubkey := pubkey0;
     stmt_cutoff := cutoff |}.

Definition newest (table : Table) (programId pubkey0 : string) : list Z :=
  order_desc (timestamps_of table programId pubkey0).

(** With a positive maximum a call leaves the table alone and answers 0,
    or it deletes the rows of the account older than the cutoff and
    answers their number. *)
Lemma prune_shape select_error delete_err max_changes table programId
    pubkey0 :
  (1 <= max_changes)%nat ->
  let r := pruneAccountChanges select_error delete_err max_changes table
                               programId pubkey0 in
  (table_after r = table /\ result r = Resolved 0 /\
   (List.length (deletes r) <= 1)%nat /\
   (select_error <> None \/ delete_err <> None \/
    (List.length (rows_of table programId pubkey0) < max_changes)%nat)) \/
  (exists cutoff,
      select_error = None /\ delete_err = None /\
      nth_error (newest table programId pubkey0) (max_changes - 1)
      = Some cutoff /\
      table_after r = filter (keeps programId pubkey0 cutoff) table /\
      result r
      = Resolved (Z.of_nat (List.length
                    (filter (older_than programId pubkey0 cutoff) table))) /\
      deletes r = [statement programId pubkey0 cutoff]).
Proof.
  intros HK r. subst r.
  pose proof (timestamps_length table programId pubkey0) as Hlen.
  fold (newest table programId pubkey0) in Hlen.
  unfold pruneAccountChanges, select_created_at.
  destruct select_error as [e|]; cbn [Db.reply_error Db.reply_data].
  { left. cbn. split; [reflexivity|]. split; [reflexivity|].
    split; [lia|]. left. discriminate. }
  fold (rows_of table programId pubkey0).
  fold (timestamps_of table programId pubkey0).
  fold (newest table programId pubkey0).
  set (n := List.length (rows_of table programId pubkey0)) in *.
  destruct (Nat.lt_ge_cases n max_changes) as [Hlt|Hge].
  - rewrite length_firstn, Hlen, Nat.min_r by lia.
    assert (E : (n <? max_changes)%nat = true) by (apply Nat.ltb_lt; lia).
    rewrite E. left. cbn. split; [reflexivity|]. split; [reflexivity|].
    split; [lia|]. right. right. exact Hlt.
  - destruct (nth_error (newest table programId pubkey0) (max_changes - 1))
      as [cutoff|] eqn:Ec; [|apply nth_error_None in Ec; lia].
    rewrite last_of_keep by lia.
    rewrite length_firstn, Hlen, Nat.min_l by lia.
    rewrite Nat.ltb_irrefl, Ec. unfold delete_older.
    destruct delete_err as [e|].
    + left. cbn. split; [reflexivity|]. split; [reflexivity|].
      split; [lia|]. right. left. discriminate.
    + right. exists cutoff. cbn [table_after result deletes delete_error
                                 delete_count].
      split; [reflexivity|]. split; [reflexivity|].
      split; [reflexivity|]. split; [reflexivity|].
      split; [|reflexivity].
      f_equal. destruct (Z.of_nat _ =? 0) eqn:E0; [|reflexivity].
      apply Z.eqb_eq in E0. now rewrite E0.
Qed.

Lemma filter_filter_weaker {A} (f g : A -> bool) l :
  (forall x, In x l -> f x = true -> g x = true) ->
  filter f (filter g l) = filter f l.
Proof.
  induction l as [|x l IH]; intros H; [reflexivity|].
  cbn [filter].
  assert (IH' : filter f (filter g l) = filter f l)
    by (apply IH; intros y Hy; apply H; now right).
  destruct (f x) eqn:Fx.
  - rewrite (H x (or_introl eq_refl) Fx). cbn [filter]. rewrite Fx.
    now rewrite IH'.
  - destruct (g x); cbn [filter]; [rewrite Fx|]; exact IH'.
Qed.

Lemma of_account_other programId pubkey0 programId' pubkey' r :
  (programId', pubkey') <> (programId, pubkey0) ->
  of_account programId' pubkey' r = true ->
  of_account programId pubkey0 r = false.
Proof.
  unfold of_account. intros Hne H.
  apply andb_true_iff in H. destruct H as [H1 H2].
  apply String.eqb_eq in H1, H2.
  destruct (String.eqb (program_id r) programId) eqn:E1; [|reflexivity].
  destruct (String.eqb (pubkey r) pubkey0) eqn:E2; [|reflexivity].
  apply String.eqb_eq in E1, E2. destruct Hne. congruence.
Qed.

Lemma rows_of_other programId pubkey0 cutoff programId' pubkey' table :
  (programId', pubkey') <> (programId, pubkey0) ->
  rows_of (filter (keeps programId pubkey0 cutoff) table) programId' pubkey'
  = rows_of table programId' pubkey'.
Proof.
  intros Hne. unfold rows_of. apply filter_filter_weaker.
  intros r _ Hr. unfold keeps, older_than.
  now rewrite (of_account_other _ _ _ _ r Hne Hr).
Qed.

Lemma account_eq_dec (a b : string * string) : {a = b} + {a <> b}.
Proof. decide equality; apply string_dec. Qed.

(** The newest timestamps of every account stay. *)
Lemma filter_keeps_newest programId pubkey0 cutoff max_changes table
    programId' pubkey' :
  (1 <= max_changes)%nat ->
  nth_error (newest table programId pubkey0) (max_changes - 1)
  = Some cutoff ->
  firstn max_changes
    (newest (filter (keeps programId pubkey0 cutoff) table)
            programId' pubkey')
  = firstn max_changes (newest table programId' pubkey').
Proof.
  intros HK Hc.
  destruct (account_eq_dec (programId', pubkey') (programId, pubkey0))
    as [[= -> ->]|Hne].
  - unfold newest, keeps. rewrite kept_rows, order_desc_filter.
    fold (newest table programId pubkey0).
    pose proof (sorted_prefix_kept _ _ _
                  (order_desc_sorted (timestamps_of table programId pubkey0))
                  Hc) as Hp.
    replace (S (max_changes - 1)) with max_changes in Hp by lia.
    exact Hp.
  - unfold newest, timestamps_of. now rewrite rows_of_other.
Qed.

Lemma keeps_other programId pubkey0 cutoff r :
  keeps programId pubkey0 cutoff r = false ->
  of_account programId pubkey0 r = true /\ created_at r < cutoff.
Proof.
  unfold keeps, older_than. intros H. apply negb_false_iff in H.
  apply andb_true_iff in H. destruct H as [H1 H2].
  now apply Z.ltb_lt in H2.
Qed.

(** X19.  With a positive maximum and whatever the database answers, a
    call of [pruneAccountChanges] never rejects and issues at most one
    delete; it answers the number of rows that left the table; the rows
    that stay are rows of the table in their order; a row that leaves
    belongs to the account and is older than the newest [max_changes]
    timestamps of the account, which all stay, also when timestamps
    repeat; and no select or delete error removes a row. *)
Theorem prune_is_safe :
  forall (select_error delete_err : option string) (max_changes : nat)
         (table : Table) (programId pubkey0 : string),
    (1 <= max_changes)%nat ->
    let r := pruneAccountChanges select_error delete_err max_changes table
                                 programId pubkey0 in
    result r
    = Resolved (Z.of_nat (List.length table)
                - Z.of_nat (List.length (table_after r))) /\
    (List.length (deletes r) <= 1)%nat /\
    (exists keep,
        table_after r = filter keep table /\
        forall row,
          In row table -> keep row = false ->
          of_account programId pubkey0 row = true /\
          Forall (fun t => created_at row < t)
                 (firstn max_changes (newest table programId pubkey0))) /\
    (forall programId' pubkey',
        firstn max_changes (newest (table_after r) programId' pubkey')
        = firstn max_changes (newest table programId' pubkey')) /\
    (select_error <> None \/ delete_err <> None -> table_after r = table).
Proof.
  intros select_error delete_err max_changes table programId pubkey0 HK r.
  destruct (prune_shape select_error delete_err max_changes table programId
              pubkey0 HK) as [(Ht & Hr & Hd & _)|
                              (cutoff & Hse & Hde & Hc & Ht & Hr & Hd)];
    fold r in Ht, Hr, Hd.
  - rewrite Ht, Hr. split; [f_equal; lia|]. split; [exact Hd|]. split.
    { exists (fun _ => true). split.
      - symmetry. apply filter_all. apply Forall_forall. now intros.
      - intros row _ [=]. }
    split; [reflexivity|]. reflexivity.
  - rewrite Ht, Hr, Hd. split.
    { f_equal.
      pose proof (filter_length (older_than programId pubkey0 cutoff) table)
        as Hl.
      unfold keeps. lia. }
    split; [cbn; lia|]. split.
    { exists (keeps programId pubkey0 cutoff). split; [reflexivity|].
      intros row _ Hk. apply keeps_other in Hk. destruct Hk as [Ha Hlt].
      split; [exact Ha|].
      apply Forall_forall. intros t Hin.
      assert (Hs : newest_first (newest table programId pubkey0))
        by apply order_desc_sorted.
      pose proof (sorted_prefix_kept _ _ _ Hs Hc) as Hp.
      replace (S (max_changes - 1)) with max_changes in Hp by lia.
      rewrite <- Hp in Hin. apply firstn_In in Hin.
      apply filter_In in Hin. destruct Hin as [_ Hin].
      unfold older in Hin. apply negb_true_iff, Z.ltb_ge in Hin. lia. }
    split.
    { intros programId' pubkey'. now apply filter_keeps_newest. }
    intros [H|H]; now destruct H.
Qed.

(** X20.  After a call of [pruneAccountChanges] whose queries had no
    error, a second call for the same account deletes nothing, whatever
    the database answers to it: it resolves with 0 and leaves the table
    as the first call left it. *)
Theorem prune_twice_deletes_nothing :
  forall (select_error delete_err : option string) (max_changes : nat)
         (table : Table) (programId pubkey0 : string),
    (1 <= max_changes)%nat ->
    let first := pruneAccountChanges None None max_changes table
                                     programId pubkey0 in
    let second := pruneAccountChanges select_error delete_err max_changes
                                      (table_after first) programId pubkey0 in
    result second = Resolved 0 /\
    table_after second = table_after first.
Proof.
  intros select_error delete_err max_changes table programId pubkey0 HK
         first second.
  destruct (prune_shape select_error delete_err max_changes
              (table_after first) programId pubkey0 HK)
    as [(Ht & Hr & _)|(cutoff' & _ & _ & Hc' & Ht & Hr & _)];
    fold second in Ht, Hr; [now split|].
  destruct (prune_shape None None max_changes table programId pubkey0 HK)
    as [(Ht1 & _ & _ & Hwhy)|(cutoff & _ & _ & Hc & Ht1 & _)];
    fold first in Ht1.
  - (* fewer rows than the maximum: the second call has no cutoff *)
    exfalso. destruct Hwhy as [H|[H|Hlt]]; try (now destruct H).
    rewrite Ht1 in Hc'. apply nth_error_lt in Hc'.
    unfold newest in Hc'. rewrite timestamps_length in Hc'. lia.
  - assert (Hsame : cutoff' = cutoff).
    { pose proof (filter_keeps_newest programId pubkey0 cutoff max_changes
                    table programId pubkey0 HK Hc) as Hn.
      rewrite <- Ht1 in Hn.
      assert (H1 : nth_error (firstn max_changes
                     (newest (table_after first) programId pubkey0))
                     (max_changes - 1) = Some cutoff').
      { rewrite nth_error_firstn.
        destruct (max_changes - 1 <? max_changes)%nat eqn:E; [exact Hc'|].
        apply Nat.ltb_ge in E. lia. }
      rewrite Hn, nth_error_firstn in H1.
      destruct (max_changes - 1 <? max_changes)%nat eqn:E;
        [congruence | apply Nat.ltb_ge in E; lia]. }
    subst cutoff'.
    assert (Hall : filter (keeps programId pubkey0 cutoff) (table_after first)
                   = table_after first).
    { rewrite Ht1. apply filter_all. apply Forall_forall.
      intros row Hrow. now apply filter_In in Hrow. }
    assert (Hnone : filter (older_than programId pubkey0 cutoff)
                           (table_after first) = []).
    { apply filter_none. apply Forall_forall. intros row Hrow.
      rewrite Ht1 in Hrow. apply filter_In in Hrow.
      destruct Hrow as [_ Hk]. unfold keeps in Hk.
      now apply negb_true_iff in Hk. }
    rewrite Hr, Ht, Hall, Hnone. now split.
Qed.

(** *** [cleanupProgram] *)

(** What the loop may do to a table: it removes rows of the program
    only, keeps the others in their order and keeps the newest
    [max_changes] timestamps of every account. *)
Definition pruned (max_changes : nat) (programId : string)
    (table table' : Table) : Prop :=
  (exists keep,
      table' = filter keep table /\
      forall row, keep row = false -> program_id row = programId) /\
  forall programId' pubkey',
    firstn max_changes (newest table' programId' pubkey')
    = firstn max_changes (newest table programId' pubkey').

Lemma pruned_refl max_changes programId table :
  pruned max_changes programId table table.
Proof.
  split; [|reflexivity]. exists (fun _ => true). split.
  - symmetry. apply filter_all. apply Forall_forall. now intros.
  - intros row [=].
Qed.

Lemma filter_both {A} (f g : A -> bool) l :
  filter g (filter f l) = filter (fun x => f x && g x) l.
Proof.
  induction l as [|x l IH]; [reflexivity|]. cbn [filter].
  destruct (f x); cbn [filter andb]; [|exact IH].
  destruct (g x); now rewrite IH.
Qed.

Lemma pruned_trans max_changes programId t1 t2 t3 :
  pruned max_changes programId t1 t2 ->
  pruned max_changes programId t2 t3 ->
  pruned max_changes programId t1 t3.
Proof.
  intros [(k1 & -> & H1) N1] [(k2 & -> & H2) N2]. split.
  - exists (fun row => k1 row && k2 row). split; [apply filter_both|].
    intros row H. apply andb_false_iff in H.
    destruct H as [H|H]; [now apply H1 | now apply H2].
  - intros programId' pubkey'. now rewrite N2, N1.
Qed.

Lemma prune_pruned select_error delete_err max_changes table programId
    pubkey0 :
  (1 <= max_changes)%nat ->
  let r := pruneAccountChanges select_error delete_err max_changes table
                               programId pubkey0 in
  pruned max_changes programId table (table_after r) /\
  exists n,
    result r = Resolved n /\
    n = Z.of_nat (List.length table)
        - Z.of_nat (List.length (table_after r)) /\
    0 <= n.
Proof.
  intros HK r.
  destruct (prune_shape select_error delete_err max_changes table programId
              pubkey0 HK) as [(Ht & Hr & _)|
                              (cutoff & _ & _ & Hc & Ht & Hr & _)];
    fold r in Ht, Hr; rewrite Ht, Hr.
  - split; [apply pruned_refl|]. exists 0.
    split; [reflexivity|]. split; lia.
  - split.
    + split.
      * exists (keeps programId pubkey0 cutoff). split; [reflexivity|].
        intros row Hk. apply keeps_other in Hk. destruct Hk as [Ha _].
        unfold of_account in Ha. apply andb_true_iff in Ha.
        now apply String.eqb_eq.
      * intros programId' pubkey'. now apply filter_keeps_newest.
    + eexists. split; [reflexivity|].
      pose proof (filter_length (older_than programId pubkey0 cutoff) table)
        as Hl.
      unfold keeps. split; lia.
Qed.

(** The totals grow with the rows that leave the table. *)
Definition accounted (totals totals' : Totals) (table table' : Table)
  : Prop :=
  deleted totals' - deleted totals
  = Z.of_nat (List.length table) - Z.of_nat (List.length table') /\
  0 <= accounts totals' - accounts totals
    <= deleted totals' - deleted totals.

Lemma prune_accounts_safe faults max_changes programId pubkeys table
    totals :
  (1 <= max_changes)%nat ->
  exists totals' table',
    prune_accounts faults max_changes programId pubkeys table totals
    = (Resolved totals', table') /\
    pruned max_changes programId table table' /\
    accounted totals totals' table table'.
Proof.
  intros HK. revert table totals.
  induction pubkeys as [|pubkey0 rest IH]; intros table totals.
  - exists totals, table. split; [reflexivity|].
    split; [apply pruned_refl|]. unfold accounted. lia.
  - cbn [prune_accounts].
    destruct (prune_pruned (fault_select faults pubkey0)
                (fault_delete faults pubkey0) max_changes table programId
                pubkey0 HK) as (Hp & n & Hr & Hn & Hpos).
    rewrite Hr.
    set (t1 := table_after _) in *.
    set (totals1 := if n >? 0 then _ else totals).
    destruct (IH t1 totals1) as (totals' & table' & He & Hp' & Ha).
    exists totals', table'. split; [exact He|].
    split; [exact (pruned_trans _ _ _ _ _ Hp Hp')|].
    unfold accounted in *. subst totals1.
    destruct (n >? 0) eqn:E; cbn [deleted accounts] in Ha.
    + apply Z.gtb_lt in E. lia.
    + rewrite Z.gtb_ltb in E. apply Z.ltb_ge in E. lia.
Qed.

Definition program_rows (programId : string) (table : Table) : nat :=
  List.length (filter (of_program programId) table).

Lemma pruned_program_rows max_changes programId table table' :
  pruned max_changes programId table table' ->
  (program_rows programId table' <= program_rows programId table)%nat.
Proof.
  intros [(keep & -> & _) _]. unfold program_rows.
  induction table as [|x l IH]; [cbn; lia|]. cbn [filter].
  destruct (keep x); cbn [filter];
    destruct (of_program programId x); cbn [List.length]; lia.
Qed.

Lemma insert_pubkey_length k l :
  List.length (insert_pubkey k l) = S (List.length l).
Proof.
  induction l as [|x l IH]; [reflexivity|]. cbn [insert_pubkey].
  destruct (String.leb k x); cbn [List.length]; [reflexivity|].
  now rewrite IH.
Qed.

Lemma order_pubkeys_length l :
  List.length (order_pubkeys l) = List.length l.
Proof.
  induction l as [|x l IH]; [reflexivity|].
  change (order_pubkeys (x :: l)) with (insert_pubkey x (order_pubkeys l)).
  now rewrite insert_pubkey_length, IH.
Qed.

Lemma page_length table programId offset :
  (List.length
     (firstn BATCH_SIZE
        (skipn offset
           (order_pubkeys
              (map pubkey (filter (of_program programId) table)))))
   <= program_rows programId table - offset)%nat.
Proof.
  rewrite length_firstn, length_skipn, order_pubkeys_length, length_map.
  unfold program_rows. lia.
Qed.

Lemma BATCH_SIZE_positive : (1 <= BATCH_SIZE)%nat.
Proof. unfold BATCH_SIZE. lia. Qed.

(** What a run of the loop gives: the table is pruned; a resolved run
    accounts for the rows that left; a rejected run has the error of the
    select of a page. *)
Definition cleaned (faults : Faults) (max_changes : nat)
    (programId : string) (table : Table) (totals : Totals)
    (r : Promise Totals * Table) : Prop :=
  pruned max_changes programId table (snd r) /\
  match fst r with
  | Resolved totals' => accounted totals totals' table (snd r)
  | Rejected e => exists offset, fault_query faults offset = Some e
  end.

Lemma cleanup_loop_safe faults max_changes programId :
  (1 <= max_changes)%nat ->
  forall (m offset : nat) (table : Table) (totals : Totals),
    (program_rows programId table - offset <= m)%nat ->
    exists r,
      (forall fuel,
          (m < fuel)%nat ->
          cleanup_loop fuel faults max_changes programId offset table totals
          = Some r) /\
      cleaned faults max_changes programId table totals r.
Proof.
  intros HK. pose proof BATCH_SIZE_positive as HB.
  induction m as [|m IH]; intros offset table totals Hm.
  - (* no row of the program at or beyond the offset *)
    destruct (fault_query faults offset) as [e|] eqn:Eq.
    + exists (Rejected e, table). split.
      * intros [|fuel] Hf; [lia|]. cbn [cleanup_loop].
        unfold select_pubkeys. now rewrite Eq.
      * split; [apply pruned_refl|]. cbn [fst]. now exists offset.
    + pose proof (page_length table programId offset) as Hp.
      exists (Resolved totals, table). split.
      * intros [|fuel] Hf; [lia|]. cbn [cleanup_loop].
        unfold select_pubkeys. rewrite Eq.
        cbn [Db.reply_error Db.reply_data].
        destruct (firstn BATCH_SIZE _) as [|k l]; [reflexivity|].
        cbn [List.length] in Hp. lia.
      * split; [apply pruned_refl|]. cbn [fst snd]. unfold accounted. lia.
  - destruct (fault_query faults offset) as [e|] eqn:Eq.
    { exists (Rejected e, table). split.
      - intros [|fuel] Hf; [lia|]. cbn [cleanup_loop].
        unfold select_pubkeys. now rewrite Eq.
      - split; [apply pruned_refl|]. cbn [fst]. now exists offset. }
    pose proof (page_length table programId offset) as Hp.
    set (page := firstn BATCH_SIZE
                   (skipn offset
                      (order_pubkeys
                         (map pubkey
                              (filter (of_program programId) table))))) in *.
    destruct page as [|k l] eqn:Epage.
    { exists (Resolved totals, table). split.
      - intros [|fuel] Hf; [lia|]. cbn [cleanup_loop].
        unfold select_pubkeys. rewrite Eq.
        cbn [Db.reply_error Db.reply_data]. fold page. now rewrite Epage.
      - split; [apply pruned_refl|]. cbn [fst snd]. unfold accounted. lia. }
    destruct (prune_accounts_safe faults max_changes programId
                (unique [] (k :: l)) table totals HK)
      as (totals1 & table1 & He & Hpr & Hacc).
    destruct (BATCH_SIZE <=? List.length (k :: l))%nat eqn:Emore.
    + apply Nat.leb_le in Emore.
      pose proof (pruned_program_rows _ _ _ _ Hpr) as Hrows.
      destruct (IH (offset + BATCH_SIZE)%nat table1 totals1)
        as (r & Hrun & Hpr' & Hout); [lia|].
      exists r. split.
      * intros [|fuel] Hf; [lia|]. cbn [cleanup_loop].
        unfold select_pubkeys. rewrite Eq.
        cbn [Db.reply_error Db.reply_data]. fold page. rewrite Epage, He.
        apply Nat.leb_le in Emore. rewrite Emore. apply Hrun. lia.
      * split; [exact (pruned_trans _ _ _ _ _ Hpr Hpr')|].
        destruct (fst r) as [totals'|e]; [|exact Hout].
        unfold accounted in *. lia.
    + exists (Resolved totals1, table1). split.
      * intros [|fuel] Hf; [lia|]. cbn [cleanup_loop].
        unfold select_pubkeys. rewrite Eq.
        cbn [Db.reply_error Db.reply_data]. fold page.
        now rewrite Epage, He, Emore.
      * split; [exact Hpr | exact Hacc].
Qed.

(** X21.  With a positive maximum, [cleanupProgram] ends on every table
    and for every answer of the database: one page more than the table
    has rows is enough, and more pages give the same result.  It rejects
    only with the error of the select of a page.  Whether it resolves or
    rejects, the rows it removed are rows of its program, the other rows
    stay in their order, and the newest [max_changes] timestamps of
    every account stay.  When it resolves, [deleted] is the number of
    rows that left the table and [accounts] is at most [deleted]. *)
Theorem cleanupProgram_ends_and_is_safe :
  forall (faults : Faults) (max_changes : nat) (table : Table)
         (programId : string),
    (1 <= max_changes)%nat ->
    exists (out : Promise Totals) (table' : Table),
      (forall fuel,
          (List.length table < fuel)%nat ->
          cleanupProgram fuel faults max_changes table programId
          = Some (out, table')) /\
      (exists keep,
          table' = filter keep table /\
          forall row, keep row = false -> program_id row = programId) /\
      (forall programId' pubkey',
          firstn max_changes (newest table' programId' pubkey')
          = firstn max_changes (newest table programId' pubkey')) /\
      match out with
      | Resolved totals =>
          deleted totals
          = Z.of_nat (List.length table) - Z.of_nat (List.length table') /\
          0 <= accounts totals <= deleted totals
      | Rejected e => exists offset, fault_query faults offset = Some e
      end.
Proof.
  intros faults max_changes table programId HK.
  destruct (cleanup_loop_safe faults max_changes programId HK
              (List.length table) 0%nat table
              {| deleted := 0; accounts := 0 |})
    as ([out table'] & Hrun & [Hkeep Hnew] & Hout).
  { unfold program_rows.
    pose proof (filter_length_le (of_program programId) table). lia. }
  exists out, table'. split; [exact Hrun|].
  split; [exact Hkeep|]. split; [exact Hnew|].
  cbn [fst snd] in Hout. destruct out as [totals|e]; [|exact Hout].
  unfold accounted in Hout. cbn [deleted accounts] in Hout. lia.
Qed.

(** *** A program that fits one page *)

(** An account is settled when none of its rows is older than the
    oldest of its newest [max_changes] timestamps. *)
Definition settled (max_changes : nat) (table : Table)
    (programId pubkey0 : string) : Prop :=
  forall cutoff row,
    nth_error (newest table programId pubkey0) (max_changes - 1)
    = Some cutoff ->
    In row (rows_of table programId pubkey0) ->
    cutoff <= created_at row.

(** A call with no error. *)
Definition prune_one (max_changes : nat) (programId : string)
    (table : Table) (pubkey0 : string) : Table :=
  table_after (pruneAccountChanges None None max_changes table programId
                                   pubkey0).

Lemma prune_one_settles max_changes programId table pubkey0 :
  (1 <= max_changes)%nat ->
  settled max_changes (prune_one max_changes programId table pubkey0)
          programId pubkey0.
Proof.
  intros HK cutoff' row Hc' Hrow. unfold prune_one in *.
  destruct (prune_shape None None max_changes table programId pubkey0 HK)
    as [(Ht & _ & _ & [H|[H|Hlt]])|(cutoff & _ & _ & Hc & Ht & _)];
    try (now destruct H).
  - rewrite Ht in Hc'. apply nth_error_lt in Hc'. unfold newest in Hc'.
    rewrite timestamps_length in Hc'. lia.
  - rewrite Ht in Hc', Hrow.
    pose proof (filter_keeps_newest programId pubkey0 cutoff max_changes
                  table programId pubkey0 HK Hc) as Hn.
    assert (Hsame : cutoff' = cutoff).
    { assert (H1 : nth_error (firstn max_changes
                     (newest (filter (keeps programId pubkey0 cutoff) table)
                             programId pubkey0))
                     (max_changes - 1) = Some cutoff').
      { rewrite nth_error_firstn.
        destruct (max_changes - 1 <? max_changes)%nat eqn:E; [exact Hc'|].
        apply Nat.ltb_ge in E. lia. }
      rewrite Hn, nth_error_firstn in H1.
      destruct (max_changes - 1 <? max_changes)%nat eqn:E;
        [congruence | apply Nat.ltb_ge in E; lia]. }
    subst cutoff'. unfold rows_of in Hrow.
    apply filter_In in Hrow. destruct Hrow as [Hrow Ha].
    apply filter_In in Hrow. destruct Hrow as [_ Hk].
    unfold keeps, older_than in Hk. rewrite Ha in Hk. cbn [andb] in Hk.
    apply negb_true_iff, Z.ltb_ge in Hk. exact Hk.
Qed.

Lemma prune_one_other max_changes programId table pubkey0 pubkey' :
  (1 <= max_changes)%nat ->
  pubkey' <> pubkey0 ->
  rows_of (prune_one max_changes programId table pubkey0) programId pubkey'
  = rows_of table programId pubkey'.
Proof.
  intros HK Hne. unfold prune_one.
  destruct (prune_shape None None max_changes table programId pubkey0 HK)
    as [(Ht & _)|(cutoff & _ & _ & _ & Ht & _)]; rewrite Ht;
    [reflexivity|].
  apply rows_of_other. congruence.
Qed.

Lemma settled_rows max_changes table table' programId pubkey0 :
  rows_of table' programId pubkey0 = rows_of table programId pubkey0 ->
  settled max_changes table programId pubkey0 ->
  settled max_changes table' programId pubkey0.
Proof.
  unfold settled, newest, timestamps_of. intros ->. trivial.
Qed.

Lemma fold_settled max_changes programId pubkeys table pubkey0 :
  (1 <= max_changes)%nat ->
  In pubkey0 pubkeys \/ settled max_changes table programId pubkey0 ->
  settled max_changes
          (fold_left (prune_one max_changes programId) pubkeys table)
          programId pubkey0.
Proof.
  intros HK. revert table.
  induction pubkeys as [|k pubkeys IH]; intros table H; cbn [fold_left].
  - destruct H as [[]|H]. exact H.
  - apply IH.
    destruct (string_dec pubkey0 k) as [->|Hne].
    + right. now apply prune_one_settles.
    + destruct H as [[H|H]|H].
      * now destruct Hne.
      * now left.
      * right. apply (settled_rows _ table); [|exact H].
        now apply prune_one_other.
Qed.

Lemma prune_accounts_no_fault faults max_changes programId pubkeys table
    totals :
  (1 <= max_changes)%nat ->
  (forall k, fault_select faults k = None) ->
  (forall k, fault_delete faults k = None) ->
  exists totals',
    prune_accounts faults max_changes programId pubkeys table totals
    = (Resolved totals',
       fold_left (prune_one max_changes programId) pubkeys table).
Proof.
  intros HK Hs Hd. revert table totals.
  induction pubkeys as [|k pubkeys IH]; intros table totals.
  - now exists totals.
  - cbn [prune_accounts fold_left]. rewrite Hs, Hd.
    destruct (prune_pruned None None max_changes table programId k HK)
      as (_ & n & Hr & _).
    rewrite Hr. fold (prune_one max_changes programId table k). apply IH.
Qed.

Lemma In_insert_pubkey x k l :
  In x (insert_pubkey k l) <-> x = k \/ In x l.
Proof.
  induction l as [|y l IH]; cbn [insert_pubkey].
  - cbn. intuition.
  - destruct (String.leb k y); cbn [In]; [intuition|].
    rewrite IH. intuition.
Qed.

Lemma In_order_pubkeys x l : In x (order_pubkeys l) <-> In x l.
Proof.
  induction l as [|y l IH]; [reflexivity|].
  change (order_pubkeys (y :: l)) with (insert_pubkey y (order_pubkeys l)).
  rewrite In_insert_pubkey, IH. cbn [In]. intuition.
Qed.

Lemma In_unique x seen l :
  In x l -> In x seen \/ In x (unique seen l).
Proof.
  revert seen. induction l as [|y l IH]; intros seen Hx; [destruct Hx|].
  cbn [unique]. destruct (existsb (String.eqb y) seen) eqn:E.
  - destruct Hx as [->|Hx]; [|now apply IH].
    left. apply existsb_exists in E. destruct E as (z & Hz & Ez).
    apply String.eqb_eq in Ez. now subst z.
  - destruct Hx as [->|Hx]; [right; now left|].
    destruct (IH (y :: seen) Hx) as [[->|H]|H].
    + right. now left.
    + now left.
    + right. now right.
Qed.

Lemma rows_of_pruned max_changes programId table table' pubkey0 row :
  pruned max_changes programId table table' ->
  In row (rows_of table' programId pubkey0) ->
  In row (rows_of table programId pubkey0).
Proof.
  intros [(keep & -> & _) _] H. unfold rows_of in *.
  apply filter_In in H. destruct H as [H Ha].
  apply filter_In in H. destruct H as [H _].
  apply filter_In. now split.
Qed.

Lemma settled_distinct max_changes table programId pubkey0 :
  (1 <= max_changes)%nat ->
  settled max_changes table programId pubkey0 ->
  NoDup (timestamps_of table programId pubkey0) ->
  (List.length (newest table programId pubkey0) <= max_changes)%nat.
Proof.
  intros HK Hs Hnd. unfold settled in Hs. unfold newest in *.
  destruct (nth_error (order_desc (timestamps_of table programId pubkey0))
                      (max_changes - 1))
    as [cutoff|] eqn:Ec; [|apply nth_error_None in Ec; lia].
  assert (Hnd' : NoDup (order_desc (timestamps_of table programId pubkey0)))
    by (eapply Permutation_NoDup; [apply order_desc_perm | exact Hnd]).
  pose proof (older_beyond _ _ cutoff
                (order_desc_sorted (timestamps_of table programId pubkey0))
                Hnd' Ec) as Hb.
  rewrite filter_none in Hb.
  - apply (f_equal (@List.length Z)) in Hb. rewrite length_skipn in Hb.
    cbn [List.length] in Hb. lia.
  - apply Forall_forall. intros t Ht. unfold older. apply Z.ltb_ge.
    apply (Permutation_in _ (Permutation_sym (order_desc_perm _))) in Ht.
    unfold timestamps_of in Ht. apply in_map_iff in Ht.
    destruct Ht as (row & <- & Hrow). exact (Hs cutoff row eq_refl Hrow).
Qed.

Lemma pruned_distinct max_changes programId table table' programId'
    pubkey' :
  pruned max_changes programId table table' ->
  NoDup (timestamps_of table programId' pubkey') ->
  NoDup (timestamps_of table' programId' pubkey').
Proof.
  intros [(keep & -> & _) _]. unfold timestamps_of, rows_of.
  intros Hnd.
  assert (E : filter (of_account programId' pubkey') (filter keep table)
              = filter keep (filter (of_account programId' pubkey') table)).
  { rewrite !filter_both. apply filter_ext. intros r. apply andb_comm. }
  rewrite E. clear E.
  induction (filter (of_account programId' pubkey') table) as [|r l IH];
    [constructor|].
  cbn [map] in Hnd. inversion Hnd as [|? ? Hnotin Hnd']; subst.
  cbn [filter]. destruct (keep r); [|now apply IH].
  cbn [map]. constructor; [|now apply IH].
  intros H. apply Hnotin. apply in_map_iff in H.
  destruct H as (r' & Hr' & Hin). apply filter_In in Hin.
  rewrite <- Hr'. apply in_map. now destruct Hin.
Qed.

(** X24.  When the rows of a program fit one page and no query fails,
    one call of [cleanupProgram] with a positive maximum resolves after
    a single page and prunes every account of the program: no row that
    stays is older than the oldest of the newest [max_changes]
    timestamps of its account, and an account whose timestamps are
    distinct keeps exactly its newest [max_changes] rows. *)
Theorem cleanupProgram_prunes_one_page :
  forall (faults : Faults) (max_changes : nat) (table : Table)
         (programId : string),
    (1 <= max_changes)%nat ->
    (program_rows programId table < BATCH_SIZE)%nat ->
    fault_query faults 0%nat = None ->
    (forall k, fault_select faults k = None) ->
    (forall k, fault_delete faults k = None) ->
    exists (totals : Totals) (table' : Table),
      (forall fuel,
          (1 <= fuel)%nat ->
          cleanupProgram fuel faults max_changes table programId
          = Some (Resolved totals, table')) /\
      (forall pubkey0 cutoff row,
          nth_error (newest table' programId pubkey0) (max_changes - 1)
          = Some cutoff ->
          In row table' ->
          of_account programId pubkey0 row = true ->
          cutoff <= created_at row) /\
      (forall pubkey0,
          NoDup (timestamps_of table programId pubkey0) ->
          newest table' programId pubkey0
          = firstn max_changes (newest table programId pubkey0)).
Proof.
  intros faults max_changes table programId HK Hfit Hq Hs Hd.
  set (page := order_pubkeys
                 (map pubkey (filter (of_program programId) table))).
  assert (Hpage : firstn BATCH_SIZE (skipn 0 page) = page).
  { cbn [skipn]. apply firstn_all2. unfold page.
    rewrite order_pubkeys_length, length_map.
    unfold program_rows in Hfit. lia. }
  assert (Hlen : List.length page = program_rows programId table).
  { unfold page, program_rows.
    now rewrite order_pubkeys_length, length_map. }
  set (table' := fold_left (prune_one max_changes programId)
                           (unique [] page) table).
  destruct (prune_accounts_no_fault faults max_changes programId
              (unique [] page) table {| deleted := 0; accounts := 0 |}
              HK Hs Hd) as (totals & Hrun).
  fold table' in Hrun.
  destruct (prune_accounts_safe faults max_changes programId
              (unique [] page) table {| deleted := 0; accounts := 0 |} HK)
    as (totals0 & table0 & Hrun0 & Hpr & _).
  rewrite Hrun in Hrun0. injection Hrun0 as <- <-.
  assert (Hsettled : forall pubkey0,
             settled max_changes table' programId pubkey0).
  { intros pubkey0. unfold table'.
    destruct (rows_of table programId pubkey0) as [|r0 l0] eqn:Er.
    - intros cutoff row _ Hrow.
      apply (rows_of_pruned _ _ _ _ _ _ Hpr) in Hrow.
      rewrite Er in Hrow. destruct Hrow.
    - apply fold_settled; [exact HK|]. left.
      assert (Hin : In pubkey0 page).
      { unfold page. apply In_order_pubkeys.
        assert (H0 : In r0 (rows_of table programId pubkey0))
          by (rewrite Er; now left).
        unfold rows_of in H0. apply filter_In in H0.
        destruct H0 as [H0 Ha]. unfold of_account in Ha.
        apply andb_true_iff in Ha. destruct Ha as [Ha1 Ha2].
        apply String.eqb_eq in Ha2. rewrite <- Ha2. apply in_map.
        apply filter_In. split; [exact H0 | exact Ha1]. }
      destruct (In_unique pubkey0 [] page Hin) as [[]|H]. exact H. }
  exists (match page with [] => {| deleted := 0; accounts := 0 |}
                        | _ :: _ => totals end), table'.
  split; [|split].
  - intros [|fuel] Hf; [lia|]. unfold cleanupProgram.
    cbn [cleanup_loop]. unfold select_pubkeys. rewrite Hq.
    cbn [Db.reply_error Db.reply_data]. fold page. rewrite Hpage.
    destruct page as [|k l] eqn:Ep.
    + reflexivity.
    + rewrite Hrun.
      assert (E : (BATCH_SIZE <=? List.length (k :: l))%nat = false)
        by (apply Nat.leb_gt; lia).
      now rewrite E.
  - intros pubkey0 cutoff row Hc Hrow Ha.
    apply (Hsettled pubkey0 cutoff row Hc).
    unfold rows_of. apply filter_In. now split.
  - intros pubkey0 Hnd.
    pose proof (settled_distinct max_changes table' programId pubkey0 HK
                  (Hsettled pubkey0)
                  (pruned_distinct _ _ _ _ _ _ Hpr Hnd)) as Hle.
    destruct Hpr as [_ Hnew]. rewrite <- Hnew.
    symmetry. now apply firstn_all2.
Qed.

(** *** The facts above on sample tables *)

Lemma prune_is_safe_witness :
  let r := pruneAccountChanges None None 10 fifteen_rows "P" "A" in
  result r
  = Resolved (Z.of_nat (List.length fifteen_rows)
              - Z.of_nat (List.length (table_after r))) /\
  firstn 10 (newest (table_after r) "P" "A")
  = firstn 10 (newest fifteen_rows "P" "A").
Proof.
  intros r.
  destruct (prune_is_safe None None 10 fifteen_rows "P" "A")
    as (H1 & _ & _ & H4 & _); [lia|].
  split; [exact H1 | exact (H4 "P" "A")].
Defined.

Lemma prune_twice_deletes_nothing_witness :
  let first := pruneAccountChanges None None 10 fifteen_rows "P" "A" in
  let second := pruneAccountChanges None None 10 (table_after first)
                                    "P" "A" in
  result second = Resolved 0 /\ table_after second = table_after first.
Proof.
  intros first second.
  apply (prune_twice_deletes_nothing None None 10 fifteen_rows "P" "A").
  lia.
Defined.

(** A database that answers every query. *)
Definition no_fault : Faults :=
  {| fault_query := fun _ => None;
     fault_select := fun _ => None;
     fault_delete := fun _ => None |}.

Lemma cleanupProgram_ends_and_is_safe_witness :
  exists out table',
    cleanupProgram 17 no_fault 10 fifteen_rows "P" = Some (out, table') /\
    firstn 10 (newest table' "P" "A")
    = firstn 10 (newest fifteen_rows "P" "A").
Proof.
  destruct (cleanupProgram_ends_and_is_safe no_fault 10 fifteen_rows "P")
    as (out & table' & Hrun & _ & Hnew & _); [lia|].
  exists out, table'. split.
  - apply Hrun. cbn. lia.
  - exact (Hnew "P" "A").
Defined.

Lemma cleanupProgram_prunes_one_page_witness :
  exists totals table',
    cleanupProgram 1 no_fault 10 fifteen_rows "P"
    = Some (Resolved totals, table') /\
    newest table' "P" "A" = firstn 10 (newest fifteen_rows "P" "A").
Proof.
  destruct (cleanupProgram_prunes_one_page no_fault 10 fifteen_rows "P")
    as (totals & table' & Hrun & _ & Hnew).
  - lia.
  - vm_compute. lia.
  - reflexivity.
  - reflexivity.
  - reflexivity.
  - exists totals, table'. split; [apply Hrun; lia|].
    apply Hnew. vm_compute. repeat constructor; cbn; intuition discriminate.
Defined.

End CleanupMore.

(** * Facts about the wiring of the worker *)

Module WorkerMore.
Import Processor ProcessorFacts.

(** The account a message hands to the callback, with its slot: none for
    a pong, for a message with no account update and for an account
    update with no account. *)
Definition carried (message : Grpc.SubscribeUpdate)
  : option (Grpc.AccountInfo * Z) :=
  if Grpc.pong message then None
  else
    match Grpc.account message with
    | Some a =>
        match Grpc.update_account a with
        | Some info => Some (info, Grpc.update_slot a)
        | None => None
        end
    | None => None
    end.

Definition carries (message : Grpc.SubscribeUpdate) : bool :=
  match carried message with Some _ => true | None => false end.

Definition decode (c : Grpc.AccountInfo * Z) : Grpc.AccountUpdate :=
  {| Grpc.pubkey := AddressCodec.toBase58 (Grpc.info_pubkey (fst c));
     Grpc.owner := AddressCodec.toBase58 (Grpc.info_owner (fst c));
     Grpc.lamports := Grpc.info_lamports (fst c);
     Grpc.slot := snd c;
     Grpc.data := Grpc.info_data (fst c);
     Grpc.executable := Grpc.info_executable (fst c);
     Grpc.rentEpoch := Grpc.info_rentEpoch (fst c) |}.

Lemma handleUpdate_carried message :
  Grpc.handleUpdate true message = option_map decode (carried message).
Proof.
  unfold Grpc.handleUpdate, carried, Grpc.handleAccountUpdate.
  destruct (Grpc.pong message); [reflexivity|].
  destruct (Grpc.account message) as [a|]; [|reflexivity].
  now destruct (Grpc.update_account a).
Qed.

(** The updates the callback gets from the messages of a stream. *)
Definition decoded (messages : list Grpc.SubscribeUpdate)
  : list Grpc.AccountUpdate :=
  flat_map (fun m => match carried m with
                     | Some c => [decode c]
                     | None => []
                     end) messages.

Section More.

Variable sha256 : list byte -> string.

Abbreviation on_stream := (Worker.on_stream sha256).
Abbreviation deliver := (Processor.deliver sha256).
Abbreviation buffered := (Processor.buffered sha256).

Lemma on_stream_deliver messages p :
  on_stream messages p = deliver (decoded messages) p.
Proof.
  revert p. induction messages as [|m messages IH]; intros p;
    [reflexivity|].
  cbn [Worker.on_stream fold_left decoded flat_map].
  fold (on_stream messages (Worker.on_data sha256 p m)).
  fold (decoded messages). rewrite IH.
  unfold Worker.on_data. rewrite handleUpdate_carried.
  now destruct (carried m).
Qed.

Lemma deliver_received updates p :
  updatesReceived (stats (deliver updates p))
  = updatesReceived (stats p) + Z.of_nat (List.length updates).
Proof.
  revert p. induction updates as [|u updates IH]; intros p.
  - cbn. lia.
  - cbn [Processor.deliver fold_left].
    fold (deliver updates (Processor.addUpdate sha256 u p)).
    rewrite IH. cbn [Processor.addUpdate stats updatesReceived List.length].
    lia.
Qed.

Lemma decoded_length messages :
  List.length (decoded messages) = List.length (filter carries messages).
Proof.
  induction messages as [|m messages IH]; [reflexivity|].
  cbn [decoded flat_map filter]. fold (decoded messages).
  unfold carries at 1. destruct (carried m); cbn [app List.length];
    now rewrite IH.
Qed.

(** X22.  Through [handleUpdate] and the callback of [main], the
    processor counts one update for each message that carries an
    account and none for a pong or a message without account; a stream
    of such messages only leaves the processor as it was.  The account
    of a message is buffered under the base-58 text of its raw pubkey,
    with the text of its owner as program, its slot, its data and the
    digest of its data, and it stays there as long as no later message
    carries an account with the same raw pubkey: accounts with different
    raw pubkeys never share an entry of the buffer. *)
Theorem stream_accounts_reach_buffer :
  forall (messages : list Grpc.SubscribeUpdate) (p : ChangeProcessor),
    let q := on_stream messages p in
    updatesReceived (stats q)
    = updatesReceived (stats p)
      + Z.of_nat (List.length (filter carries messages)) /\
    ((forall m, In m messages -> carried m = None) -> q = p) /\
    (forall before message later info slot0,
        messages = before ++ message :: later ->
        carried message = Some (info, slot0) ->
        (forall m info' slot',
            In m later -> carried m = Some (info', slot') ->
            Grpc.info_pubkey info' <> Grpc.info_pubkey info) ->
        exists b,
          JsMap.get (AddressCodec.toBase58 (Grpc.info_pubkey info))
                    (buffer q) = Some b /\
          pubkey b = AddressCodec.toBase58 (Grpc.info_pubkey info) /\
          programId b = AddressCodec.toBase58 (Grpc.info_owner info) /\
          slot b = slot0 /\
          data b = Grpc.info_data info /\
          dataHash b = sha256 (Grpc.info_data info)).
Proof.
  intros messages p q. subst q. rewrite on_stream_deliver.
  split; [|split].
  - now rewrite deliver_received, decoded_length.
  - intros Hnone.
    assert (E : decoded messages = []).
    { unfold decoded. apply flat_map_nil. intros m Hm.
      now rewrite (Hnone m Hm). }
    now rewrite E.
  - intros before message later info slot0 -> Hc Hlater.
    exists (buffered (decode (info, slot0))).
    split; [|repeat split].
    unfold decoded. rewrite flat_map_app. cbn [flat_map]. rewrite Hc.
    cbn [app]. fold (decoded before). fold (decoded later).
    apply buffer_after_updates; [reflexivity|].
    intros x Hx Heq. unfold decoded in Hx. apply in_flat_map in Hx.
    destruct Hx as (m & Hm & Hx).
    destruct (carried m) as [[info' slot']|] eqn:Em; [|destruct Hx].
    destruct Hx as [<-|[]]. cbn [decode Grpc.pubkey fst] in Heq.
    apply AddressCodecMore.toBase58_eq in Heq.
    exact (Hlater m info' slot' Hm Em Heq).
Qed.

End More.

(** The fact above on a sample stream: an account, a pong and another
    account. *)

Definition message_of (k : list byte) (d : list byte) (s : Z)
  : Grpc.SubscribeUpdate :=
  {| Grpc.pong := false;
     Grpc.account :=
       Some {| Grpc.update_account :=
                 Some {| Grpc.info_pubkey := k; Grpc.info_owner := [x02];
                         Grpc.info_lamports := 1; Grpc.info_data := d;
                         Grpc.info_executable := false;
                         Grpc.info_rentEpoch := 0 |};
               Grpc.update_slot := s |};
     Grpc.slot_update := None |}.

Definition pong_message : Grpc.SubscribeUpdate :=
  {| Grpc.pong := true; Grpc.account := None; Grpc.slot_update := None |}.

Lemma stream_accounts_reach_buffer_witness :
  let q := Worker.on_stream ProcessorSamples.sample_digest
             [message_of [x01] [x0a] 5; pong_message;
              message_of [x03] [x0b] 6] new_processor in
  exists b,
    JsMap.get (AddressCodec.toBase58 [x01]) (buffer q) = Some b /\
    slot b = 5 /\ data b = [x0a].
Proof.
  intros q.
  destruct (stream_accounts_reach_buffer ProcessorSamples.sample_digest
              [message_of [x01] [x0a] 5; pong_message;
               message_of [x03] [x0b] 6] new_processor) as (_ & _ & H).
  destruct (H [] (message_of [x01] [x0a] 5)
              [pong_message; message_of [x03] [x0b] 6]
              {| Grpc.info_pubkey := [x01]; Grpc.info_owner := [x02];
                 Grpc.info_lamports := 1; Grpc.info_data := [x0a];
                 Grpc.info_executable := false; Grpc.info_rentEpoch := 0 |}
              5 eq_refl eq_refl) as (b & Hb & _ & _ & Hs & Hd & _).
  - intros m info' slot' [<-|[<-|[]]]; [discriminate|].
    intros [= <- _]. discriminate.
  - exists b. split; [exact Hb|]. split; [exact Hs | exact Hd].
Defined.

End WorkerMore.
